(** * Map-art converter and gradient tool: palette matching and mosaic assembly

    A shallow embedding of the two scripts of the repository:
    - the map-art converter (Lab conversion, [buildPalette],
      [findNearestBlock], [generate], [renderTextureMosaic]);
    - the gradient tool ([preferencePenalty], [pickTransitions]);
    - around them: the CSV of the counts, the centre crop and the zoom of the
      converter; the candidates, [normalizeId] and [update] of the gradient
      tool.

    JavaScript numbers are IEEE-754 binary64 values: they are modelled by the
    kernel's primitive floats, whose [+], [-], [*], [/], [sqrt] and comparisons
    are the IEEE operations the scripts use.  The [Map]s of the scripts are
    finite maps.  A plain object used as a dictionary is the finite map of its
    own properties, read and written as the language does: a name that is no
    own key finds what [Object.prototype] has under it.  The catalog, whose
    key order is observable through [Object.keys], is an association list. *)

From Stdlib Require Import ZArith Lia Bool List Ascii String Floats.
From stdpp Require Import base option list gmap strings sorting pretty.

Set Warnings "-inexact-float".
Local Open Scope Z_scope.

(** ** IEEE-754 numbers

    The comparisons [<] and [==] of the scripts, [Infinity], and the
    conversion of an integer to a number. *)
Module F64.

Definition lt (x y : float) : bool := PrimFloat.ltb x y.
Definition eq (x y : float) : bool := PrimFloat.eqb x y.

(** [Infinity] of JavaScript. *)
Definition Infinity : float := PrimFloat.infinity.

(** A number is below [Infinity] exactly when it is neither [NaN] nor
    [+Infinity]. *)
Definition below_inf (x : float) : bool := lt x Infinity.

(** A small non-negative integer (a byte, a loop index, a penalty) as a
    number. *)
Definition of_Z (z : Z) : float := PrimFloat.of_uint63 (Uint63.of_Z z).

(** [x <= y]. *)
Definition le (x y : float) : bool := PrimFloat.leb x y.

(** A number is finite when it is neither [NaN] nor an infinity. *)
Definition finite (x : float) : bool :=
  (PrimFloat.abs x <? PrimFloat.infinity)%float.

(** A number that is not [NaN]. *)
Definition is_number (x : float) : Prop := Prim2SF x <> S754_nan.

End F64.

(** ** Lab colours

    A Lab colour is the three-element array [[L, a, b]]. *)
Definition Lab : Type := float * float * float.

(** [distLab(a, b)], the same function in both scripts. *)
Definition distLab (a b : Lab) : float :=
  let '(a0, a1, a2) := a in
  let '(b0, b1, b2) := b in
  let dL := (a0 - b0)%float in
  let da := (a1 - b1)%float in
  let db := (a2 - b2)%float in
  PrimFloat.sqrt (dL * dL + da * da + db * db)%float.

(** ** The catalog ([blocks.json])

    Each block has an optional display name, an optional average colour and
    two optional objects of boolean marks, [tags] and [tag_flags]; a mark that
    is absent reads as [undefined], which is falsy, and is [false] here. *)
Module Catalog.

Record Tags : Type := mkTags {
  transparent : bool;
  noisy : bool;
  creative_only : bool
}.

Record Flags : Type := mkFlags {
  full_block : bool;
  building_block : bool;
  plantlike : bool;
  redstone : bool;
  ore : bool
}.

Record Block : Type := mkBlock {
  name : option string;
  avg_lab : option Lab;
  tags : option Tags;
  tag_flags : option Flags
}.

(** [{}]: the object without marks. *)
Definition no_tags : Tags := mkTags false false false.
Definition no_flags : Flags := mkFlags false false false false false.

End Catalog.
Import Catalog.

(** [x || dflt] on a string that may be absent: the empty string is falsy. *)
Definition str_or (x : option string) (dflt : string) : string :=
  match x with
  | Some s => if decide (s = EmptyString) then dflt else s
  | None => dflt
  end.

(** An error thrown by the script ([TypeError] on a property of [null] or
    [undefined]). *)
Inductive result (A : Type) : Type :=
| Ok (a : A)
| TypeError.
Arguments Ok {A} a.
Arguments TypeError {A}.

(** ** JavaScript values the scripts rely on *)
Module JS.

(** A plain object read from JSON, with its own keys in property order. *)
Definition object (V : Type) : Type := list (string * V).

(** [Object.keys(o)]. *)
Definition keys {V : Type} (o : object V) : list string := map fst o.

(** [o[k]]: the value of the own property [k], or [undefined]. *)
Fixpoint get {V : Type} (o : object V) (k : string) : option V :=
  match o with
  | [] => None
  | (k', v) :: o' => if decide (k' = k) then Some v else get o' k
  end.

(** An object has each key once. *)
Definition wf {V : Type} (o : object V) : Prop := NoDup (keys o).

(** The names of the properties that every plain object inherits from
    [Object.prototype]: eleven functions and the accessor [__proto__].  A read
    [o[k]] of a name that is no own key of [o] finds them. *)
Definition Object_prototype : list string :=
  [ "constructor"; "hasOwnProperty"; "isPrototypeOf"; "propertyIsEnumerable";
    "toLocaleString"; "toString"; "valueOf"; "__proto__";
    "__defineGetter__"; "__defineSetter__"; "__lookupGetter__";
    "__lookupSetter__" ]%string.

Definition inherited (k : string) : bool := bool_decide (k ∈ Object_prototype).

(** [ToInt32]: the 32-bit two's complement value the bit operators work on. *)
Definition toInt32 (z : Z) : Z := (z + 2 ^ 31) mod 2 ^ 32 - 2 ^ 31.

(** [a << k] and [a | b] on 32-bit integers. *)
Definition shl (a k : Z) : Z := toInt32 (Z.shiftl (toInt32 a) (k mod 32)).
Definition bor (a b : Z) : Z := toInt32 (Z.lor (toInt32 a) (toInt32 b)).

(** [arr.sort(cmp)]: a stable sort; an element moves before another only
    when the comparator is negative or zero on them in that order, and equal
    elements keep their order. *)
Section Sort.
Context {A : Type} (cmp : A -> A -> Z).

Fixpoint sort_insert (x : A) (l : list A) : list A :=
  match l with
  | [] => [x]
  | y :: l' => if (cmp x y <=? 0)%Z then x :: y :: l' else y :: sort_insert x l'
  end.

Fixpoint sort (l : list A) : list A :=
  match l with
  | [] => []
  | x :: l' => sort_insert x (sort l')
  end.
End Sort.

(** [arr[p] = v] on an array: a write past the end extends the array and
    leaves holes in between. *)
Definition array_set {A : Type} (hole : A) (arr : list A) (p : nat) (v : A) : list A :=
  if decide (p < length arr)%nat then <[p := v]> arr
  else arr ++ replicate (p - length arr) hole ++ [v].

(** [Math.min(x, y)] and [Math.max(x, y)]: [NaN] as soon as an argument is
    [NaN]; [-0] counts as less than [+0]. *)
Definition Math_min (x y : float) : float :=
  if PrimFloat.is_nan x || PrimFloat.is_nan y then PrimFloat.nan
  else if (x <? y)%float then x
  else if (y <? x)%float then y
  else match PrimFloat.classify x with NZero => x | _ => y end.

Definition Math_max (x y : float) : float :=
  if PrimFloat.is_nan x || PrimFloat.is_nan y then PrimFloat.nan
  else if (y <? x)%float then x
  else if (x <? y)%float then y
  else match PrimFloat.classify x with PZero => x | _ => y end.

(** Strings are sequences of code units, here the units below 256.  The
    white space of [trim] and of [\s]: tab, line feed, vertical tab, form
    feed, carriage return, space and no-break space. *)
Definition is_space (c : ascii) : bool :=
  let n := nat_of_ascii c in
  ((9 <=? n)%nat && (n <=? 13)%nat) || (n =? 32)%nat || (n =? 160)%nat.

(** The lower case of a unit: [A]-[Z] and the capital letters from 192 to
    222 (but the multiplication sign, 215) move up by 32. *)
Definition lower (c : ascii) : ascii :=
  let n := nat_of_ascii c in
  if ((65 <=? n)%nat && (n <=? 90)%nat)
     || ((192 <=? n)%nat && (n <=? 222)%nat && negb (n =? 215)%nat)
  then ascii_of_nat (n + 32) else c.

Fixpoint trimStart (s : string) : string :=
  match s with
  | EmptyString => EmptyString
  | String c s' => if is_space c then trimStart s' else s
  end.

Fixpoint trimEnd (s : string) : string :=
  match s with
  | EmptyString => EmptyString
  | String c s' =>
    match trimEnd s' with
    | EmptyString => if is_space c then EmptyString else String c EmptyString
    | r => String c r
    end
  end.

(** [s.trim()]. *)
Definition trim (s : string) : string := trimEnd (trimStart s).

(** [s.toLowerCase()]. *)
Fixpoint toLowerCase (s : string) : string :=
  match s with
  | EmptyString => EmptyString
  | String c s' => String (lower c) (toLowerCase s')
  end.

(** [s.replace(/\s+/g, r)]: every maximal run of white space becomes [r];
    [in_run] is whether the unit before was white space. *)
Fixpoint replace_spaces (r : string) (in_run : bool) (s : string) : string :=
  match s with
  | EmptyString => EmptyString
  | String c s' =>
    if is_space c then
      if in_run then replace_spaces r true s' else r +:+ replace_spaces r true s'
    else String c (replace_spaces r false s')
  end.

End JS.

(** ** The map-art converter *)
Module MapArt.

(** [TILE]: every chosen texture is drawn as a 16 x 16 tile. *)
Definition TILE : Z := 16.

(** An entry of [PALETTE]: [{ id, name, lab, tags, flags }]. *)
Record PaletteEntry : Type := mkEntry {
  id : string;
  name : string;
  lab : Lab;
  tags : Tags;
  flags : Flags
}.

(** A loaded texture ([HTMLImageElement]). *)
Record Image : Type := mkImage {
  src : string;
  width : Z;
  height : Z
}.

(** What a cell of [assign] holds: a hole of [new Array(n)] ([undefined]),
    [null] for a transparent pixel, or the id of the chosen block. *)
Inductive cell : Type :=
| undefined
| null
| str (s : string).

#[global] Instance cell_eq_dec : EqDecision cell.
Proof. solve_decision. Defined.

(** [!!v] for a cell: holes, [null] and the empty string are falsy. *)
Definition truthy (c : cell) : bool :=
  match c with
  | str s => if decide (s = EmptyString) then false else true
  | _ => false
  end.

(** One call [outCtx.drawImage(tex, sx, sy, sw, sh, dx, dy, dw, dh)]. *)
Record drawImage : Type := mkDraw {
  tex : Image;
  sx : Z; sy : Z; sw : Z; sh : Z;
  dx : Z; dy : Z; dw : Z; dh : Z
}.

(** *** Lab conversion (sRGB -> linear -> XYZ -> Lab D65)

    [Math.pow] and [Math.cbrt] are left to the host by the language
    ("implementation-approximated"); the converter takes them as given. *)
Section Converter.
Variable Math_pow : float -> float -> float.
Variable Math_cbrt : float -> float.

Definition srgbToLinear (u : float) : float :=
  if (u <=? 0.04045)%float then (u / 12.92)%float
  else Math_pow ((u + 0.055) / 1.055)%float 2.4%float.

Definition rgbToXyz (r g b : float) : float * float * float :=
  let x := (r * 0.4124564 + g * 0.3575761 + b * 0.1804375)%float in
  let y := (r * 0.2126729 + g * 0.7151522 + b * 0.0721750)%float in
  let z := (r * 0.0193339 + g * 0.1191920 + b * 0.9503041)%float in
  (x, y, z).

Definition fLab (t : float) : float :=
  let d := (6 / 29)%float in
  let d3 := (d * d * d)%float in
  if (d3 <? t)%float then Math_cbrt t else (t / (3 * d * d) + 4 / 29)%float.

Definition xyzToLab (x y z : float) : Lab :=
  let Xn := 0.95047%float in
  let Yn := 1.0%float in
  let Zn := 1.08883%float in
  let fx := fLab (x / Xn) in
  let fy := fLab (y / Yn) in
  let fz := fLab (z / Zn) in
  let L := (116 * fy - 16)%float in
  let a := (500 * (fx - fy))%float in
  let b := (200 * (fy - fz))%float in
  (L, a, b).

Definition rgbToLab255 (R G B : Z) : Lab :=
  let r := srgbToLinear (F64.of_Z R / 255)%float in
  let g := srgbToLinear (F64.of_Z G / 255)%float in
  let b := srgbToLinear (F64.of_Z B / 255)%float in
  let '(x, y, z) := rgbToXyz r g b in
  xyzToLab x y z.
End Converter.

(** *** Curated top textures *)

(** [topTextureExists(id)]: the answer of the [HEAD] request ([fetchOk],
    [false] when the request fails), remembered in [TOP_TEX_OK]. *)
Definition topTextureExists (fetchOk : string -> bool) (id : string)
    (TOP_TEX_OK : gmap string bool) : bool * gmap string bool :=
  match TOP_TEX_OK !! id with
  | Some ok => (ok, TOP_TEX_OK)
  | None => let ok := fetchOk id in (ok, <[id := ok]> TOP_TEX_OK)
  end.

(** [loadTextureForBlock(id)]: [loadImage id] is the image the browser
    loads, [None] when [onerror] fires; only a loaded image enters
    [TEX_CACHE]. *)
Definition loadTextureForBlock (loadImage : string -> option Image) (id : string)
    (TEX_CACHE : gmap string Image) : gmap string Image :=
  match TEX_CACHE !! id with
  | Some _ => TEX_CACHE
  | None =>
    match loadImage id with
    | Some img => <[id := img]> TEX_CACHE
    | None => TEX_CACHE
    end
  end.

(** *** Palette building *)
Section Palette.
(** [a.localeCompare(b)]: the host's collation, negative, zero or
    positive. *)
Variable localeCompare : string -> string -> Z.
Variable fetchOk : string -> bool.
Variable BLOCKS : JS.object Block.

(** The body of [for(const id of ids)], with [continue] as the recursive
    call on the remaining ids. *)
Fixpoint buildPalette_loop (mode : string) (includeCreative : bool)
    (ids : list string) (arr : list PaletteEntry)
    (TOP_TEX_OK : gmap string bool) : list PaletteEntry * gmap string bool :=
  match ids with
  | [] => (arr, TOP_TEX_OK)
  | id :: ids' =>
    let continue := buildPalette_loop mode includeCreative ids' in
    match JS.get BLOCKS id with
    | None => continue arr TOP_TEX_OK
    | Some b =>
      match avg_lab b with
      | None => continue arr TOP_TEX_OK
      | Some lab =>
        let tags := default no_tags (Catalog.tags b) in
        let flags := default no_flags (tag_flags b) in
        if negb includeCreative && creative_only tags then continue arr TOP_TEX_OK
        else if
          (if decide (mode = "full_solid"%string) then
             negb (full_block flags) || transparent tags || noisy tags
           else if decide (mode = "all_solid"%string) then
             negb (full_block flags) || transparent tags
           else false)
        then continue arr TOP_TEX_OK
        else
          let '(ok, TOP_TEX_OK') := topTextureExists fetchOk id TOP_TEX_OK in
          if negb ok then continue arr TOP_TEX_OK'
          else
            continue
              (arr ++ [mkEntry id (str_or (Catalog.name b) id) lab tags flags])
              TOP_TEX_OK'
      end
    end
  end.

(** [buildPalette()]: [elPalette_value] is [elPalette?.value] and
    [elCreative_checked] is [elCreative?.checked]; the result is the new
    [PALETTE] with the new [TOP_TEX_OK]. *)
Definition buildPalette (elPalette_value : option string)
    (elCreative_checked : option bool) (TOP_TEX_OK : gmap string bool)
    : list PaletteEntry * gmap string bool :=
  let mode := str_or elPalette_value "full_solid" in
  let includeCreative := default false elCreative_checked in
  let ids := JS.keys BLOCKS in
  let '(arr, TOP_TEX_OK') :=
    buildPalette_loop mode includeCreative ids [] TOP_TEX_OK in
  (JS.sort (fun a b => localeCompare (id a) (id b)) arr, TOP_TEX_OK').
End Palette.

(** *** Matching *)

(** The [for(const p of PALETTE)] loop of [findNearestBlock], from the
    current [best] and [bestD]. *)
Fixpoint findNearestBlock_loop (lab : Lab) (PALETTE : list PaletteEntry)
    (best : option PaletteEntry) (bestD : float) : option PaletteEntry :=
  match PALETTE with
  | [] => best
  | p :: rest =>
    let d := distLab lab (MapArt.lab p) in
    if F64.lt d bestD then findNearestBlock_loop lab rest (Some p) d
    else findNearestBlock_loop lab rest best bestD
  end.

(** [findNearestBlock(lab)]; [None] is the [null] it returns when no entry
    was ever nearer than [Infinity]. *)
Definition findNearestBlock (PALETTE : list PaletteEntry) (lab : Lab)
    : option PaletteEntry :=
  findNearestBlock_loop lab PALETTE None F64.Infinity.

(** *** Render mosaic *)

(** [Array.from(new Set(assign))]: the distinct cells, in order of first
    occurrence. *)
Fixpoint Set_from (assign : list cell) : list cell :=
  match assign with
  | [] => []
  | c :: rest => c :: filter (fun c' => c' <> c) (Set_from rest)
  end.

(** The ids of the textures to load:
    [Array.from(new Set(assign)).filter(Boolean)]. *)
Definition used_ids (assign : list cell) : list string :=
  omap (fun c => match c with
                 | str s => if truthy c then Some s else None
                 | _ => None
                 end) (Set_from assign).

(** The body of the two nested loops for the cell at column [x] of row [y],
    which is cell [p] of [assign]. *)
Definition draw_cell (assign : list cell) (TEX_CACHE : gmap string Image)
    (y x : nat) (p : nat) : list drawImage :=
  match assign !! p with
  | Some (str id) =>
    if truthy (str id) then
      match TEX_CACHE !! id with
      | Some tex =>
        [mkDraw tex 0 0 (width tex) (height tex)
           (Z.of_nat x * TILE) (Z.of_nat y * TILE) TILE TILE]
      | None => []
      end
    else []
  | _ => []
  end.

(** [renderTextureMosaic(assign, size)]: the textures in use are loaded into
    [TEX_CACHE], then the canvas, cleared, receives one [drawImage] per cell
    whose id is truthy and whose texture is in [TEX_CACHE].  The counter [p]
    of the source is [y * size + x]. *)
Definition renderTextureMosaic (loadImage : string -> option Image)
    (assign : list cell) (size : nat) (TEX_CACHE : gmap string Image)
    : list drawImage * gmap string Image :=
  let used := used_ids assign in
  let TEX_CACHE' :=
    foldl (fun cache id => loadTextureForBlock loadImage id cache) TEX_CACHE used in
  let canvas :=
    flat_map (fun y =>
      flat_map (fun x => draw_cell assign TEX_CACHE' y x (y * size + x))
        (seq 0 size))
      (seq 0 size) in
  (canvas, TEX_CACHE').

(** *** Generate *)

(** A value of the plain object [counts]: a number, or the string that
    [(counts[id] || 0) + 1] makes of an inherited function, which is
    [String(Object.prototype[k])] followed by [ones] characters [1]. *)
Inductive count : Type :=
| num (n : Z)
| text (k : string) (ones : nat).

(** [counts[id] = (counts[id] || 0) + 1] on the plain object [counts], of
    which the map holds the own properties.  An own number is incremented.
    For a name that plain objects inherit, the read finds the inherited
    value, which is truthy, and the sum is a string: the assignment to
    [__proto__] is dropped by its setter, any other name gets the string as an
    own property, to which the next time the character [1] is appended. *)
Definition bump (counts : gmap string count) (id : string) : gmap string count :=
  match counts !! id with
  | Some (num n) => <[id := num (n + 1)]> counts
  | Some (text k ones) => <[id := text k (S ones)]> counts
  | None =>
    if decide (id = "__proto__"%string) then counts
    else if JS.inherited id then <[id := text id 1]> counts
    else <[id := num 1]> counts
  end.

(** The cache key [(r<<16) | (g<<8) | b]. *)
Definition rgb_key (r g b : Z) : Z :=
  JS.bor (JS.bor (JS.shl r 16) (JS.shl g 8)) b.

(** What the page keeps between two passes. *)
Record State : Type := mkState {
  TEX_CACHE : gmap string Image;
  LAST_COUNTS : option (gmap string count);
  LAST_SIZE : nat;
  LAST_ASSIGN : option (list cell)
}.

(** What [generate] finds on the page before it starts: the flag
    [IS_GENERATING], whether [BLOCKS] is loaded (not [null]), [elImg?.src],
    and whether [outCanvas] and [outCtx] are there. *)
Record Page : Type := mkPage {
  IS_GENERATING : bool;
  BLOCKS_loaded : bool;
  elImg_src : option string;
  outCanvas : bool;
  outCtx : bool
}.

(** How a call ends: at once because a pass is running, with a status line
    and nothing computed, with the exception caught by [catch], or with a
    canvas. *)
Inductive outcome : Type :=
| Busy
| Status (msg : string)
| Caught
| Done (canvas : list drawImage).

Section Generate.
Variable Math_pow : float -> float -> float.
Variable Math_cbrt : float -> float.
Variable PALETTE : list PaletteEntry.

(** The matching loop [for(let i=0; i<data.length; i+=4)] over the bytes of
    an [ImageData], four per pixel.  [TypeError] is the exception of
    [pick.id] when [findNearestBlock] returned [null]. *)
Fixpoint generate_loop (data : list Z) (p : nat) (assign : list cell)
    (counts : gmap string count) (cache : gmap Z PaletteEntry)
    : result (list cell * gmap string count) :=
  match data with
  | r :: g :: b :: a :: data' =>
    if decide (a = 0) then
      generate_loop data' (S p) (JS.array_set undefined assign p null) counts cache
    else
      let key := rgb_key r g b in
      match cache !! key with
      | Some pick =>
        generate_loop data' (S p)
          (JS.array_set undefined assign p (str (id pick)))
          (bump counts (id pick)) cache
      | None =>
        let lab := rgbToLab255 Math_pow Math_cbrt r g b in
        match findNearestBlock PALETTE lab with
        | Some pick =>
          generate_loop data' (S p)
            (JS.array_set undefined assign p (str (id pick)))
            (bump counts (id pick)) (<[key := pick]> cache)
        | None => TypeError
        end
      end
  | _ => Ok (assign, counts)
  end.

(** [generate()]: the guards, then the pass over the [size * size] pixels
    [data] read from the cropped image, which starts from [counts = {}],
    [assign = new Array(size*size)] and a new [cache].  [size] is the parsed
    [elSize] value.  A call leaves [IS_GENERATING] as it found it: set, when
    it returns at once; reset by [finally], when it had set it. *)
Definition generate (page : Page) (loadImage : string -> option Image) (size : nat)
    (data : list Z) (st : State) : State * outcome :=
  if IS_GENERATING page then (st, Busy)
  else if negb (BLOCKS_loaded page) then (st, Status "Blocks not loaded yet.")
  else if decide (length PALETTE = 0%nat) then
    (st, Status "Palette is empty (adjust filters or textures_top is missing files).")
  else if decide (str_or (elImg_src page) EmptyString = EmptyString) then
    (st, Status "Upload an image first.")
  else if negb (outCanvas page && outCtx page) then
    (st, Status "Missing output canvas (check HTML IDs).")
  else
    let st := mkState (TEX_CACHE st) (LAST_COUNTS st) size (LAST_ASSIGN st) in
    match generate_loop data 0 (replicate (size * size) undefined) ∅ ∅ with
    | TypeError => (st, Caught)
    | Ok (assign, counts) =>
      let '(canvas, TEX_CACHE') :=
        renderTextureMosaic loadImage assign size (TEX_CACHE st) in
      (mkState TEX_CACHE' (Some counts) size (Some assign), Done canvas)
    end.
End Generate.

(** *** The counts as CSV *)

(** [Object.entries(counts).sort((a,b)=>b[1]-a[1])], as [countsToCsv] and
    [renderCounts] order the counts; [counts] lists its entries in property
    order. *)
Definition entries (counts : JS.object Z) : list (string * Z) :=
  JS.sort (fun a b => b.2 - a.2) counts.

(** The double quote and the line feed. *)
Definition quote : string := String "034"%char EmptyString.
Definition newline : string := String "010"%char EmptyString.

(** [s.replaceAll(c, r)] for a pattern [c] of one character. *)
Fixpoint replaceAll (c : ascii) (r : string) (s : string) : string :=
  match s with
  | EmptyString => EmptyString
  | String x s' =>
    if Ascii.eqb x c then r +:+ replaceAll c r s' else String x (replaceAll c r s')
  end.

Section Csv.
Variable BLOCKS : option (JS.object Block).

(** [BLOCKS?.[id]?.name]: the name of the block of the own key [id]; for a
    name that plain objects inherit, the [name] of the inherited function,
    which is the property name, but [Object] for [constructor] (the object
    that [__proto__] reads has no [name]). *)
Definition block_name (id : string) : option string :=
  match BLOCKS with
  | None => None
  | Some blocks =>
    match JS.get blocks id with
    | Some b => Catalog.name b
    | None =>
      if decide (id = "constructor"%string) then Some "Object"%string
      else if decide (id = "__proto__"%string) then None
      else if JS.inherited id then Some id
      else None
    end
  end.

(** The line [countsToCsv] pushes for one entry; a count prints as a decimal
    integer. *)
Definition csv_line (e : string * Z) : string :=
  let '(id, n) := e in
  let name := replaceAll "034"%char (quote +:+ quote) (str_or (block_name id) id) in
  id +:+ "," +:+ quote +:+ name +:+ quote +:+ "," +:+ pretty n.

(** [countsToCsv(counts)]. *)
Definition countsToCsv (counts : JS.object Z) : string :=
  let lines := ["block_id,block_name,count"%string] in
  let lines := fold_left (fun lines e => lines ++ [csv_line e]) (entries counts) lines in
  String.concat newline lines.
End Csv.

(** *** The centre crop *)

(** [getCroppedCanvas(size)] without a cropper: the one call of [drawImage]
    that fills the [size * size] canvas from the picture [elImg], whose
    [naturalWidth] and [naturalHeight] are given. *)
Definition getCroppedCanvas (elImg : Image) (naturalWidth naturalHeight : Z)
    (size : Z) : drawImage :=
  let srcW := naturalWidth in
  let srcH := naturalHeight in
  let s := Z.min srcW srcH in
  let sx := (srcW - s) / 2 in
  let sy := (srcH - s) / 2 in
  mkDraw elImg sx sy s s 0 0 size size.

(** *** The view (zoom) *)

Definition VIEW_MIN : float := 0.25.
Definition VIEW_MAX : float := 8.
Definition VIEW_STEP : float := 1.25.

Definition clamp (v a b : float) : float := JS.Math_max a (JS.Math_min b v).

(** [fitToFrame()]: the new [VIEW_SCALE].  [elements] is whether [zoomWrap]
    and [outCanvas] are both there; [cw], [ch] are the size of the canvas
    and [ww], [wh] the client size of its frame. *)
Definition fitToFrame (elements : bool) (cw ch ww wh : float) (VIEW_SCALE : float)
    : float :=
  if negb elements then VIEW_SCALE
  else if (cw <=? 0)%float || (ch <=? 0)%float || (ww <=? 0)%float || (wh <=? 0)%float
  then VIEW_SCALE
  else
    let s := JS.Math_min (ww / cw)%float (wh / ch)%float in
    clamp s VIEW_MIN VIEW_MAX.

(** [zoomAtCenter(factor)]: the new [VIEW_SCALE]. *)
Definition zoomAtCenter (elements : bool) (factor : float) (VIEW_SCALE : float)
    : float :=
  if negb elements then VIEW_SCALE
  else
    let oldScale := VIEW_SCALE in
    let newScale := clamp (oldScale * factor)%float VIEW_MIN VIEW_MAX in
    newScale.

(** What changes the view: the zoom buttons and the keys [+], [=] and [-];
    the reset button, a resize of the window and the end of [generate], which
    fit the canvas, of the sizes read then, to its frame. *)
Inductive view_event : Type :=
| ZoomIn
| ZoomOut
| Fit (cw ch ww wh : float).

Definition on_view_event (elements : bool) (ev : view_event) (VIEW_SCALE : float)
    : float :=
  match ev with
  | ZoomIn => zoomAtCenter elements VIEW_STEP VIEW_SCALE
  | ZoomOut => zoomAtCenter elements (1 / VIEW_STEP)%float VIEW_SCALE
  | Fit cw ch ww wh => fitToFrame elements cw ch ww wh VIEW_SCALE
  end.

End MapArt.

(** ** The gradient tool *)
Module Gradient.

(** [normalizeId(input)]: the id a typed name stands for. *)
Definition normalizeId (input : string) : string :=
  if decide (input = EmptyString) then EmptyString
  else JS.replace_spaces "_" false (JS.toLowerCase (JS.trim input)).

Definition lerpLab (A B : Lab) (t : float) : Lab :=
  let '(A0, A1, A2) := A in
  let '(B0, B1, B2) := B in
  (((1 - t) * A0 + t * B0)%float,
   ((1 - t) * A1 + t * B1)%float,
   ((1 - t) * A2 + t * B2)%float).

(** [preferencePenalty(block, mode, preferBuilding)]; the penalty is a small
    integer. *)
Definition preferencePenalty (block : Block) (mode : string)
    (preferBuilding : bool) : Z :=
  let f := default no_flags (tag_flags block) in
  let t := default no_tags (tags block) in
  let p := 0 in
  if decide (mode = "anything"%string) then 0
  else
    let p := if preferBuilding && negb (building_block f) then p + 6 else p in
    let p := if plantlike f then p + 5 else p in
    let p := if redstone f then p + 5 else p in
    let p := if ore f then p + 4 else p in
    let p := if transparent t then p + 4 else p in
    let p := if noisy t then p + 4 else p in
    let p :=
      if negb (bool_decide (mode = "creative"%string)) && creative_only t
      then p + 8 else p in
    p.

Section Picker.
(** The globals [pickTransitions] reads: the catalog, the candidate ids, and
    the two controls [elMode.value] and [elPreferBuilding.checked]. *)
Variable BLOCKS : gmap string Block.
Variable CANDIDATE_IDS : list string.
Variable elMode_value : string.
Variable elPreferBuilding_checked : bool.

(** The [n] targets [lerpLab(A, B, i/(n+1))], [i = 1..n]. *)
Definition targets_of (A B : Lab) (n : Z) : list Lab :=
  map (fun i : nat =>
         lerpLab A B (F64.of_Z (Z.of_nat i) / F64.of_Z (n + 1))%float)
      (seq 1 (Z.to_nat n)).

(** The inner loop [for(const id of CANDIDATE_IDS)] for the target [T], from
    the current [bestId] and [bestScore].  [TypeError] is the exception of
    [BLOCKS[id].avg_lab] on a missing block, or of [distLab] on a missing
    colour. *)
Fixpoint pickTransitions_scan (avoidDupes : bool) (T : Lab) (used : gset string)
    (ids : list string) (bestId : option string) (bestScore : float)
    : result (option string) :=
  match ids with
  | [] => Ok bestId
  | id :: rest =>
    if avoidDupes && bool_decide (id ∈ used) then
      pickTransitions_scan avoidDupes T used rest bestId bestScore
    else
      match BLOCKS !! id with
      | None => TypeError
      | Some block =>
        match avg_lab block with
        | None => TypeError
        | Some lab =>
          let score := distLab lab T in
          let score :=
            (score + F64.of_Z (preferencePenalty block elMode_value
                                 elPreferBuilding_checked))%float in
          if F64.lt score bestScore then
            pickTransitions_scan avoidDupes T used rest (Some id) score
          else
            pickTransitions_scan avoidDupes T used rest bestId bestScore
        end
      end
  end.

(** The outer loop [for(const T of targets)]; [if(bestId)] is false for
    [null] and for the empty string. *)
Fixpoint pickTransitions_loop (avoidDupes : bool) (targets : list Lab)
    (used : gset string) (picks : list string) : result (list string) :=
  match targets with
  | [] => Ok picks
  | T :: rest =>
    match pickTransitions_scan avoidDupes T used CANDIDATE_IDS None F64.Infinity with
    | TypeError => TypeError
    | Ok (Some bestId) =>
      if decide (bestId = EmptyString) then
        pickTransitions_loop avoidDupes rest used picks
      else
        pickTransitions_loop avoidDupes rest ({[bestId]} ∪ used) (picks ++ [bestId])
    | Ok None => pickTransitions_loop avoidDupes rest used picks
    end
  end.

(** [BLOCKS[id]?.avg_lab]. *)
Definition avg_lab_of (id : string) : option Lab :=
  match BLOCKS !! id with
  | Some block => avg_lab block
  | None => None
  end.

Definition pickTransitions (idA idB : string) (n : Z) (avoidDupes : bool)
    : result (list string) :=
  match avg_lab_of idA, avg_lab_of idB with
  | Some A, Some B =>
    pickTransitions_loop avoidDupes (targets_of A B n) {[idA; idB]} []
  | _, _ => Ok []
  end.
End Picker.

Section Update.
Variable BLOCKS : gmap string Block.

(** Whether [BLOCKS[id]] is truthy: [id] is a key of the catalog, or a name
    that plain objects inherit. *)
Definition has_block (id : string) : bool :=
  bool_decide (is_Some (BLOCKS !! id)) || JS.inherited id.

(** [passesFilters(id)]; [elFullBlocksOnly_checked] is
    [elFullBlocksOnly?.checked].  What a name that plain objects inherit reads
    has no [tag_flags]. *)
Definition passesFilters (elFullBlocksOnly_checked : bool) (id : string) : bool :=
  match BLOCKS !! id with
  | None => JS.inherited id && negb elFullBlocksOnly_checked
  | Some b =>
    if elFullBlocksOnly_checked then full_block (default no_flags (tag_flags b))
    else true
  end.

(** [rebuildCandidates()]: the new [CANDIDATE_IDS].  [headOk id] is whether
    the [HEAD] request for the texture of [id] answers [ok] (a request that
    fails keeps nothing). *)
Definition rebuildCandidates (headOk : string -> bool) (ALL_IDS : list string)
    (elFullBlocksOnly_checked : bool) : list string :=
  let filtered := List.filter (passesFilters elFullBlocksOnly_checked) ALL_IDS in
  List.filter headOk filtered.
End Update.

(** What a call of [update] does to the strip. *)
Inductive strip : Type :=
| Untouched
| Emptied
| Rendered (ids : list string).

(** [update()], from the two endpoint ids it has read off the inputs to
    what it does to the strip; [BLOCKS] is [None] while the catalog is not
    loaded.  [elN_value] is [parseInt(elN.value, 10)], [None] for [NaN]; with
    [n = NaN] the loop of [pickTransitions] runs no iteration, as with
    [n = 0]. *)
Definition update (BLOCKS : option (gmap string Block)) (headOk : string -> bool)
    (ALL_IDS : list string) (elFullBlocksOnly_checked : bool) (elMode_value : string)
    (elPreferBuilding_checked : bool) (idA idB : string) (elN_value : option Z)
    (elAvoidDupes_checked : bool) : result strip :=
  match BLOCKS with
  | None => Ok Untouched
  | Some BLOCKS =>
    let CANDIDATE_IDS :=
      rebuildCandidates BLOCKS headOk ALL_IDS elFullBlocksOnly_checked in
    let n := match elN_value with Some k => Z.min k 14 | None => 0 end in
    if negb (has_block BLOCKS idA) || negb (has_block BLOCKS idB) then Ok Emptied
    else
      match pickTransitions BLOCKS CANDIDATE_IDS elMode_value elPreferBuilding_checked
              idA idB n elAvoidDupes_checked with
      | Ok mids => Ok (Rendered (idA :: mids ++ [idB]))
      | TypeError => TypeError
      end
  end.

End Gradient.

(** ** What the specification speaks of

    The pass without a cache, the total of the counts, the empty and the
    unresolved cells, and the penalty as a sum of terms. *)
Module Reference.
Import MapArt.

(** The matching pass when nothing is memoized: the nearest match is
    recomputed for every pixel.  It is the loop of [generate] without
    [cache], for comparison with it. *)
Section Uncached.
Variable Math_pow : float -> float -> float.
Variable Math_cbrt : float -> float.
Variable PALETTE : list PaletteEntry.

Fixpoint generate_loop_uncached (data : list Z) (p : nat) (assign : list cell)
    (counts : gmap string count) : result (list cell * gmap string count) :=
  match data with
  | r :: g :: b :: a :: data' =>
    if decide (a = 0) then
      generate_loop_uncached data' (S p) (JS.array_set undefined assign p null) counts
    else
      match findNearestBlock PALETTE (rgbToLab255 Math_pow Math_cbrt r g b) with
      | Some pick =>
        generate_loop_uncached data' (S p)
          (JS.array_set undefined assign p (str (id pick)))
          (bump counts (id pick))
      | None => TypeError
      end
  | _ => Ok (assign, counts)
  end.

(** [generate] with that loop in the place of the cached one. *)
Definition generate_uncached (page : Page) (loadImage : string -> option Image)
    (size : nat) (data : list Z) (st : State) : State * outcome :=
  if IS_GENERATING page then (st, Busy)
  else if negb (BLOCKS_loaded page) then (st, Status "Blocks not loaded yet.")
  else if decide (length PALETTE = 0%nat) then
    (st, Status "Palette is empty (adjust filters or textures_top is missing files).")
  else if decide (str_or (elImg_src page) EmptyString = EmptyString) then
    (st, Status "Upload an image first.")
  else if negb (outCanvas page && outCtx page) then
    (st, Status "Missing output canvas (check HTML IDs).")
  else
    let st := mkState (TEX_CACHE st) (LAST_COUNTS st) size (LAST_ASSIGN st) in
    match generate_loop_uncached data 0 (replicate (size * size) undefined) ∅ with
    | TypeError => (st, Caught)
    | Ok (assign, counts) =>
      let '(canvas, TEX_CACHE') :=
        renderTextureMosaic loadImage assign size (TEX_CACHE st) in
      (mkState TEX_CACHE' (Some counts) size (Some assign), Done canvas)
    end.
End Uncached.

(** The number a value of the counts stands for, 0 when it is a string. *)
Definition number (v : count) : Z :=
  match v with
  | num n => n
  | text _ _ => 0
  end.

(** [sum(counts.values())], over the values that are numbers. *)
Definition total (counts : gmap string count) : Z :=
  map_fold (fun _ v acc => number v + acc) 0 counts.

(** The count kept for an id, 0 when there is none. *)
Definition count_of (counts : gmap string count) (id : string) : Z :=
  default 0 (number <$> counts !! id).

(** A byte of a [Uint8ClampedArray]. *)
Definition byte (v : Z) : Prop := 0 <= v <= 255.

(** The count of empty cells: the cells that hold the empty sentinel. *)
Definition empty_cells (assign : list cell) : nat :=
  length (filter (fun c => c = null) assign).

(** How often the id occurs in the assignment. *)
Definition occurrences (id : string) (assign : list cell) : nat :=
  length (filter (fun c => c = str id) assign).

(** A cell resolves when it holds an id for which the tile provider (the
    texture cache after loading) has an image. *)
Definition resolved (TEX_CACHE : gmap string Image) (c : cell) : bool :=
  match c with
  | str id => truthy c && bool_decide (is_Some (TEX_CACHE !! id))
  | _ => false
  end.

(** The count of unresolved cells: the cells that hold an id, which does not
    resolve. *)
Definition unresolved (TEX_CACHE : gmap string Image) (c : cell) : bool :=
  match c with
  | str id => negb (resolved TEX_CACHE c)
  | _ => false
  end.

Definition unresolved_cells (TEX_CACHE : gmap string Image) (assign : list cell) : nat :=
  length (filter (fun c => Is_true (unresolved TEX_CACHE c)) assign).

(** The preference penalty as the specification words it: a sum of terms,
    each present or not, and nothing at all in the mode ["anything"]. *)
Definition term (applies : bool) (points : Z) : Z := if applies then points else 0.

Definition penalty_terms (block : Block) (mode : string) (preferBuilding : bool) : Z :=
  let f := default no_flags (tag_flags block) in
  let t := default no_tags (Catalog.tags block) in
  term (preferBuilding && negb (building_block f)) 6
  + term (plantlike f) 5
  + term (redstone f) 5
  + term (ore f) 4
  + term (transparent t) 4
  + term (noisy t) 4
  + term (creative_only t && negb (bool_decide (mode = "creative"%string))) 8.

(** Where a tile lands on the canvas. *)
Definition pos (d : drawImage) : Z * Z := (dx d, dy d).

(** Pixel [p] of the image data, as [(r, g, b, a)]. *)
Definition pixel (data : list Z) (p : nat) : option (Z * Z * Z * Z) :=
  match data !! (4 * p)%nat, data !! (4 * p + 1)%nat,
        data !! (4 * p + 2)%nat, data !! (4 * p + 3)%nat with
  | Some r, Some g, Some b, Some a => Some (r, g, b, a)
  | _, _, _, _ => None
  end.

End Reference.

(** ** Notions the properties are stated with *)
Module Spec.
Import MapArt Reference.

(** The distance the scan compares for the entry [p]. *)
Definition dist_to (lab : Lab) (p : PaletteEntry) : float :=
  distLab lab (MapArt.lab p).

(** [first_nearest lab PALETTE i b]: [b] is entry [i] of the palette, its
    distance is below [Infinity], no entry is strictly nearer, and every entry
    at the same distance sits at [i] or later. *)
Definition first_nearest (lab : Lab) (PALETTE : list PaletteEntry)
    (i : nat) (b : PaletteEntry) : Prop :=
  PALETTE !! i = Some b /\
  F64.below_inf (dist_to lab b) = true /\
  (forall j q, PALETTE !! j = Some q -> F64.lt (dist_to lab q) (dist_to lab b) = false) /\
  (forall j q, PALETTE !! j = Some q ->
     F64.eq (dist_to lab q) (dist_to lab b) = true -> (i <= j)%nat).

(** What the scan knows after the entries [pre]. *)
Definition scan_inv (lab : Lab) (pre : list PaletteEntry)
    (best : option PaletteEntry) (bestD : float) : Prop :=
  match best with
  | None =>
    bestD = F64.Infinity /\
    forall q, q ∈ pre -> F64.below_inf (dist_to lab q) = false
  | Some b => bestD = dist_to lab b /\ exists i, first_nearest lab pre i b
  end.

Section Order.
Context {A : Type} (cmp : A -> A -> Z).

(** The order a comparator stands for. *)
Definition before (a b : A) : Prop := cmp a b <= 0.

(** What [sort] asks of its comparator to define a sort order: two elements
    compare one way or the other, transitively. *)
Definition consistent : Prop :=
  (forall a b, 0 < cmp a b -> cmp b a <= 0) /\
  (forall a b c, cmp a b <= 0 -> cmp b c <= 0 -> cmp a c <= 0).

End Order.

Section Palette.
Variable fetchOk : string -> bool.
Variable BLOCKS : JS.object Block.

(** What [topTextureExists] answers for [id] from the cache [TOP_TEX_OK]. *)
Definition texture_ok (TOP_TEX_OK : gmap string bool) (id : string) : bool :=
  default (fetchOk id) (TOP_TEX_OK !! id).

(** The entry one iteration of the loop of [buildPalette] pushes for [id],
    if any, when the texture check answers [ok]. *)
Definition pushed (mode : string) (includeCreative : bool) (ok : string -> bool)
    (id : string) : option PaletteEntry :=
  match JS.get BLOCKS id with
  | None => None
  | Some b =>
    match avg_lab b with
    | None => None
    | Some lab =>
      let tags := default no_tags (Catalog.tags b) in
      let flags := default no_flags (tag_flags b) in
      if negb includeCreative && creative_only tags then None
      else if
        (if decide (mode = "full_solid"%string) then
           negb (full_block flags) || transparent tags || noisy tags
         else if decide (mode = "all_solid"%string) then
           negb (full_block flags) || transparent tags
         else false)
      then None
      else if ok id then Some (mkEntry id (str_or (Catalog.name b) id) lab tags flags)
      else None
    end
  end.

(** Whether the loop of [buildPalette] gets as far as the texture check for
    [id]: the block has a colour and passes the filters. *)
Definition reaches_check (mode : string) (includeCreative : bool) (id : string) : Prop :=
  is_Some (pushed mode includeCreative (fun _ => true) id).

End Palette.

Section Pass.
Variable Math_pow : float -> float -> float.
Variable Math_cbrt : float -> float.
Variable PALETTE : list PaletteEntry.

(** Every pick the cache holds under the key of a byte triple is the nearest
    match of that triple. *)
Definition cache_sound (cache : gmap Z PaletteEntry) : Prop :=
  forall r g b pick, byte r -> byte g -> byte b ->
    cache !! rgb_key r g b = Some pick ->
    findNearestBlock PALETTE (rgbToLab255 Math_pow Math_cbrt r g b) = Some pick.

(** The cell the pass writes for one pixel. *)
Definition cell_of (r g b a : Z) : result cell :=
  if decide (a = 0) then Ok null
  else
    match findNearestBlock PALETTE (rgbToLab255 Math_pow Math_cbrt r g b) with
    | Some pick => Ok (str (id pick))
    | None => TypeError
    end.

(** The cells for all the pixels, in order. *)
Fixpoint cells_of (data : list Z) : result (list cell) :=
  match data with
  | r :: g :: b :: a :: data' =>
    match cell_of r g b a with
    | Ok c =>
      match cells_of data' with
      | Ok cs => Ok (c :: cs)
      | TypeError => TypeError
      end
    | TypeError => TypeError
    end
  | _ => Ok []
  end.

(** What a cell adds to the counts. *)
Definition count_cell (counts : gmap string count) (c : cell) : gmap string count :=
  match c with
  | str id => bump counts id
  | _ => counts
  end.

End Pass.

(** No id of the palette is a name that plain objects inherit. *)
Definition own_names (PALETTE : list PaletteEntry) : Prop :=
  Forall (fun p => JS.inherited (id p) = false) PALETTE.

(** A cell holds no name that plain objects inherit. *)
Definition own_cell (c : cell) : Prop :=
  match c with
  | str id => JS.inherited id = false
  | _ => True
  end.

(** What the counts can hold: under an id that plain objects do not inherit, a
    positive number; under one they inherit, never [__proto__], a string made
    of the function inherited under that id. *)
Definition well_kept (counts : gmap string count) : Prop :=
  forall i v, counts !! i = Some v ->
    i <> "__proto__"%string /\
    match v with
    | num n => 0 < n /\ JS.inherited i = false
    | text k ones => k = i /\ JS.inherited i = true /\ (0 < ones)%nat
    end.

(** Every value of the counts is a number. *)
Definition numbers (counts : gmap string count) : Prop :=
  forall k v, counts !! k = Some v -> exists n, v = num n.

(** The guards of [generate] let the pass start. *)
Definition ready (page : Page) (PALETTE : list PaletteEntry) : Prop :=
  IS_GENERATING page = false /\ BLOCKS_loaded page = true /\ PALETTE <> [] /\
  str_or (elImg_src page) EmptyString <> EmptyString /\
  outCanvas page = true /\ outCtx page = true.

(** The value [srgbToLinear] returns for the channel [c] on its first
    branch. *)
Definition linear (c : Z) : float := (F64.of_Z c / 255 / 12.92)%float.

(** The six tests of the conversion of the pixel [(R, G, B)] all select the
    branch that calls neither [Math.pow] nor [Math.cbrt]. *)
Definition host_free (R G B : Z) : bool :=
  let d3 := (6 / 29 * (6 / 29) * (6 / 29))%float in
  let '(x, y, z) := rgbToXyz (linear R) (linear G) (linear B) in
  (F64.of_Z R / 255 <=? 0.04045)%float && (F64.of_Z G / 255 <=? 0.04045)%float &&
  (F64.of_Z B / 255 <=? 0.04045)%float &&
  negb (d3 <? x / 0.95047)%float && negb (d3 <? y / 1.0)%float &&
  negb (d3 <? z / 1.08883)%float.

(** The channel values up to 10. *)
Definition dark_channels : list Z := map Z.of_nat (seq 0 11).

Section Scan.
Variable BLOCKS : gmap string Block.
Variable elMode_value : string.
Variable elPreferBuilding_checked : bool.
Variable avoidDupes : bool.
Variable used : gset string.
Variable T : Lab.

(** The score the scan of [pickTransitions] compares for the candidate
    [id]: its distance to the target plus its penalty.  There is none when
    the catalog has no colour for [id]. *)
Definition score (id : string) : option float :=
  match BLOCKS !! id with
  | Some block =>
    match avg_lab block with
    | Some lab =>
      Some (distLab lab T
            + F64.of_Z (Gradient.preferencePenalty block elMode_value
                          elPreferBuilding_checked))%float
    | None => None
    end
  | None => None
  end.

(** The candidates the scan does not skip. *)
Definition eligible (id : string) : bool :=
  negb (avoidDupes && bool_decide (id ∈ used)).

(** [best_candidate CANDS i id s]: [id] is candidate [i], it is not skipped,
    its score [s] is below [Infinity], no candidate that is not skipped has
    a score strictly below [s], and those with the same score sit at [i] or
    later. *)
Definition best_candidate (CANDS : list string) (i : nat) (id : string)
    (s : float) : Prop :=
  CANDS !! i = Some id /\ eligible id = true /\ score id = Some s /\
  F64.below_inf s = true /\
  forall j id' s', CANDS !! j = Some id' -> eligible id' = true ->
    score id' = Some s' ->
    F64.lt s' s = false /\ (F64.eq s' s = true -> (i <= j)%nat).

(** What the scan knows after the candidates [pre]. *)
Definition pick_inv (pre : list string) (bestId : option string)
    (bestScore : float) : Prop :=
  match bestId with
  | None =>
    bestScore = F64.Infinity /\
    forall id s, id ∈ pre -> eligible id = true -> score id = Some s ->
      F64.below_inf s = false
  | Some id => exists i, best_candidate pre i id bestScore
  end.
End Scan.

(** A string written as the ids are: no white space, no capital letter. *)
Fixpoint id_like (s : string) : bool :=
  match s with
  | EmptyString => true
  | String c s' => negb (JS.is_space c) && Ascii.eqb (JS.lower c) c && id_like s'
  end.

(** The scale is between [VIEW_MIN] and [VIEW_MAX]. *)
Definition within_limits (s : float) : Prop :=
  F64.le VIEW_MIN s = true /\ F64.le s VIEW_MAX = true.

(** The sizes an event reads are finite numbers. *)
Definition finite_sizes (ev : view_event) : bool :=
  match ev with
  | Fit cw ch ww wh => F64.finite cw && F64.finite ch && F64.finite ww && F64.finite wh
  | _ => true
  end.

End Spec.

(** ** Sample inputs

    Small concrete inputs on which the definitions above are evaluated. *)
Module Sample.
Import MapArt.

(** A comparator in the place of the host's collation: shorter ids first. *)
Definition by_length (a b : string) : Z :=
  Z.of_nat (String.length a) - Z.of_nat (String.length b).

(** A palette of two entries at the same distance, 10, from the colour
    [(50, 0, 0)], sorted by the length of the id. *)
Definition tie_palette : list PaletteEntry :=
  [ mkEntry "tuff" "Tuff" (40, 0, 0)%float no_tags no_flags;
    mkEntry "stone" "Stone" (60, 0, 0)%float no_tags no_flags ].

(** A catalog: a plain full block, a noisy full block, a transparent full
    block, a block that is not full, a creative-only full block, and a block
    without colour. *)
Definition catalog : JS.object Block :=
  [ ("stone"%string,
     mkBlock (Some "Stone"%string) (Some (60, 0, 0)%float) None
       (Some (mkFlags true true false false false)));
    ("coal_ore"%string,
     mkBlock (Some "Coal Ore"%string) (Some (40, 0, 0)%float)
       (Some (mkTags false true false))
       (Some (mkFlags true false false false true)));
    ("glass"%string,
     mkBlock (Some "Glass"%string) (Some (90, 0, 0)%float)
       (Some (mkTags true false false))
       (Some (mkFlags true true false false false)));
    ("torch"%string,
     mkBlock (Some "Torch"%string) (Some (80, 10, 50)%float) None
       (Some (mkFlags false false false false false)));
    ("bedrock"%string,
     mkBlock (Some "Bedrock"%string) (Some (30, 0, 0)%float)
       (Some (mkTags false false true))
       (Some (mkFlags true true false false false)));
    ("air"%string, mkBlock (Some "Air"%string) None None None);
    ("snow"%string,
     mkBlock None (Some (95, 0, 0)%float) None
       (Some (mkFlags true true false false false))) ].

(** Stand-ins for the host's [Math.pow] and [Math.cbrt].  The sample pixels
    are dark (no channel above 10): their conversion takes the linear branch
    of [srgbToLinear] and of [fLab], and calls neither. *)
Definition no_pow (x y : float) : float := PrimFloat.nan.
Definition no_cbrt (x : float) : float := PrimFloat.nan.

(** Four pixels: two of the same dark grey, a transparent one, a black one. *)
Definition pixels : list Z :=
  [ 10; 10; 10; 255;
    10; 10; 10; 255;
    200; 100; 50; 0;
    0; 0; 0; 255 ].

(** A palette of three greys. *)
Definition greys : list PaletteEntry :=
  [ mkEntry "coal" "Coal" (1, 0, 0)%float no_tags no_flags;
    mkEntry "snow" "Snow" (95, 0, 0)%float no_tags no_flags;
    mkEntry "stone" "Stone" (60, 0, 0)%float no_tags no_flags ].

(** A palette whose only entry is too far from every pixel for its distance
    to be a finite number: the square of the difference overflows. *)
Definition far : list PaletteEntry :=
  [ mkEntry "void" "Void" (1e200, 0, 0)%float no_tags no_flags ].

(** A palette whose only entry has the id [__proto__], as the catalog key
    [__proto__] of a [blocks.json] gives it. *)
Definition proto : list PaletteEntry :=
  [ mkEntry "__proto__" "Proto" (1, 0, 0)%float no_tags no_flags ].

(** A page on which every guard of [generate] passes. *)
Definition page : Page := mkPage false true (Some "blob:picture"%string) true true.

(** The keys of the catalog, sorted: what [rebuildCandidates] keeps when no
    filter is checked and every texture answers. *)
Definition all_ids : list string :=
  [ "air"; "bedrock"; "coal_ore"; "glass"; "snow"; "stone"; "torch" ]%string.

(** The catalog as the gradient tool reads it, and its candidates: every
    block with a colour. *)
Definition blocks : gmap string Block := list_to_map catalog.

Definition candidates : list string :=
  [ "stone"; "coal_ore"; "glass"; "torch"; "bedrock"; "snow" ]%string.

(** Every texture is on the server but the one of ["snow"]. *)
Definition all_but_snow (id : string) : bool :=
  if decide (id = "snow"%string) then false else true.

End Sample.

(** * Properties *)

(** ** IEEE-754 comparisons

    The scans of both scripts keep a running minimum with [d < bestD].  What
    they compute depends only on a few order facts of the binary64 [<] and
    [==], derived here from the specification of the primitive comparisons. *)
Module F64_facts.
Import F64.

Ltac sf_cases :=
  simpl;
  repeat match goal with s : bool |- _ => destruct s end;
  simpl;
  change (Pos.compare_cont Eq) with Pos.compare in *;
  repeat match goal with
  | |- context [Z.compare ?x ?y] => destruct (Z.compare_spec x y)
  | |- context [Pos.compare ?x ?y] => destruct (Pos.compare_spec x y)
  end;
  simpl; intros; subst;
  try congruence; try lia.

Lemma SFcompare_Lt_trans (a b c : spec_float) :
  SFcompare a b = Some Lt -> SFcompare b c = Some Lt -> SFcompare a c = Some Lt.
Proof.
  destruct a as [sa|sa| |sa ma ea], b as [sb|sb| |sb mb eb],
    c as [sc|sc| |sc mc ec]; sf_cases.
Qed.

Lemma SFcompare_Eq_Lt (a b c : spec_float) :
  SFcompare a b = Some Eq -> SFcompare b c = Some Lt -> SFcompare a c = Some Lt.
Proof.
  destruct a as [sa|sa| |sa ma ea], b as [sb|sb| |sb mb eb],
    c as [sc|sc| |sc mc ec]; sf_cases.
Qed.

Lemma SFcompare_total (a b : spec_float) :
  SFcompare a S754_nan = None /\
  (a <> S754_nan -> b <> S754_nan ->
   SFcompare a b = Some Lt \/ SFcompare a b = Some Eq \/ SFcompare b a = Some Lt).
Proof.
  split; [destruct a; reflexivity|].
  destruct a as [sa|sa| |sa ma ea], b as [sb|sb| |sb mb eb]; sf_cases; auto.
Qed.

Lemma SFcompare_irrefl (a : spec_float) : SFcompare a a <> Some Lt.
Proof. destruct a as [sa|sa| |sa ma ea]; sf_cases. Qed.

Lemma SFcompare_Eq_sym (a b : spec_float) :
  SFcompare a b = Some Eq -> SFcompare b a = Some Eq.
Proof.
  destruct a as [sa|sa| |sa ma ea], b as [sb|sb| |sb mb eb]; sf_cases.
Qed.

Lemma lt_irrefl (x : float) : lt x x = false.
Proof.
  unfold lt. rewrite FloatAxioms.ltb_spec. unfold SFltb.
  destruct (SFcompare (Prim2SF x) (Prim2SF x)) as [[]|] eqn:H; try reflexivity.
  now apply SFcompare_irrefl in H.
Qed.

Lemma eq_sym (x y : float) : eq x y = true -> eq y x = true.
Proof.
  unfold eq. rewrite !FloatAxioms.eqb_spec. unfold SFeqb.
  destruct (SFcompare (Prim2SF x) (Prim2SF y)) as [[]|] eqn:H; try discriminate.
  intros _. now rewrite (SFcompare_Eq_sym _ _ H).
Qed.

Lemma lt_trans (x y z : float) : lt x y = true -> lt y z = true -> lt x z = true.
Proof.
  unfold lt. rewrite !FloatAxioms.ltb_spec. unfold SFltb.
  destruct (SFcompare (Prim2SF x) (Prim2SF y)) as [[]|] eqn:Hxy; try discriminate.
  destruct (SFcompare (Prim2SF y) (Prim2SF z)) as [[]|] eqn:Hyz; try discriminate.
  intros _ _. now rewrite (SFcompare_Lt_trans _ _ _ Hxy Hyz).
Qed.

Lemma eq_lt (x y z : float) : eq x y = true -> lt y z = true -> lt x z = true.
Proof.
  unfold lt, eq. rewrite FloatAxioms.eqb_spec, !FloatAxioms.ltb_spec. unfold SFltb, SFeqb.
  destruct (SFcompare (Prim2SF x) (Prim2SF y)) as [[]|] eqn:Hxy; try discriminate.
  destruct (SFcompare (Prim2SF y) (Prim2SF z)) as [[]|] eqn:Hyz; try discriminate.
  intros _ _. now rewrite (SFcompare_Eq_Lt _ _ _ Hxy Hyz).
Qed.

Lemma below_inf_not_nan (x : float) : below_inf x = true -> Prim2SF x <> S754_nan.
Proof.
  unfold below_inf, lt. rewrite FloatAxioms.ltb_spec. unfold SFltb. intros H E.
  rewrite E in H. discriminate.
Qed.

(** Two numbers below [Infinity] are comparable: one of [x < y], [x == y],
    [y < x] holds. *)
Lemma trichotomy (x y : float) :
  below_inf x = true -> below_inf y = true ->
  lt x y = true \/ eq x y = true \/ lt y x = true.
Proof.
  intros Hx%below_inf_not_nan Hy%below_inf_not_nan.
  unfold lt, eq. rewrite FloatAxioms.eqb_spec, !FloatAxioms.ltb_spec. unfold SFltb, SFeqb.
  destruct (proj2 (SFcompare_total (Prim2SF x) (Prim2SF y)) Hx Hy) as [H|[H|H]];
    rewrite H; auto.
Qed.

End F64_facts.

(** ** Lab conversion *)
Module Converter_facts.
Import MapArt.

(** Black converts to [(0, 0, 0)] exactly, whatever the host's [Math.pow] and
    [Math.cbrt] are: the channel 0 takes the linear branch of [srgbToLinear],
    and the ratio 0 the linear branch of [fLab], where [116 * (4/29) - 16]
    rounds to 0. *)
Lemma rgbToLab255_black (Math_pow : float -> float -> float)
    (Math_cbrt : float -> float) :
  rgbToLab255 Math_pow Math_cbrt 0 0 0 = (0, 0, 0)%float.
Proof. vm_compute. reflexivity. Qed.

(** When every test takes the branch without a host function, the host
    functions do not matter. *)
Lemma rgbToLab255_host_free (Math_pow Math_pow' : float -> float -> float)
    (Math_cbrt Math_cbrt' : float -> float) (R G B : Z) :
  Spec.host_free R G B = true ->
  rgbToLab255 Math_pow Math_cbrt R G B = rgbToLab255 Math_pow' Math_cbrt' R G B.
Proof.
  unfold Spec.host_free, Spec.linear, rgbToLab255, srgbToLinear, rgbToXyz, xyzToLab, fLab.
  cbv beta iota zeta. intros H.
  repeat (apply andb_prop in H as [H ?]).
  repeat match goal with
         | E : negb _ = true |- _ => apply negb_true_iff in E
         end.
  repeat match goal with
         | E : _ = true |- _ => rewrite E
         | E : _ = false |- _ => rewrite E
         end.
  reflexivity.
Qed.

Lemma dark_channels_host_free :
  forallb (fun R => forallb (fun G => forallb (fun B => Spec.host_free R G B)
                                         Spec.dark_channels)
                      Spec.dark_channels)
          Spec.dark_channels = true.
Proof. vm_compute. reflexivity. Qed.

Lemma In_dark_channels (c : Z) : 0 <= c <= 10 -> In c Spec.dark_channels.
Proof.
  intros H. unfold Spec.dark_channels. rewrite <- (Z2Nat.id c) by lia.
  apply in_map, in_seq. lia.
Qed.

(** A dark pixel, one with no channel above 10, converts to the same Lab
    colour on every host: each channel takes the linear branch of
    [srgbToLinear] and each ratio the linear branch of [fLab], so that
    neither [Math.pow] nor [Math.cbrt], the two functions the language
    leaves to the host, is called.  (From the channel 11 on [Math.pow] is
    called.) *)
Theorem rgbToLab255_dark (Math_pow Math_pow' : float -> float -> float)
    (Math_cbrt Math_cbrt' : float -> float) (R G B : Z) :
  0 <= R <= 10 -> 0 <= G <= 10 -> 0 <= B <= 10 ->
  rgbToLab255 Math_pow Math_cbrt R G B = rgbToLab255 Math_pow' Math_cbrt' R G B.
Proof.
  intros HR%In_dark_channels HG%In_dark_channels HB%In_dark_channels.
  apply rgbToLab255_host_free.
  pose proof dark_channels_host_free as H.
  rewrite forallb_forall in H. specialize (H R HR).
  rewrite forallb_forall in H. specialize (H G HG).
  rewrite forallb_forall in H. exact (H B HB).
Qed.

(** The grey [(10, 10, 10)], under a host whose functions answer [NaN] and
    one whose functions answer 0. *)
Lemma rgbToLab255_dark_witness :
  rgbToLab255 Sample.no_pow Sample.no_cbrt 10 10 10
  = rgbToLab255 (fun _ _ => 0%float) (fun _ => 0%float) 10 10 10.
Proof. apply rgbToLab255_dark; lia. Defined.

End Converter_facts.

(** ** Nearest match *)
Module Matching_facts.
Import MapArt Spec Sample.

(** Whatever is below the running minimum is below [Infinity]. *)
Lemma scan_inv_below (lab : Lab) pre best bestD d :
  scan_inv lab pre best bestD -> F64.lt d bestD = true -> F64.below_inf d = true.
Proof.
  destruct best as [b|]; simpl.
  - intros [-> (i & _ & Hb & _)] Hd. unfold F64.below_inf in *.
    eapply F64_facts.lt_trans; eauto.
  - intros [-> _] Hd. exact Hd.
Qed.

(** Nothing seen so far is strictly below the running minimum. *)
Lemma scan_inv_min (lab : Lab) pre best bestD j q :
  scan_inv lab pre best bestD -> pre !! j = Some q ->
  F64.lt (dist_to lab q) bestD = false.
Proof.
  destruct best as [b|]; simpl.
  - intros [-> (i & _ & _ & Hmin & _)] Hq. eauto.
  - intros [-> Hall] Hq. apply Hall. eapply list_elem_of_lookup_2; eauto.
Qed.

(** One iteration of the scan keeps what it knows. *)
Lemma scan_inv_step (lab : Lab) pre best bestD p :
  scan_inv lab pre best bestD ->
  let d := dist_to lab p in
  if F64.lt d bestD then scan_inv lab (pre ++ [p]) (Some p) d
  else scan_inv lab (pre ++ [p]) best bestD.
Proof.
  intros Hinv d. subst d. destruct (F64.lt (dist_to lab p) bestD) eqn:Hlt.
  - split; [reflexivity|]. exists (length pre). repeat split.
    + rewrite lookup_app_r, Nat.sub_diag by lia. reflexivity.
    + eapply scan_inv_below; eauto.
    + intros j q Hq. apply lookup_snoc_Some in Hq as [[_ Hq]|[_ <-]].
      * destruct (F64.lt (dist_to lab q) (dist_to lab p)) eqn:Hq'; [|reflexivity].
        rewrite <- (scan_inv_min lab pre best bestD j q Hinv Hq).
        symmetry. eapply F64_facts.lt_trans; eauto.
      * apply F64_facts.lt_irrefl.
    + intros j q Hq Heq. apply lookup_snoc_Some in Hq as [[_ Hq]|[-> _]]; [|lia].
      pose proof (scan_inv_min lab pre best bestD j q Hinv Hq) as Hge.
      rewrite (F64_facts.eq_lt _ _ _ Heq Hlt) in Hge. discriminate.
  - destruct best as [b|]; simpl in *.
    + destruct Hinv as [-> (i & Hi & Hb & Hmin & Hfirst)].
      split; [reflexivity|]. exists i. repeat split.
      * apply lookup_app_l_Some. exact Hi.
      * exact Hb.
      * intros j q Hq. apply lookup_snoc_Some in Hq as [[_ Hq]|[_ <-]]; eauto.
      * intros j q Hq Heq. apply lookup_snoc_Some in Hq as [[_ Hq]|[-> _]]; eauto.
        apply lookup_lt_Some in Hi. lia.
    + destruct Hinv as [-> Hall]. split; [reflexivity|].
      intros q [Hq| ->%list_elem_of_singleton]%elem_of_app; auto.
Qed.

(** So does the whole loop. *)
Lemma findNearestBlock_loop_spec (lab : Lab) (rest pre : list PaletteEntry)
    (best : option PaletteEntry) (bestD : float) :
  scan_inv lab pre best bestD ->
  exists bestD',
    scan_inv lab (pre ++ rest) (findNearestBlock_loop lab rest best bestD) bestD'.
Proof.
  revert pre best bestD. induction rest as [|p rest IH]; intros pre best bestD Hinv.
  - exists bestD. rewrite app_nil_r. exact Hinv.
  - simpl. pose proof (scan_inv_step lab pre best bestD p Hinv) as Hstep.
    simpl in Hstep. fold (dist_to lab p). rewrite (cons_middle p pre rest), app_assoc.
    destruct (F64.lt (dist_to lab p) bestD); eapply IH; eauto.
Qed.

(** At most one entry is the first of the nearest: two such entries are at
    equal distances (neither is below the other, and both are below
    [Infinity]), so each sits no later than the other. *)
Lemma first_nearest_unique (lab : Lab) (PALETTE : list PaletteEntry) i b i' b' :
  first_nearest lab PALETTE i b -> first_nearest lab PALETTE i' b' ->
  i = i' /\ b = b'.
Proof.
  intros (Hi & Hb & Hmin & Hfirst) (Hi' & Hb' & Hmin' & Hfirst').
  assert (F64.eq (dist_to lab b) (dist_to lab b') = true) as Heq.
  { destruct (F64_facts.trichotomy _ _ Hb Hb') as [H|[H|H]]; [|exact H|].
    - rewrite (Hmin' _ _ Hi) in H. discriminate.
    - rewrite (Hmin _ _ Hi') in H. discriminate. }
  pose proof (Hfirst' _ _ Hi Heq).
  pose proof (Hfirst _ _ Hi' (F64_facts.eq_sym _ _ Heq)).
  assert (i = i') as <- by lia. split; [reflexivity|]. congruence.
Qed.

(** In a sorted list an earlier element is related to a later one. *)
Lemma StronglySorted_lookup_lt {A : Type} (R : relation A) (l : list A) i j a b :
  StronglySorted R l -> l !! i = Some a -> l !! j = Some b -> (i < j)%nat -> R a b.
Proof.
  intros Hsorted Ha Hb Hij. rewrite <- (take_drop j l) in Hsorted.
  eapply StronglySorted_app_1_elem_of; [exact Hsorted| |].
  - apply list_elem_of_lookup. exists i. rewrite lookup_take_lt by lia. exact Ha.
  - apply list_elem_of_lookup. exists 0%nat. rewrite lookup_drop, Nat.add_0_r. exact Hb.
Qed.

(** [findNearestBlock] returns [null] on the empty palette, and an entry as
    soon as one entry of the palette is at a distance below [Infinity]. *)
Theorem findNearestBlock_returns (PALETTE : list PaletteEntry) (lab : Lab) :
  findNearestBlock [] lab = None /\
  (forall q, q ∈ PALETTE -> F64.below_inf (dist_to lab q) = true ->
     exists best, findNearestBlock PALETTE lab = Some best).
Proof.
  split; [reflexivity|]. intros q Hq Hfin. unfold findNearestBlock.
  destruct (findNearestBlock_loop_spec lab PALETTE [] None F64.Infinity) as [d Hinv].
  { split; [reflexivity|]. intros ? ?%elem_of_nil. contradiction. }
  destruct (findNearestBlock_loop lab PALETTE None F64.Infinity) as [best|]; eauto.
  destruct Hinv as [_ Hall]. rewrite (Hall q Hq) in Hfin. discriminate.
Qed.

(** C1. [findNearestBlock] is determined by the palette and the input colour:
    the entry it returns is the first entry of the palette, in palette order,
    among those at the least distance from the input, and no other entry
    answers that description; so two entries at exactly the same distance are
    settled for the one that comes first, which on a palette sorted by id has
    the lower id.  It returns [null] only when no entry is at a distance below
    [Infinity]. *)
Theorem findNearestBlock_first_of_nearest (cmp : string -> string -> Z)
    (PALETTE : list PaletteEntry) (lab : Lab) :
  match findNearestBlock PALETTE lab with
  | Some best =>
    exists i,
      first_nearest lab PALETTE i best /\
      (forall i' b', first_nearest lab PALETTE i' b' -> i' = i /\ b' = best) /\
      (StronglySorted (fun a b => cmp (id a) (id b) <= 0) PALETTE ->
       forall j q, PALETTE !! j = Some q -> j <> i ->
         F64.eq (dist_to lab q) (dist_to lab best) = true ->
         (i < j)%nat /\ cmp (id best) (id q) <= 0)
  | None => forall q, q ∈ PALETTE -> F64.below_inf (dist_to lab q) = false
  end.
Proof.
  unfold findNearestBlock.
  destruct (findNearestBlock_loop_spec lab PALETTE [] None F64.Infinity) as [d Hinv].
  { split; [reflexivity|]. intros ? ?%elem_of_nil. contradiction. }
  rewrite app_nil_l in Hinv.
  destruct (findNearestBlock_loop lab PALETTE None F64.Infinity) as [best|].
  - destruct Hinv as [_ [i Hi]]. exists i. split; [exact Hi|]. split.
    + intros i' b' Hi'. eapply first_nearest_unique; eauto.
    + intros Hsorted j q Hq Hne Heq. destruct Hi as (Hi & _ & _ & Hfirst).
      assert (i < j)%nat as Hlt by (specialize (Hfirst j q Hq Heq); lia).
      split; [exact Hlt|].
      exact (StronglySorted_lookup_lt _ _ _ _ _ _ Hsorted Hi Hq Hlt).
  - destruct Hinv as [_ Hall]. exact Hall.
Qed.

(** The entry [findNearestBlock] returns is an entry of the palette. *)
Lemma findNearestBlock_elem (PALETTE : list PaletteEntry) (lab : Lab) (pick : PaletteEntry) :
  findNearestBlock PALETTE lab = Some pick -> pick ∈ PALETTE.
Proof.
  unfold findNearestBlock.
  destruct (findNearestBlock_loop_spec lab PALETTE [] None F64.Infinity)
    as [d Hinv].
  { split; [reflexivity|]. intros ? ?%elem_of_nil. contradiction. }
  intros E. rewrite E in Hinv. destruct Hinv as [_ (i & Hi & _)].
  rewrite app_nil_l in Hi. eapply list_elem_of_lookup_2. exact Hi.
Qed.

Lemma tie_palette_sorted :
  StronglySorted (fun a b => by_length (id a) (id b) <= 0) tie_palette.
Proof.
  repeat constructor. vm_compute. discriminate.
Qed.

(** On the sample palette the two entries tie at distance 10, and the one
    that comes first, ["tuff"], is returned. *)
Lemma findNearestBlock_first_of_nearest_witness :
  option_map id (findNearestBlock tie_palette (50, 0, 0)%float) = Some "tuff"%string /\
  ((0 < 1)%nat /\ by_length "tuff" "stone" <= 0).
Proof.
  pose proof (findNearestBlock_first_of_nearest by_length tie_palette
                (50, 0, 0)%float) as H.
  assert (findNearestBlock tie_palette (50, 0, 0)%float
          = Some (mkEntry "tuff" "Tuff" (40, 0, 0)%float no_tags no_flags)) as E
    by (vm_compute; reflexivity).
  rewrite E in H. split; [rewrite E; reflexivity|].
  destruct H as (i & (Hi & _) & _ & Hsorted).
  destruct i as [|[|i]]; simpl in Hi; try discriminate Hi.
  apply (Hsorted tie_palette_sorted 1%nat
           (mkEntry "stone" "Stone" (60, 0, 0)%float no_tags no_flags));
    [reflexivity|lia|vm_compute; reflexivity].
Defined.

Lemma findNearestBlock_returns_witness :
  exists best, findNearestBlock tie_palette (50, 0, 0)%float = Some best.
Proof.
  apply (proj2 (findNearestBlock_returns tie_palette (50, 0, 0)%float)
           (mkEntry "stone" "Stone" (60, 0, 0)%float no_tags no_flags)).
  - apply list_elem_of_further, list_elem_of_here.
  - vm_compute. reflexivity.
Defined.

End Matching_facts.

(** ** Sorting with a comparator *)
Module Sort_facts.
Import Spec.

Section Sort.
Context {A : Type} (cmp : A -> A -> Z).

Local Abbreviation before := (Spec.before cmp).
Local Abbreviation consistent := (Spec.consistent cmp).

Lemma sort_insert_perm (x : A) (l : list A) : JS.sort_insert cmp x l ≡ₚ x :: l.
Proof.
  induction l as [|y l IH]; simpl; [reflexivity|].
  destruct (cmp x y <=? 0); [reflexivity|].
  rewrite IH. apply Permutation_swap.
Qed.

Lemma sort_perm (l : list A) : JS.sort cmp l ≡ₚ l.
Proof.
  induction l as [|x l IH]; simpl; [reflexivity|].
  rewrite sort_insert_perm, IH. reflexivity.
Qed.

Lemma sort_insert_sorted (x : A) (l : list A) :
  consistent -> StronglySorted before l ->
  StronglySorted before (JS.sort_insert cmp x l).
Proof.
  intros [Htotal Htrans]. induction 1 as [|y l Hl IH Hy]; simpl.
  - repeat constructor.
  - destruct (Z.leb_spec (cmp x y) 0) as [Hxy|Hxy].
    + constructor; [constructor; assumption|].
      constructor; [exact Hxy|].
      eapply Forall_impl; [exact Hy|]. intros z Hyz. exact (Htrans _ _ _ Hxy Hyz).
    + constructor; [exact IH|].
      rewrite sort_insert_perm. constructor; [|exact Hy].
      apply Htotal. exact Hxy.
Qed.

Lemma sort_sorted (l : list A) : consistent -> StronglySorted before (JS.sort cmp l).
Proof.
  intros Hc. induction l as [|x l IH]; simpl; [constructor|].
  apply sort_insert_sorted; assumption.
Qed.
End Sort.

End Sort_facts.

(** ** Palette building *)
Module Palette_facts.
Import MapArt Spec.

Section Palette.
Variable localeCompare : string -> string -> Z.
Variable fetchOk : string -> bool.
Variable BLOCKS : JS.object Block.

Local Abbreviation texture_ok := (Spec.texture_ok fetchOk).
Local Abbreviation pushed := (Spec.pushed BLOCKS).

Lemma topTextureExists_spec (id : string) (T : gmap string bool) :
  (topTextureExists fetchOk id T).1 = texture_ok T id /\
  forall id', texture_ok (topTextureExists fetchOk id T).2 id' = texture_ok T id'.
Proof.
  unfold topTextureExists, Spec.texture_ok.
  destruct (T !! id) as [ok|] eqn:E; simpl; [auto|].
  split; [reflexivity|]. intros id'.
  destruct (decide (id = id')) as [<-|Hne].
  - rewrite lookup_insert_eq, E. reflexivity.
  - rewrite lookup_insert_ne by exact Hne. reflexivity.
Qed.

Lemma pushed_ext (mode : string) (includeCreative : bool) (ok ok' : string -> bool)
    (ids : list string) :
  (forall id, ok id = ok' id) ->
  omap (pushed mode includeCreative ok) ids = omap (pushed mode includeCreative ok') ids.
Proof.
  intros Hext. induction ids as [|id ids IH]; [reflexivity|].
  assert (pushed mode includeCreative ok id = pushed mode includeCreative ok' id) as E
    by (unfold Spec.pushed; rewrite Hext; reflexivity).
  csimpl. rewrite IH, E. reflexivity.
Qed.

(** The loop pushes, in the order of the ids, the entries of the ids that
    pass, and the cache keeps answering as it did. *)
Lemma buildPalette_loop_spec (mode : string) (includeCreative : bool)
    (ids : list string) (arr : list PaletteEntry) (T : gmap string bool) :
  let r := buildPalette_loop fetchOk BLOCKS mode includeCreative ids arr T in
  r.1 = arr ++ omap (pushed mode includeCreative (texture_ok T)) ids /\
  forall id', texture_ok r.2 id' = texture_ok T id'.
Proof.
  revert arr T. induction ids as [|id ids IH]; intros arr T; simpl.
  - rewrite app_nil_r. auto.
  - unfold Spec.pushed at 1.
    destruct (JS.get BLOCKS id) as [b|]; [|apply IH].
    destruct (avg_lab b) as [lab|]; [|apply IH].
    destruct (negb includeCreative && creative_only (default no_tags (Catalog.tags b)));
      [apply IH|].
    match goal with |- context [if ?c then buildPalette_loop _ _ _ _ _ _ _ else _] =>
      destruct c end; [apply IH|].
    pose proof (topTextureExists_spec id T) as [Hok Hcache].
    destruct (topTextureExists fetchOk id T) as [ok T']. simpl in Hok, Hcache. subst ok.
    destruct (texture_ok T id); simpl.
    + destruct (IH (arr ++ [mkEntry id (str_or (Catalog.name b) id) lab
                             (default no_tags (Catalog.tags b))
                             (default no_flags (tag_flags b))]) T') as [-> Hc].
      split.
      * rewrite <- app_assoc. simpl. do 2 f_equal. apply pushed_ext, Hcache.
      * intros id'. rewrite Hc. apply Hcache.
    + destruct (IH arr T') as [-> Hc]. split.
      * f_equal. apply pushed_ext, Hcache.
      * intros id'. rewrite Hc. apply Hcache.
Qed.

Lemma pushed_Some (mode : string) (includeCreative : bool) (ok : string -> bool)
    (id : string) (e : PaletteEntry) :
  pushed mode includeCreative ok id = Some e ->
  MapArt.id e = id /\
  exists b, JS.get BLOCKS id = Some b /\ avg_lab b = Some (lab e) /\
    ok id = true /\
    (includeCreative = false -> creative_only (default no_tags (Catalog.tags b)) = false) /\
    (mode = "full_solid"%string ->
       full_block (default no_flags (tag_flags b)) = true /\
       transparent (default no_tags (Catalog.tags b)) = false /\
       noisy (default no_tags (Catalog.tags b)) = false) /\
    (mode = "all_solid"%string ->
       full_block (default no_flags (tag_flags b)) = true /\
       transparent (default no_tags (Catalog.tags b)) = false).
Proof.
  unfold Spec.pushed. destruct (JS.get BLOCKS id) as [b|]; [|discriminate].
  destruct (avg_lab b) as [l|] eqn:El; [|discriminate].
  set (tg := default no_tags (Catalog.tags b)).
  set (fl := default no_flags (tag_flags b)).
  destruct (negb includeCreative && creative_only tg) eqn:Hc; [discriminate|].
  match goal with |- (if ?c then _ else _) = _ -> _ => destruct c eqn:Hm end;
    [discriminate|].
  destruct (ok id) eqn:Hok; [|discriminate].
  intros [= <-]. simpl. split; [reflexivity|].
  exists b. subst tg fl. repeat split; try assumption.
  - intros ->. exact Hc.
  - rewrite decide_True in Hm by assumption.
    destruct (full_block _); [reflexivity|discriminate].
  - rewrite decide_True in Hm by assumption.
    destruct (full_block _), (transparent _); (reflexivity || discriminate).
  - rewrite decide_True in Hm by assumption.
    destruct (full_block _), (transparent _), (noisy _); (reflexivity || discriminate).
  - subst mode. simpl in Hm. destruct (full_block _); [reflexivity|discriminate].
  - subst mode. simpl in Hm.
    destruct (full_block _), (transparent _); (reflexivity || discriminate).
Qed.

(** The ids of the entries pushed are ids of the list, in their order. *)
Lemma pushed_ids (mode : string) (includeCreative : bool) (ok : string -> bool)
    (ids : list string) :
  map MapArt.id (omap (pushed mode includeCreative ok) ids)
  = filter (fun id => is_Some (pushed mode includeCreative ok id)) ids.
Proof.
  induction ids as [|id ids IH]; [reflexivity|]. csimpl.
  rewrite filter_cons.
  destruct (pushed mode includeCreative ok id) as [e|] eqn:E.
  - rewrite decide_True by eauto. simpl. rewrite IH.
    apply pushed_Some in E as [-> _]. reflexivity.
  - rewrite decide_False by (intros [? ?]; discriminate). exact IH.
Qed.

(** [buildPalette] sorts the entries pushed for the keys of the catalog, and
    leaves a cache that answers as the one it started from. *)
Lemma buildPalette_eq (elPalette_value : option string)
    (elCreative_checked : option bool) (T : gmap string bool) :
  let r := buildPalette localeCompare fetchOk BLOCKS elPalette_value
             elCreative_checked T in
  r.1 = JS.sort (fun a b => localeCompare (MapArt.id a) (MapArt.id b))
          (omap (pushed (str_or elPalette_value "full_solid")
                   (default false elCreative_checked) (texture_ok T))
             (JS.keys BLOCKS)) /\
  forall id', texture_ok r.2 id' = texture_ok T id'.
Proof.
  unfold buildPalette.
  pose proof (buildPalette_loop_spec (str_or elPalette_value "full_solid")
                (default false elCreative_checked) (JS.keys BLOCKS) [] T) as [H Hc].
  destruct (buildPalette_loop _ _ _ _ _ _ _) as [arr T']. simpl in *. subst arr.
  split; [reflexivity|exact Hc].
Qed.

(** [PALETTE] holds the entries pushed for the keys of the catalog. *)
Lemma buildPalette_perm (elPalette_value : option string)
    (elCreative_checked : option bool) (T : gmap string bool) :
  (buildPalette localeCompare fetchOk BLOCKS elPalette_value elCreative_checked T).1
  ≡ₚ omap (pushed (str_or elPalette_value "full_solid")
             (default false elCreative_checked) (texture_ok T)) (JS.keys BLOCKS).
Proof.
  rewrite (proj1 (buildPalette_eq elPalette_value elCreative_checked T)).
  apply Sort_facts.sort_perm.
Qed.

(** C6. In the strict mode (the code's ["full_solid"], which is also the mode
    taken when the selector gives none) the palette holds a catalog entry only
    if its [full_block] flag is [true], and holds no entry tagged
    [transparent] or [noisy], full block or not. *)
Theorem buildPalette_strict_solid (elPalette_value : option string)
    (elCreative_checked : option bool) (T : gmap string bool)
    (id : string) (b : Block) :
  str_or elPalette_value "full_solid" = "full_solid"%string ->
  JS.get BLOCKS id = Some b ->
  id ∈ map MapArt.id
         (buildPalette localeCompare fetchOk BLOCKS elPalette_value
            elCreative_checked T).1 ->
  full_block (default no_flags (tag_flags b)) = true /\
  transparent (default no_tags (Catalog.tags b)) = false /\
  noisy (default no_tags (Catalog.tags b)) = false.
Proof.
  intros Hmode Hb Hin. rewrite buildPalette_perm, Hmode in Hin.
  apply list_elem_of_fmap in Hin as (e & -> & He).
  apply list_elem_of_omap in He as (id' & _ & He).
  apply pushed_Some in He as (Hid & b' & Hb' & _ & _ & _ & Hstrict & _).
  rewrite Hid in Hb. assert (b' = b) as -> by congruence. auto.
Qed.

(** The conditions under which the loop pushes an entry for [id]. *)
Lemma pushed_is_Some (mode : string) (includeCreative : bool) (ok : string -> bool)
    (id : string) :
  is_Some (pushed mode includeCreative ok id) <->
  exists b, JS.get BLOCKS id = Some b /\ is_Some (avg_lab b) /\
    (creative_only (default no_tags (Catalog.tags b)) = true -> includeCreative = true) /\
    (mode = "full_solid"%string ->
       full_block (default no_flags (tag_flags b)) = true /\
       transparent (default no_tags (Catalog.tags b)) = false /\
       noisy (default no_tags (Catalog.tags b)) = false) /\
    (mode = "all_solid"%string ->
       full_block (default no_flags (tag_flags b)) = true /\
       transparent (default no_tags (Catalog.tags b)) = false) /\
    ok id = true.
Proof.
  split.
  - intros [e He]. apply pushed_Some in He as (_ & b & Hb & Hlab & Hok & Hcr & Hfull & Hall).
    exists b. repeat split; eauto; try (apply Hfull; assumption);
      try (apply Hall; assumption).
    intros Hc. destruct includeCreative; [reflexivity|].
    rewrite Hcr in Hc by reflexivity. discriminate.
  - intros (b & Hb & [lab Hlab] & Hcr & Hfull & Hall & Hok).
    unfold Spec.pushed. rewrite Hb, Hlab. cbv zeta.
    destruct (creative_only (default no_tags (Catalog.tags b))) eqn:Hc.
    + rewrite Hcr by reflexivity. cbn [negb andb].
      destruct (decide (mode = "full_solid"%string)) as [Hm|Hm].
      * destruct (Hfull Hm) as (-> & -> & ->). cbn. rewrite Hok. eauto.
      * destruct (decide (mode = "all_solid"%string)) as [Hm'|Hm'].
        -- destruct (Hall Hm') as (-> & ->). cbn. rewrite Hok. eauto.
        -- rewrite Hok. eauto.
    + rewrite andb_false_r.
      destruct (decide (mode = "full_solid"%string)) as [Hm|Hm].
      * destruct (Hfull Hm) as (-> & -> & ->). cbn. rewrite Hok. eauto.
      * destruct (decide (mode = "all_solid"%string)) as [Hm'|Hm'].
        -- destruct (Hall Hm') as (-> & ->). cbn. rewrite Hok. eauto.
        -- rewrite Hok. eauto.
Qed.

(** Which ids the palette holds: the keys of the catalog whose block has an
    average colour, is not creative-only unless creative blocks are included,
    passes the filter of the mode (["full_solid"]: a full block, neither
    transparent nor noisy; ["all_solid"]: a full block, not transparent; any
    other mode: no filter), and has its top texture. *)
Theorem buildPalette_membership (elPalette_value : option string)
    (elCreative_checked : option bool) (T : gmap string bool) (id : string) :
  id ∈ map MapArt.id
         (buildPalette localeCompare fetchOk BLOCKS elPalette_value
            elCreative_checked T).1 <->
  id ∈ JS.keys BLOCKS /\
  exists b, JS.get BLOCKS id = Some b /\ is_Some (avg_lab b) /\
    (creative_only (default no_tags (Catalog.tags b)) = true ->
     default false elCreative_checked = true) /\
    (str_or elPalette_value "full_solid" = "full_solid"%string ->
       full_block (default no_flags (tag_flags b)) = true /\
       transparent (default no_tags (Catalog.tags b)) = false /\
       noisy (default no_tags (Catalog.tags b)) = false) /\
    (str_or elPalette_value "full_solid" = "all_solid"%string ->
       full_block (default no_flags (tag_flags b)) = true /\
       transparent (default no_tags (Catalog.tags b)) = false) /\
    texture_ok T id = true.
Proof.
  rewrite buildPalette_perm, pushed_ids, list_elem_of_filter, pushed_is_Some.
  tauto.
Qed.

(** C7. The palette [buildPalette] leaves is in ascending order of id (the
    order of the comparator), holds no id twice, holds only entries whose
    colour is the average colour the catalog gives for their id, and is the
    palette a second build from the same catalog, controls and texture answers
    gives again. *)
Theorem buildPalette_invariants (elPalette_value : option string)
    (elCreative_checked : option bool) (T : gmap string bool) :
  JS.wf BLOCKS ->
  Spec.consistent localeCompare ->
  let r := buildPalette localeCompare fetchOk BLOCKS elPalette_value
             elCreative_checked T in
  StronglySorted (fun a b => localeCompare (MapArt.id a) (MapArt.id b) <= 0) r.1 /\
  NoDup (map MapArt.id r.1) /\
  (forall e, e ∈ r.1 ->
     exists b, JS.get BLOCKS (MapArt.id e) = Some b /\ avg_lab b = Some (lab e)) /\
  (buildPalette localeCompare fetchOk BLOCKS elPalette_value elCreative_checked r.2).1
  = r.1.
Proof.
  intros Hwf [Htotal Htrans] r.
  destruct (buildPalette_eq elPalette_value elCreative_checked T) as [Hr Hcache].
  fold r in Hr, Hcache. repeat split.
  - rewrite Hr.
    apply (Sort_facts.sort_sorted
             (fun a b => localeCompare (MapArt.id a) (MapArt.id b))).
    split; intros; eauto.
  - unfold r. rewrite buildPalette_perm, pushed_ids. apply NoDup_filter, Hwf.
  - intros e He. unfold r in He. rewrite buildPalette_perm in He.
    apply list_elem_of_omap in He as (id' & _ & He).
    apply pushed_Some in He as (-> & b & Hb & Hlab & _). eauto.
  - rewrite Hr.
    rewrite (proj1 (buildPalette_eq elPalette_value elCreative_checked r.2)).
    f_equal. apply pushed_ext, Hcache.
Qed.

End Palette.

(** On the sample catalog, in the strict mode and without creative blocks,
    the palette is ["stone"] alone. *)
Lemma buildPalette_strict_solid_witness :
  map MapArt.id
    (buildPalette Sample.by_length Sample.all_but_snow Sample.catalog
       (Some "full_solid"%string) (Some false) ∅).1 = ["stone"%string] /\
  (full_block (mkFlags true true false false false) = true /\
   transparent no_tags = false /\ noisy no_tags = false).
Proof.
  split; [vm_compute; reflexivity|].
  apply (buildPalette_strict_solid Sample.by_length Sample.all_but_snow
           Sample.catalog (Some "full_solid"%string) (Some false) ∅ "stone"%string
           (mkBlock (Some "Stone"%string) (Some (60, 0, 0)%float) None
              (Some (mkFlags true true false false false)))).
  - reflexivity.
  - reflexivity.
  - vm_compute. constructor.
Defined.

Lemma by_length_consistent : Spec.consistent Sample.by_length.
Proof. unfold Sample.by_length. split; intros; lia. Qed.

Lemma catalog_wf : JS.wf Sample.catalog.
Proof. apply (bool_decide_unpack _). vm_compute. exact I. Qed.

(** On the sample catalog with every block allowed, the palette is sorted by
    the sample comparator, and a second build gives it again. *)
Lemma buildPalette_invariants_witness :
  let r := buildPalette Sample.by_length Sample.all_but_snow Sample.catalog
             (Some "everything"%string) (Some true) ∅ in
  map MapArt.id r.1 = ["stone"; "glass"; "torch"; "bedrock"; "coal_ore"]%string /\
  NoDup (map MapArt.id r.1) /\
  (buildPalette Sample.by_length Sample.all_but_snow Sample.catalog
     (Some "everything"%string) (Some true) r.2).1 = r.1.
Proof.
  pose proof (buildPalette_invariants Sample.by_length Sample.all_but_snow
                Sample.catalog (Some "everything"%string) (Some true) ∅ catalog_wf
                by_length_consistent) as (_ & Hnodup & _ & Hagain).
  split; [vm_compute; reflexivity|]. split; [exact Hnodup|exact Hagain].
Defined.

End Palette_facts.

(** ** The cache of the matching pass *)
Module Cache_facts.
Import MapArt Reference Spec.

Lemma toInt32_small (z : Z) : - 2 ^ 31 <= z < 2 ^ 31 -> JS.toInt32 z = z.
Proof. intros H. unfold JS.toInt32. rewrite Z.mod_small; lia. Qed.

(** Below [2 ^ k], [|] with a multiple of [2 ^ k] adds. *)
Lemma lor_shifted (hi lo k : Z) :
  0 <= k -> 0 <= lo < 2 ^ k -> Z.lor (hi * 2 ^ k) lo = hi * 2 ^ k + lo.
Proof.
  intros Hk Hlo. rewrite <- Z.lxor_lor, <- Z.add_nocarry_lxor; try reflexivity.
  all: apply Z.bits_inj'; intros n Hn; rewrite Z.land_spec, Z.bits_0.
  all: destruct (Z.lt_ge_cases n k) as [Hlt|Hge].
  all: try (rewrite Z.mul_pow2_bits_low by lia; reflexivity).
  all: rewrite <- (Z.mod_small lo (2 ^ k)) by lia.
  all: rewrite Z.mod_pow2_bits_high by lia; apply andb_false_r.
Qed.

(** On bytes the key is the 24-bit number [r * 2^16 + g * 2^8 + b]. *)
Lemma rgb_key_bytes (r g b : Z) :
  byte r -> byte g -> byte b -> rgb_key r g b = r * 65536 + g * 256 + b.
Proof.
  unfold byte, rgb_key. intros Hr Hg Hb.
  assert (JS.shl r 16 = r * 2 ^ 16) as ->.
  { unfold JS.shl. change (16 mod 32) with 16.
    rewrite (toInt32_small r), Z.shiftl_mul_pow2, toInt32_small; lia. }
  assert (JS.shl g 8 = g * 2 ^ 8) as ->.
  { unfold JS.shl. change (8 mod 32) with 8.
    rewrite (toInt32_small g), Z.shiftl_mul_pow2, toInt32_small; lia. }
  assert (JS.bor (r * 2 ^ 16) (g * 2 ^ 8) = (r * 2 ^ 8 + g) * 2 ^ 8) as ->.
  { unfold JS.bor.
    rewrite (toInt32_small (r * 2 ^ 16)), (toInt32_small (g * 2 ^ 8)) by lia.
    rewrite lor_shifted by lia. rewrite toInt32_small; lia. }
  unfold JS.bor.
  rewrite (toInt32_small ((r * 2 ^ 8 + g) * 2 ^ 8)), (toInt32_small b) by lia.
  rewrite lor_shifted by lia. rewrite toInt32_small; lia.
Qed.

(** Two byte triples with the same key are the same triple. *)
Lemma rgb_key_inj (r g b r' g' b' : Z) :
  byte r -> byte g -> byte b -> byte r' -> byte g' -> byte b' ->
  rgb_key r g b = rgb_key r' g' b' -> r = r' /\ g = g' /\ b = b'.
Proof.
  intros Hr Hg Hb Hr' Hg' Hb'. rewrite !rgb_key_bytes by assumption.
  unfold byte in *. lia.
Qed.

(** Induction over an array read four elements at a time. *)
Lemma list_ind4 {A : Type} (P : list A -> Prop) :
  (forall l, (length l < 4)%nat -> P l) ->
  (forall a b c d l, P l -> P (a :: b :: c :: d :: l)) ->
  forall l, P l.
Proof.
  intros Hshort Hstep.
  assert (forall n l, (length l <= n)%nat -> P l) as H.
  { induction n as [|n IH]; intros l Hl.
    - apply Hshort. lia.
    - destruct l as [|a [|b [|c [|d l]]]]; try (apply Hshort; simpl; lia).
      apply Hstep, IH. simpl in Hl. lia. }
  intros l. apply (H (length l)). lia.
Qed.

Section Cache.
Variable Math_pow : float -> float -> float.
Variable Math_cbrt : float -> float.
Variable PALETTE : list PaletteEntry.

Local Abbreviation cache_sound := (Spec.cache_sound Math_pow Math_cbrt PALETTE).

Lemma cache_sound_empty : cache_sound ∅.
Proof. intros r g b pick _ _ _ H. rewrite lookup_empty in H. discriminate. Qed.

Lemma cache_sound_insert (cache : gmap Z PaletteEntry) r g b pick :
  byte r -> byte g -> byte b -> cache_sound cache ->
  findNearestBlock PALETTE (rgbToLab255 Math_pow Math_cbrt r g b) = Some pick ->
  cache_sound (<[rgb_key r g b := pick]> cache).
Proof.
  intros Hr Hg Hb Hc Hpick r' g' b' pick' Hr' Hg' Hb' Hget.
  destruct (decide (rgb_key r g b = rgb_key r' g' b')) as [E|Hne].
  - rewrite E, lookup_insert_eq in Hget.
    apply rgb_key_inj in E as (<- & <- & <-); try assumption. congruence.
  - rewrite lookup_insert_ne in Hget by exact Hne. eauto.
Qed.

Lemma generate_loop_cached (data : list Z) :
  Forall byte data ->
  forall p assign counts cache, cache_sound cache ->
    generate_loop Math_pow Math_cbrt PALETTE data p assign counts cache
    = generate_loop_uncached Math_pow Math_cbrt PALETTE data p assign counts.
Proof.
  induction data as [l Hl|r g b a data IH] using list_ind4; intros Hbytes.
  - intros. destruct l as [|? [|? [|? [|? ?]]]]; try reflexivity. simpl in Hl. lia.
  - apply Forall_cons in Hbytes as [Hr Hbytes].
    apply Forall_cons in Hbytes as [Hg Hbytes].
    apply Forall_cons in Hbytes as [Hb Hbytes].
    apply Forall_cons in Hbytes as [_ Hbytes].
    intros p assign counts cache Hc. cbn [generate_loop generate_loop_uncached].
    destruct (decide (a = 0)); [apply IH; assumption|].
    destruct (cache !! rgb_key r g b) as [pick|] eqn:Hget.
    + rewrite (Hc r g b pick Hr Hg Hb Hget). apply IH; assumption.
    + destruct (findNearestBlock PALETTE (rgbToLab255 Math_pow Math_cbrt r g b))
        as [pick|] eqn:Hpick; [|reflexivity].
      apply IH; [assumption|]. apply cache_sound_insert; assumption.
Qed.

(** C5. On the bytes of an image, the pass that memoizes the nearest match
    under the 24-bit key of the pixel's colour gives the assignment, the
    counts and the canvas of the pass that recomputes the nearest match for
    every pixel, or fails as it does.  The cache is made anew by each pass:
    it is no part of the state a pass leaves, so the pass that follows a pass
    under another palette agrees with the uncached pass under its own. *)
Theorem generate_cache_transparent (page : Page) (loadImage : string -> option Image)
    (size : nat) (data : list Z) (st : State) :
  Forall byte data ->
  generate Math_pow Math_cbrt PALETTE page loadImage size data st
  = generate_uncached Math_pow Math_cbrt PALETTE page loadImage size data st /\
  forall PALETTE' page' loadImage' size' data',
    let st' :=
      (generate Math_pow Math_cbrt PALETTE' page' loadImage' size' data' st).1 in
    generate Math_pow Math_cbrt PALETTE page loadImage size data st'
    = generate_uncached Math_pow Math_cbrt PALETTE page loadImage size data st'.
Proof.
  intros Hbytes.
  assert (forall s, generate Math_pow Math_cbrt PALETTE page loadImage size data s
                    = generate_uncached Math_pow Math_cbrt PALETTE page loadImage size
                        data s)
    as H.
  { intros s. unfold generate, generate_uncached.
    rewrite (generate_loop_cached data Hbytes) by apply cache_sound_empty.
    reflexivity. }
  split; [apply H|]. intros. apply H.
Qed.

End Cache.

(** The sample pass holds the same colour twice; the second pixel is served
    by the cache. *)
Lemma generate_cache_transparent_witness :
  (generate Sample.no_pow Sample.no_cbrt Sample.greys Sample.page (fun _ => None) 2
     Sample.pixels (mkState ∅ None 128 None)).1
  = mkState ∅ (Some {[ "coal"%string := num 3 ]}) 2
      (Some [str "coal"; str "coal"; null; str "coal"]) /\
  generate Sample.no_pow Sample.no_cbrt Sample.greys Sample.page (fun _ => None) 2
    Sample.pixels (mkState ∅ None 128 None)
  = generate_uncached Sample.no_pow Sample.no_cbrt Sample.greys Sample.page
      (fun _ => None) 2 Sample.pixels (mkState ∅ None 128 None).
Proof.
  split; [vm_compute; reflexivity|].
  apply (generate_cache_transparent Sample.no_pow Sample.no_cbrt Sample.greys
           Sample.page (fun _ => None) 2%nat Sample.pixels (mkState ∅ None 128 None)).
  unfold byte. repeat constructor; lia.
Defined.

End Cache_facts.

(** ** The matching pass *)
Module Generate_facts.
Import MapArt Reference Spec.

Lemma total_empty : total ∅ = 0.
Proof. apply map_fold_empty. Qed.

Lemma total_insert (counts : gmap string count) (id : string) (v : count) :
  total (<[id := v]> counts) = total counts - count_of counts id + number v.
Proof.
  unfold total, count_of.
  destruct (counts !! id) as [v0|] eqn:E; simpl.
  - rewrite <- insert_delete_eq.
    rewrite map_fold_insert_L; [|intros; lia|apply lookup_delete_eq].
    rewrite (map_fold_delete_L _ _ id v0 counts); [|intros; lia|exact E]. lia.
  - rewrite map_fold_insert_L; [|intros; lia|exact E]. lia.
Qed.

Lemma inherited_proto : JS.inherited "__proto__" = true.
Proof. reflexivity. Qed.

(** Under an id that plain objects do not inherit, with numbers only, the
    count goes up by one. *)
Lemma bump_own (counts : gmap string count) (id : string) :
  JS.inherited id = false -> numbers counts ->
  bump counts id = <[id := num (count_of counts id + 1)]> counts.
Proof.
  intros Hid Hnum. unfold bump, count_of.
  destruct (counts !! id) as [[n|k ones]|] eqn:E; cbn [fmap option_fmap option_map default number].
  - reflexivity.
  - destruct (Hnum _ _ E) as [n [=]].
  - rewrite decide_False by (intros ->; rewrite inherited_proto in Hid; discriminate).
    rewrite Hid. reflexivity.
Qed.

Lemma numbers_empty : numbers ∅.
Proof. intros k v H. rewrite lookup_empty in H. discriminate. Qed.

Lemma numbers_bump (counts : gmap string count) (id : string) :
  JS.inherited id = false -> numbers counts -> numbers (bump counts id).
Proof.
  intros Hid Hnum. rewrite bump_own by assumption. intros k v.
  destruct (decide (id = k)) as [<-|Hne].
  - rewrite lookup_insert_eq. intros [= <-]. eauto.
  - rewrite lookup_insert_ne by exact Hne. apply Hnum.
Qed.

(** [counts[id] = (counts[id] || 0) + 1] then adds one to the total. *)
Lemma total_bump (counts : gmap string count) (id : string) :
  JS.inherited id = false -> numbers counts ->
  total (bump counts id) = total counts + 1.
Proof.
  intros Hid Hnum. rewrite bump_own by assumption. rewrite total_insert.
  cbn [number]. lia.
Qed.

Lemma bump_lookup (counts : gmap string count) (id id' : string) :
  JS.inherited id = false -> numbers counts ->
  count_of (bump counts id) id'
  = count_of counts id' + (if decide (id = id') then 1 else 0).
Proof.
  intros Hid Hnum. rewrite bump_own by assumption. unfold count_of.
  destruct (decide (id = id')) as [<-|Hne].
  - rewrite lookup_insert_eq. cbn. lia.
  - rewrite lookup_insert_ne by exact Hne. lia.
Qed.

(** [bump] keeps the counts well kept, whatever the id. *)
Lemma well_kept_bump (counts : gmap string count) (id : string) :
  well_kept counts -> well_kept (bump counts id).
Proof.
  intros Hw. unfold bump.
  destruct (counts !! id) as [[n|k ones]|] eqn:E.
  - destruct (Hw _ _ E) as (Hp & Hn & Hi). intros i v.
    destruct (decide (id = i)) as [<-|Hne].
    + rewrite lookup_insert_eq. intros [= <-]. split; [exact Hp|]. split; [lia|exact Hi].
    + rewrite lookup_insert_ne by exact Hne. apply Hw.
  - destruct (Hw _ _ E) as (Hp & Hk & Hi & Ho). intros i v.
    destruct (decide (id = i)) as [<-|Hne].
    + rewrite lookup_insert_eq. intros [= <-]. split; [exact Hp|]. repeat split; auto; lia.
    + rewrite lookup_insert_ne by exact Hne. apply Hw.
  - destruct (decide (id = "__proto__"%string)) as [Hp|Hp]; [exact Hw|].
    destruct (JS.inherited id) eqn:Hi; intros i v;
      (destruct (decide (id = i)) as [<-|Hne];
       [rewrite lookup_insert_eq; intros [= <-]; split; [exact Hp|]; repeat split; auto; lia
       |rewrite lookup_insert_ne by exact Hne; apply Hw]).
Qed.

(** A key that [bump] adds is its id. *)
Lemma bump_keys (counts : gmap string count) (id i : string) :
  is_Some (bump counts id !! i) -> is_Some (counts !! i) \/ i = id.
Proof.
  unfold bump. destruct (decide (id = i)) as [<-|Hne]; [auto|].
  destruct (counts !! id) as [[n|k ones]|];
    [rewrite lookup_insert_ne by exact Hne; auto..|].
  destruct (decide (id = "__proto__"%string)); [auto|].
  destruct (JS.inherited id); rewrite lookup_insert_ne by exact Hne; auto.
Qed.

(** Writing the next cell of an array whose tail is still holes. *)
Lemma array_set_next (w : list cell) (k : nat) (c : cell) :
  JS.array_set undefined (w ++ replicate k undefined) (length w) c
  = (w ++ [c]) ++ replicate (k - 1) undefined.
Proof.
  unfold JS.array_set. rewrite length_app, length_replicate.
  destruct k as [|k]; simpl.
  - rewrite decide_False by lia. rewrite !app_nil_r.
    replace (length w - (length w + 0))%nat with 0%nat by lia. reflexivity.
  - rewrite decide_True by lia. rewrite Nat.sub_0_r.
    replace (length w) with (length w + 0)%nat at 1 by lia.
    rewrite insert_app_r. simpl. rewrite <- app_assoc. reflexivity.
Qed.

Section Pass.
Variable Math_pow : float -> float -> float.
Variable Math_cbrt : float -> float.
Variable PALETTE : list PaletteEntry.

Local Abbreviation cell_of := (Spec.cell_of Math_pow Math_cbrt PALETTE).
Local Abbreviation cells_of := (Spec.cells_of Math_pow Math_cbrt PALETTE).

(** The uncached loop writes the cells one after the other, from [p] on, into
    an array whose cells from [p] on are still holes, and counts them. *)
Lemma generate_loop_uncached_spec (data : list Z) :
  forall (w : list cell) (k : nat) (counts : gmap string count),
    generate_loop_uncached Math_pow Math_cbrt PALETTE data (length w)
      (w ++ replicate k undefined) counts
    = match cells_of data with
      | Ok cs =>
        Ok ((w ++ cs) ++ replicate (k - length cs) undefined,
            foldl count_cell counts cs)
      | TypeError => TypeError
      end.
Proof.
  induction data as [l Hl|r g b a data IH] using Cache_facts.list_ind4; intros w k counts.
  - destruct l as [|? [|? [|? [|? ?]]]]; try (simpl in Hl; lia);
      cbn [generate_loop_uncached Spec.cells_of]; rewrite app_nil_r, Nat.sub_0_r;
      reflexivity.
  - cbn [generate_loop_uncached Spec.cells_of]. unfold Spec.cell_of.
    destruct (decide (a = 0)).
    + rewrite array_set_next.
      replace (S (length w)) with (length (w ++ [null]))
        by (rewrite length_app; simpl; lia).
      rewrite IH. destruct (cells_of data) as [cs|]; [|reflexivity].
      rewrite <- !app_assoc. cbn [app length foldl count_cell].
      replace (k - 1 - length cs)%nat with (k - S (length cs))%nat by lia.
      reflexivity.
    + destruct (findNearestBlock PALETTE _) as [pick|]; [|reflexivity].
      rewrite array_set_next.
      replace (S (length w)) with (length (w ++ [str (id pick)]))
        by (rewrite length_app; simpl; lia).
      rewrite IH. destruct (cells_of data) as [cs|]; [|reflexivity].
      rewrite <- !app_assoc. cbn [app length foldl count_cell].
      replace (k - 1 - length cs)%nat with (k - S (length cs))%nat by lia.
      reflexivity.
Qed.

(** Each cell is the cell of its pixel. *)
Lemma cells_of_lookup (data : list Z) :
  forall cs, cells_of data = Ok cs ->
    length cs = (length data / 4)%nat /\
    forall p r g b a, pixel data p = Some (r, g, b, a) ->
      exists c, cs !! p = Some c /\ cell_of r g b a = Ok c.
Proof.
  induction data as [l Hl|r g b a data IH] using Cache_facts.list_ind4; intros cs.
  - destruct l as [|? [|? [|? [|? ?]]]]; try (simpl in Hl; lia);
      cbn [Spec.cells_of]; intros [= <-]; (split; [reflexivity|]);
      intros p r g b a Hp; unfold pixel in Hp;
      destruct p; simpl in Hp; try discriminate;
      repeat (rewrite lookup_ge_None_2 in Hp by (simpl; lia)); discriminate.
  - cbn [Spec.cells_of]. destruct (cell_of r g b a) as [c|] eqn:Hc; [|discriminate].
    destruct (cells_of data) as [cs'|]; [|discriminate]. intros [= <-].
    destruct (IH cs' eq_refl) as [Hlen Hpix]. split.
    + simpl length. rewrite Hlen.
      change (S (S (S (S (length data))))) with (4 + length data)%nat.
      replace (4 + length data)%nat with (1 * 4 + length data)%nat by lia.
      rewrite Nat.div_add_l by lia. lia.
    + intros p r' g' b' a' Hp. destruct p as [|p].
      * unfold pixel in Hp. simpl in Hp. injection Hp as <- <- <- <-.
        exists c. split; [reflexivity|exact Hc].
      * apply (Hpix p r' g' b' a'). unfold pixel in *.
        replace (4 * S p)%nat with (S (S (S (S (4 * p))))) in Hp by lia.
        exact Hp.
Qed.

(** No cell of a pass is left a hole. *)
Lemma cells_of_written (data : list Z) :
  forall cs, cells_of data = Ok cs -> Forall (fun c => c <> undefined) cs.
Proof.
  induction data as [l Hl|r g b a data IH] using Cache_facts.list_ind4; intros cs.
  - destruct l as [|? [|? [|? [|? ?]]]]; try (simpl in Hl; lia);
      cbn [Spec.cells_of]; intros [= <-]; constructor.
  - cbn [Spec.cells_of]. destruct (cell_of r g b a) as [c|] eqn:Hc; [|discriminate].
    destruct (cells_of data) as [cs'|]; [|discriminate]. intros [= <-].
    constructor; [|apply IH; reflexivity].
    unfold Spec.cell_of in Hc. destruct (decide (a = 0)); [congruence|].
    destruct (findNearestBlock PALETTE _); congruence.
Qed.

(** The cell of a pixel is empty exactly when the pixel has alpha 0. *)
Lemma cell_of_null (r g b a : Z) (c : cell) :
  cell_of r g b a = Ok c -> (c = null <-> a = 0).
Proof.
  unfold Spec.cell_of. destruct (decide (a = 0)) as [->|Hne].
  - intros [= <-]. tauto.
  - destruct (findNearestBlock PALETTE _); [|discriminate].
    intros [= <-]. split; [discriminate|contradiction].
Qed.

End Pass.

(** The total of the counts is the number of cells that hold an id, when no
    cell holds a name that plain objects inherit. *)
Lemma total_count_cells (cs : list cell) (counts : gmap string count) :
  Forall (fun c => c <> undefined) cs -> Forall own_cell cs -> numbers counts ->
  numbers (foldl count_cell counts cs) /\
  total (foldl count_cell counts cs) + Z.of_nat (empty_cells cs)
  = total counts + Z.of_nat (length cs).
Proof.
  intros Hcs. revert counts. unfold empty_cells.
  induction Hcs as [|c cs Hc _ IH]; intros counts Hown Hnum; [simpl; split; [exact Hnum|lia]|].
  apply Forall_cons in Hown as [Hown1 Hown].
  cbn [foldl length]. rewrite filter_cons.
  destruct c as [| |id]; [contradiction| |].
  - rewrite decide_True by reflexivity. destruct (IH counts Hown Hnum) as [H1 H2].
    cbn [count_cell length]. split; [exact H1|lia].
  - rewrite decide_False by discriminate. cbn [own_cell] in Hown1.
    destruct (IH (bump counts id) Hown (numbers_bump _ _ Hown1 Hnum)) as [H1 H2].
    rewrite total_bump in H2 by assumption. cbn [count_cell]. split; [exact H1|lia].
Qed.

(** Each count is then the number of cells that hold its id. *)
Lemma lookup_count_cells (cs : list cell) (counts : gmap string count) (id : string) :
  Forall own_cell cs -> numbers counts ->
  count_of (foldl count_cell counts cs) id
  = count_of counts id + Z.of_nat (occurrences id cs).
Proof.
  intros Hown. revert counts. unfold occurrences.
  induction Hown as [|c cs Hown1 _ IH]; intros counts Hnum; [simpl; lia|].
  cbn [foldl]. rewrite filter_cons.
  destruct c as [| |id'].
  - rewrite decide_False by discriminate. apply IH, Hnum.
  - rewrite decide_False by discriminate. apply IH, Hnum.
  - cbn [count_cell own_cell] in *.
    rewrite IH by (apply numbers_bump; assumption).
    rewrite bump_lookup by assumption.
    destruct (decide (id' = id)) as [->|Hne].
    + rewrite decide_True by reflexivity. cbn [length]. lia.
    + rewrite decide_False by congruence. lia.
Qed.

(** Whatever the ids, the counts stay well kept, and each key is the id of a
    cell. *)
Lemma well_kept_count_cells (cs : list cell) (counts : gmap string count) :
  well_kept counts ->
  well_kept (foldl count_cell counts cs) /\
  forall i, is_Some (foldl count_cell counts cs !! i) ->
    is_Some (counts !! i) \/ str i ∈ cs.
Proof.
  revert counts. induction cs as [|c cs IH]; intros counts Hw; [simpl; auto|].
  cbn [foldl]. destruct c as [| |id]; cbn [count_cell].
  - destruct (IH counts Hw) as [H1 H2]. split; [exact H1|].
    intros i Hi. destruct (H2 i Hi); [auto|right; apply list_elem_of_further; assumption].
  - destruct (IH counts Hw) as [H1 H2]. split; [exact H1|].
    intros i Hi. destruct (H2 i Hi); [auto|right; apply list_elem_of_further; assumption].
  - destruct (IH (bump counts id) (well_kept_bump _ _ Hw)) as [H1 H2].
    split; [exact H1|]. intros i Hi.
    destruct (H2 i Hi) as [Hb|Hin]; [|right; apply list_elem_of_further; assumption].
    destruct (bump_keys _ _ _ Hb) as [?| ->]; [auto|right; apply list_elem_of_here].
Qed.

End Generate_facts.

(** ** Rendering *)
Module Render_facts.
Import MapArt Reference.

Lemma map_seq_add {B : Type} (h : nat -> B) (k m s : nat) :
  map (fun x => h (k + x)%nat) (seq s m) = map h (seq (k + s) m).
Proof.
  revert s. induction m as [|m IH]; intros s; [reflexivity|].
  cbn [seq map]. f_equal. rewrite IH. f_equal. f_equal. lia.
Qed.

Lemma map_seq_S {B : Type} (h : nat -> B) (m s : nat) :
  map (fun x => h (S x)) (seq s m) = map h (seq (S s) m).
Proof. apply (map_seq_add h 1). Qed.

(** Row by row, or cell by cell: the same sum. *)
Lemma list_sum_rows (h : nat -> nat) (m n : nat) :
  list_sum (map (fun y => list_sum (map (fun x => h (y * m + x)%nat) (seq 0 m))) (seq 0 n))
  = list_sum (map h (seq 0 (n * m))).
Proof.
  induction n as [|n IH]; [reflexivity|].
  rewrite seq_S, map_app, list_sum_app, IH. cbn [map list_sum Nat.add].
  replace (S n * m)%nat with (n * m + m)%nat by lia.
  rewrite seq_app, map_app, list_sum_app. cbn [Nat.add]. f_equal.
  unfold list_sum at 1. cbn [fold_right]. rewrite Nat.add_0_r.
  rewrite map_seq_add, Nat.add_0_r. reflexivity.
Qed.

(** Reading an array at each of its indices reads each of its elements. *)
Lemma map_lookup_seq {A B : Type} (F : option A -> B) (l : list A) :
  map (fun p => F (l !! p)) (seq 0 (length l)) = map (fun c => F (Some c)) l.
Proof.
  induction l as [|a l IH]; [reflexivity|].
  cbn [length seq map]. f_equal.
  rewrite <- (map_seq_S (fun p => F ((a :: l) !! p))). exact IH.
Qed.

Lemma list_sum_filter {A : Type} (P : A -> bool) (l : list A) :
  list_sum (map (fun c => if P c then 1%nat else 0%nat) l)
  = length (filter (fun c => Is_true (P c)) l).
Proof.
  unfold list_sum. induction l as [|a l IH]; [reflexivity|].
  cbn [map fold_right]. rewrite filter_cons, IH.
  destruct (P a); simpl; reflexivity.
Qed.

(** A cell is drawn exactly when it resolves. *)
Lemma draw_cell_inv (assign : list cell) (TEX : gmap string Image) (y x p : nat)
    (d : drawImage) :
  d ∈ draw_cell assign TEX y x p ->
  exists id, assign !! p = Some (str id) /\ id <> EmptyString /\
    TEX !! id = Some (tex d) /\
    dx d = Z.of_nat x * TILE /\ dy d = Z.of_nat y * TILE /\
    dw d = TILE /\ dh d = TILE.
Proof.
  unfold draw_cell. destruct (assign !! p) as [[| |id]|]; try (intros []%elem_of_nil).
  unfold truthy. destruct (decide (id = EmptyString)); [intros []%elem_of_nil|].
  destruct (TEX !! id) as [t|] eqn:E; [|intros []%elem_of_nil].
  intros ->%list_elem_of_singleton. exists id. simpl. repeat split; auto.
Qed.

Lemma draw_cell_length (assign : list cell) (TEX : gmap string Image) (y x p : nat) :
  length (draw_cell assign TEX y x p)
  = match assign !! p with
    | Some c => if resolved TEX c then 1%nat else 0%nat
    | None => 0%nat
    end.
Proof.
  unfold draw_cell, resolved. destruct (assign !! p) as [[| |id]|]; try reflexivity.
  destruct (truthy (str id)); [|reflexivity]. simpl.
  destruct (TEX !! id) as [t|] eqn:E.
  - rewrite bool_decide_eq_true_2 by eauto. reflexivity.
  - rewrite bool_decide_eq_false_2 by (intros [? ?]; discriminate). reflexivity.
Qed.

(** The canvas holds one tile per cell that resolves. *)
Lemma canvas_length (loadImage : string -> option Image) (assign : list cell)
    (size : nat) (TEX : gmap string Image) :
  length assign = (size * size)%nat ->
  let r := renderTextureMosaic loadImage assign size TEX in
  length r.1 = length (filter (fun c => Is_true (resolved r.2 c)) assign).
Proof.
  intros Hlen. unfold renderTextureMosaic. cbn [fst snd].
  set (TEX' := foldl _ TEX _).
  rewrite length_flat_map.
  rewrite (map_ext _ (fun y => list_sum (map (fun x =>
             match assign !! (y * size + x)%nat with
             | Some c => if resolved TEX' c then 1%nat else 0%nat
             | None => 0%nat
             end) (seq 0 size)))).
  2:{ intros y. rewrite length_flat_map. f_equal. apply map_ext.
      intros x. apply draw_cell_length. }
  rewrite (list_sum_rows (fun p => match assign !! p with
                                   | Some c => if resolved TEX' c then 1%nat else 0%nat
                                   | None => 0%nat
                                   end)).
  rewrite <- Hlen.
  rewrite (map_lookup_seq (fun o => match o with
                                    | Some c => if resolved TEX' c then 1%nat else 0%nat
                                    | None => 0%nat
                                    end)).
  apply list_sum_filter.
Qed.

(** Every tile on the canvas is the tile of a cell of the grid. *)
Lemma canvas_inv (loadImage : string -> option Image) (assign : list cell)
    (size : nat) (TEX : gmap string Image) (d : drawImage) :
  let r := renderTextureMosaic loadImage assign size TEX in
  d ∈ r.1 ->
  exists y x, (y < size)%nat /\ (x < size)%nat /\
    d ∈ draw_cell assign r.2 y x (y * size + x).
Proof.
  unfold renderTextureMosaic. cbn [fst snd]. set (TEX' := foldl _ TEX _).
  intros Hd. apply list_elem_of_In, in_flat_map in Hd as (y & Hy & Hd).
  apply in_flat_map in Hd as (x & Hx & Hd).
  apply in_seq in Hy, Hx. exists y, x. repeat split; try lia.
  apply list_elem_of_In. exact Hd.
Qed.

(** A written cell is empty, unresolved, or resolved. *)
Lemma cells_partition (TEX : gmap string Image) (cs : list cell) :
  Forall (fun c => c <> undefined) cs ->
  length cs
  = (empty_cells cs + unresolved_cells TEX cs
     + length (filter (fun c => Is_true (resolved TEX c)) cs))%nat.
Proof.
  unfold empty_cells, unresolved_cells.
  induction 1 as [|c cs Hc _ IH]; [reflexivity|].
  rewrite !filter_cons. destruct c as [| |id]; [contradiction| |].
  - rewrite decide_True by reflexivity. simpl. lia.
  - rewrite decide_False by discriminate. cbn [length unresolved].
    destruct (resolved TEX (str id)); simpl; lia.
Qed.

End Render_facts.

(** ** The mosaic: assignment, counts and canvas *)
Module Mosaic_facts.
Import MapArt Reference Spec Generate_facts Render_facts.

Section Mosaic.
Variable Math_pow : float -> float -> float.
Variable Math_cbrt : float -> float.
Variable PALETTE : list PaletteEntry.

Lemma pixel_cons (r g b a : Z) (data : list Z) (p : nat) :
  pixel (r :: g :: b :: a :: data) (S p) = pixel data p.
Proof.
  unfold pixel. replace (4 * S p)%nat with (S (S (S (S (4 * p))))) by lia.
  reflexivity.
Qed.

(** The pass writes a cell for every pixel when every opaque pixel finds its
    nearest block. *)
Lemma cells_of_total (data : list Z) :
  (forall p r g b a, pixel data p = Some (r, g, b, a) -> a <> 0 ->
     findNearestBlock PALETTE (rgbToLab255 Math_pow Math_cbrt r g b) <> None) ->
  exists cs, cells_of Math_pow Math_cbrt PALETTE data = Ok cs.
Proof.
  induction data as [l Hl|r g b a data IH] using Cache_facts.list_ind4; intros Hnear.
  - destruct l as [|? [|? [|? [|? ?]]]]; try (simpl in Hl; lia);
      cbn [Spec.cells_of]; eauto.
  - cbn [Spec.cells_of]. destruct IH as [cs ->].
    { intros p r' g' b' a' Hp. apply (Hnear (S p)). rewrite pixel_cons. exact Hp. }
    unfold Spec.cell_of. destruct (decide (a = 0)); [eauto|].
    specialize (Hnear 0%nat r g b a eq_refl n).
    destruct (findNearestBlock PALETTE _); [eauto|contradiction].
Qed.

(** The cells of a pass hold ids of the palette. *)
Lemma cells_of_palette (data : list Z) :
  forall cs, cells_of Math_pow Math_cbrt PALETTE data = Ok cs ->
    forall i, str i ∈ cs -> exists pick, pick ∈ PALETTE /\ id pick = i.
Proof.
  induction data as [l Hl|r g b a data IH] using Cache_facts.list_ind4; intros cs.
  - destruct l as [|? [|? [|? [|? ?]]]]; try (simpl in Hl; lia);
      cbn [Spec.cells_of]; intros [= <-] i Hi; apply elem_of_nil in Hi; contradiction.
  - cbn [Spec.cells_of].
    destruct (Spec.cell_of Math_pow Math_cbrt PALETTE r g b a) as [c|] eqn:Hc;
      [|discriminate].
    destruct (cells_of Math_pow Math_cbrt PALETTE data) as [cs'|]; [|discriminate].
    intros [= <-] i Hi. apply elem_of_cons in Hi as [Hi|Hi]; [|eapply IH; eauto].
    unfold Spec.cell_of in Hc. destruct (decide (a = 0)); [congruence|].
    destruct (findNearestBlock PALETTE _) as [pick|] eqn:Hn; [|discriminate].
    injection Hc as <-. injection Hi as ->.
    exists pick. split; [|reflexivity].
    eapply Matching_facts.findNearestBlock_elem. exact Hn.
Qed.

Lemma cells_of_own (data : list Z) (cs : list cell) :
  own_names PALETTE -> cells_of Math_pow Math_cbrt PALETTE data = Ok cs ->
  Forall own_cell cs.
Proof.
  intros Hown Hcs. apply Forall_forall. intros c Hc.
  destruct c as [| |i]; cbn [own_cell]; [exact I..|].
  destruct (cells_of_palette data cs Hcs i Hc) as (pick & Hpick & <-).
  unfold own_names in Hown. rewrite Forall_forall in Hown. apply Hown, Hpick.
Qed.

(** [generate] in terms of the cells of the pixels. *)
Lemma generate_unfold (page : Page) (loadImage : string -> option Image) (size : nat)
    (data : list Z) (st : State) :
  Forall byte data -> length data = (4 * (size * size))%nat ->
  generate Math_pow Math_cbrt PALETTE page loadImage size data st
  = if IS_GENERATING page then (st, Busy)
    else if negb (BLOCKS_loaded page) then (st, Status "Blocks not loaded yet.")
    else if decide (length PALETTE = 0%nat) then
      (st, Status "Palette is empty (adjust filters or textures_top is missing files).")
    else if decide (str_or (elImg_src page) EmptyString = EmptyString) then
      (st, Status "Upload an image first.")
    else if negb (outCanvas page && outCtx page) then
      (st, Status "Missing output canvas (check HTML IDs).")
    else
      match cells_of Math_pow Math_cbrt PALETTE data with
      | TypeError =>
        (mkState (TEX_CACHE st) (LAST_COUNTS st) size (LAST_ASSIGN st), Caught)
      | Ok cs =>
        let r := renderTextureMosaic loadImage cs size (TEX_CACHE st) in
        (mkState r.2 (Some (foldl count_cell ∅ cs)) size (Some cs), Done r.1)
      end.
Proof.
  intros Hbytes Hlen. unfold generate.
  destruct (IS_GENERATING page); [reflexivity|].
  destruct (negb (BLOCKS_loaded page)); [reflexivity|].
  destruct (decide (length PALETTE = 0%nat)); [reflexivity|].
  destruct (decide (str_or (elImg_src page) EmptyString = EmptyString)); [reflexivity|].
  destruct (negb (outCanvas page && outCtx page)); [reflexivity|].
  rewrite (Cache_facts.generate_loop_cached _ _ _ data Hbytes)
    by apply Cache_facts.cache_sound_empty.
  pose proof (generate_loop_uncached_spec Math_pow Math_cbrt PALETTE data []
                (size * size) ∅) as Hloop.
  cbn [length app] in Hloop. rewrite Hloop.
  destruct (cells_of Math_pow Math_cbrt PALETTE data) as [cs|] eqn:Hcs; [|reflexivity].
  destruct (cells_of_lookup _ _ _ data cs Hcs) as [Hcslen _].
  rewrite Hlen, Nat.mul_comm, Nat.div_mul in Hcslen by lia.
  rewrite Hcslen, Nat.sub_diag, app_nil_r. cbn [TEX_CACHE].
  destruct (renderTextureMosaic loadImage cs size (TEX_CACHE st)); reflexivity.
Qed.

(** Past the guards. *)
Lemma generate_ready (page : Page) (loadImage : string -> option Image) (size : nat)
    (data : list Z) (st : State) :
  Forall byte data -> length data = (4 * (size * size))%nat ->
  ready page PALETTE ->
  generate Math_pow Math_cbrt PALETTE page loadImage size data st
  = match cells_of Math_pow Math_cbrt PALETTE data with
    | TypeError =>
      (mkState (TEX_CACHE st) (LAST_COUNTS st) size (LAST_ASSIGN st), Caught)
    | Ok cs =>
      let r := renderTextureMosaic loadImage cs size (TEX_CACHE st) in
      (mkState r.2 (Some (foldl count_cell ∅ cs)) size (Some cs), Done r.1)
    end.
Proof.
  intros Hbytes Hlen (H1 & H2 & H3 & H4 & H5 & H6).
  rewrite generate_unfold by assumption. rewrite H1, H2, H5, H6. cbn [negb andb].
  rewrite decide_False by (destruct PALETTE; [congruence|discriminate]).
  rewrite decide_False by exact H4. reflexivity.
Qed.

Lemma classic_ready (page : Page) : ready page PALETTE \/ ~ ready page PALETTE.
Proof.
  unfold ready.
  destruct (IS_GENERATING page); [right; intros (? & _); discriminate|].
  destruct (BLOCKS_loaded page); [|right; intros (_ & ? & _); discriminate].
  destruct PALETTE as [|p l]; [right; intros (_ & _ & ? & _); congruence|].
  destruct (decide (str_or (elImg_src page) EmptyString = EmptyString)) as [E|E];
    [right; intros (_ & _ & _ & ? & _); contradiction|].
  destruct (outCanvas page); [|right; intros (_ & _ & _ & _ & ? & _); discriminate].
  destruct (outCtx page); [|right; intros (_ & _ & _ & _ & _ & ?); discriminate].
  left. repeat split; auto; discriminate.
Qed.

(** Short of the guards: the call returns at once, or with a status line,
    and the state is as it was. *)
Lemma generate_not_ready (page : Page) (loadImage : string -> option Image)
    (size : nat) (data : list Z) (st : State) :
  ~ ready page PALETTE ->
  exists o, generate Math_pow Math_cbrt PALETTE page loadImage size data st = (st, o) /\
    (o = Busy \/ exists msg, o = Status msg).
Proof.
  intros Hnot. unfold generate.
  destruct (IS_GENERATING page) eqn:H1; [eauto|].
  destruct (BLOCKS_loaded page) eqn:H2; cbn [negb]; [|eauto 6].
  destruct (decide (length PALETTE = 0%nat)) as [H3|H3]; [eauto 6|].
  destruct (decide (str_or (elImg_src page) EmptyString = EmptyString)) as [H4|H4];
    [eauto 6|].
  destruct (outCanvas page) eqn:H5; cbn [andb negb]; [|eauto 6].
  destruct (outCtx page) eqn:H6; cbn [andb negb]; [|eauto 6].
  exfalso. apply Hnot. unfold ready. repeat split; try assumption.
  intros ->. apply H3. reflexivity.
Qed.

(** What a pass that ends with a canvas has left. *)
Lemma generate_Done_inv (page : Page) (loadImage : string -> option Image) (size : nat)
    (data : list Z) (st st' : State) (canvas : list drawImage) :
  Forall byte data -> length data = (4 * (size * size))%nat ->
  generate Math_pow Math_cbrt PALETTE page loadImage size data st = (st', Done canvas) ->
  ready page PALETTE /\
  exists cs,
    cells_of Math_pow Math_cbrt PALETTE data = Ok cs /\
    length cs = (size * size)%nat /\
    LAST_ASSIGN st' = Some cs /\
    LAST_COUNTS st' = Some (foldl count_cell ∅ cs) /\
    canvas = (renderTextureMosaic loadImage cs size (TEX_CACHE st)).1 /\
    TEX_CACHE st' = (renderTextureMosaic loadImage cs size (TEX_CACHE st)).2.
Proof.
  intros Hbytes Hlen Hgen.
  assert (ready page PALETTE) as Hready.
  { destruct (classic_ready page) as [H|H]; [exact H|].
    destruct (generate_not_ready page loadImage size data st H) as (o & E & [->|[msg ->]]);
      rewrite E in Hgen; discriminate. }
  split; [exact Hready|]. rewrite generate_ready in Hgen by assumption.
  destruct (cells_of Math_pow Math_cbrt PALETTE data) as [cs|] eqn:Hcs; [|discriminate].
  cbv zeta in Hgen. injection Hgen as <- <-. exists cs.
  cbn [LAST_ASSIGN LAST_COUNTS TEX_CACHE].
  destruct (cells_of_lookup _ _ _ data cs Hcs) as [Hcslen _].
  rewrite Hlen, Nat.mul_comm, Nat.div_mul in Hcslen by lia. auto 10.
Qed.

(** For a palette none of whose ids is a name that plain objects inherit: a
    call over a [size * size] grid of pixels ends with a mosaic as soon as the
    guards pass and every opaque pixel finds a nearest block; and for every
    pass that ends with a mosaic, every value of the counts is a number, the
    sum of the counts plus the number of empty cells is [size * size], a cell
    is empty exactly when its pixel has alpha 0, each count is the number of
    cells that hold its id (a transparent pixel is in none), and nothing is
    drawn at the cell of a transparent pixel. *)
Theorem generate_counts_and_empty_cells (page : Page)
    (loadImage : string -> option Image) (size : nat) (data : list Z) (st : State) :
  Forall byte data ->
  length data = (4 * (size * size))%nat ->
  own_names PALETTE ->
  (ready page PALETTE ->
   (forall p r g b a, pixel data p = Some (r, g, b, a) -> a <> 0 ->
      findNearestBlock PALETTE (rgbToLab255 Math_pow Math_cbrt r g b) <> None) ->
   exists st' canvas,
     generate Math_pow Math_cbrt PALETTE page loadImage size data st
     = (st', Done canvas)) /\
  (forall st' canvas,
     generate Math_pow Math_cbrt PALETTE page loadImage size data st
     = (st', Done canvas) ->
     exists assign counts,
       LAST_ASSIGN st' = Some assign /\ LAST_COUNTS st' = Some counts /\
       length assign = (size * size)%nat /\
       numbers counts /\
       total counts + Z.of_nat (empty_cells assign) = Z.of_nat (size * size) /\
       (forall p r g b a, pixel data p = Some (r, g, b, a) ->
          (assign !! p = Some null <-> a = 0)) /\
       (forall id, count_of counts id = Z.of_nat (occurrences id assign)) /\
       (forall y x r g b, (y < size)%nat -> (x < size)%nat ->
          pixel data (y * size + x) = Some (r, g, b, 0) ->
          forall d, d ∈ canvas ->
            ~ (dx d = Z.of_nat x * TILE /\ dy d = Z.of_nat y * TILE))).
Proof.
  intros Hbytes Hlen Hown. split.
  - intros Hready Hnear. rewrite generate_ready by assumption.
    destruct (cells_of_total data Hnear) as [cs ->]. cbv zeta. eauto.
  - intros st' canvas Hgen.
    destruct (generate_Done_inv page loadImage size data st st' canvas Hbytes Hlen Hgen)
      as (_ & cs & Hcs & Hcslen & Hassign & Hcounts & Hcanvas & Htex).
    exists cs, (foldl count_cell ∅ cs).
    split; [exact Hassign|]. split; [exact Hcounts|]. split; [exact Hcslen|].
    assert (forall p r g b a, pixel data p = Some (r, g, b, a) ->
              (cs !! p = Some null <-> a = 0)) as Hnull.
    { intros p r g b a Hp.
      destruct (cells_of_lookup _ _ _ data cs Hcs) as [_ Hpix].
      destruct (Hpix p r g b a Hp) as (c & Hc & Hcell).
      rewrite Hc. rewrite <- (cell_of_null _ _ _ r g b a c Hcell).
      split; congruence. }
    pose proof (cells_of_own data cs Hown Hcs) as Hcells.
    destruct (total_count_cells cs ∅ (cells_of_written _ _ _ data cs Hcs) Hcells
                numbers_empty) as [Hnum Htotal].
    split; [exact Hnum|]. split; [|split; [exact Hnull|split]].
    + rewrite total_empty, Hcslen in Htotal. lia.
    + intros id. rewrite lookup_count_cells by (assumption || apply numbers_empty).
      unfold count_of. rewrite lookup_empty. reflexivity.
    + intros y x r g b Hy Hx Hp d Hd [Hdx Hdy]. subst canvas.
      apply canvas_inv in Hd as (y' & x' & _ & _ & Hd).
      apply draw_cell_inv in Hd as (id & Hcell & _ & _ & Hdx' & Hdy' & _).
      unfold TILE in *.
      assert (x' = x) as -> by lia. assert (y' = y) as -> by lia.
      rewrite (proj2 (Hnull _ _ _ _ _ Hp) eq_refl) in Hcell. discriminate.
Qed.

(** C3, as the code has it.  For a palette none of whose ids is a name that
    plain objects inherit, and every pass that ends with a mosaic, the sum of
    the counts is [size * size] less the number of empty cells: a cell whose
    id does not resolve to a tile image stays counted.  What the unresolved
    cells are taken from is the number of tiles drawn. *)
Theorem generate_counts_keep_unresolved (page : Page)
    (loadImage : string -> option Image) (size : nat) (data : list Z)
    (st st' : State) (canvas : list drawImage) :
  Forall byte data ->
  length data = (4 * (size * size))%nat ->
  own_names PALETTE ->
  generate Math_pow Math_cbrt PALETTE page loadImage size data st = (st', Done canvas) ->
  exists assign counts,
    LAST_ASSIGN st' = Some assign /\ LAST_COUNTS st' = Some counts /\
    numbers counts /\
    total counts = Z.of_nat (size * size) - Z.of_nat (empty_cells assign) /\
    Z.of_nat (length canvas)
    = Z.of_nat (size * size) - Z.of_nat (empty_cells assign)
      - Z.of_nat (unresolved_cells (TEX_CACHE st') assign).
Proof.
  intros Hbytes Hlen Hown Hgen.
  destruct (generate_Done_inv page loadImage size data st st' canvas Hbytes Hlen Hgen)
    as (_ & cs & Hcs & Hcslen & Hassign & Hcounts & Hcanvas & Htex).
  exists cs, (foldl count_cell ∅ cs).
  split; [exact Hassign|]. split; [exact Hcounts|].
  pose proof (cells_of_written _ _ _ data cs Hcs) as Hwritten.
  destruct (total_count_cells cs ∅ Hwritten (cells_of_own data cs Hown Hcs)
              numbers_empty) as [Hnum Htotal].
  split; [exact Hnum|].
  rewrite total_empty, Hcslen in Htotal. split; [lia|].
  pose proof (canvas_length loadImage cs size (TEX_CACHE st) Hcslen) as Hdrawn.
  cbv zeta in Hdrawn. rewrite <- Hcanvas, <- Htex in Hdrawn.
  pose proof (cells_partition (TEX_CACHE st') cs Hwritten) as Hpart.
  rewrite Hcslen in Hpart. lia.
Qed.

End Mosaic.

Lemma greys_own_names : own_names Sample.greys.
Proof. repeat constructor. Qed.

Lemma page_ready : ready Sample.page Sample.greys.
Proof. unfold ready. repeat split; discriminate. Qed.

(** The sample pass: three opaque pixels, one transparent, no texture loads. *)
Lemma generate_counts_and_empty_cells_witness :
  exists assign counts,
    assign = [str "coal"; str "coal"; null; str "coal"] /\
    counts = {[ "coal"%string := num 3 ]} /\
    total counts + Z.of_nat (empty_cells assign) = Z.of_nat (2 * 2).
Proof.
  destruct (generate_counts_and_empty_cells Sample.no_pow Sample.no_cbrt
              Sample.greys Sample.page (fun _ => None) 2%nat Sample.pixels
              (mkState ∅ None 128 None)) as [_ H].
  - unfold byte. repeat constructor; lia.
  - reflexivity.
  - exact greys_own_names.
  - destruct (H (mkState ∅ (Some {[ "coal"%string := num 3 ]}) 2
                   (Some [str "coal"; str "coal"; null; str "coal"])) [])
      as (assign & counts & Hassign & Hcounts & _ & _ & Htotal & _).
    + vm_compute. reflexivity.
    + cbn [LAST_ASSIGN LAST_COUNTS] in Hassign, Hcounts.
      injection Hassign as <-. injection Hcounts as <-.
      eexists _, _. split; [reflexivity|]. split; [reflexivity|]. exact Htotal.
Defined.

(** C2, where the code departs from it.  On the palette whose entry has the
    id [__proto__], the three opaque pixels of the sample are assigned that
    id, and the counts stay empty: each read of [counts["__proto__"]] finds
    the inherited object and each write is dropped.  The counts total 0, and
    with the one empty cell that makes 1, not 4. *)
Lemma generate_counts_drop_proto :
  let st' := (generate Sample.no_pow Sample.no_cbrt Sample.proto Sample.page
                (fun _ => None) 2 Sample.pixels (mkState ∅ None 128 None)).1 in
  LAST_ASSIGN st'
  = Some [str "__proto__"; str "__proto__"; null; str "__proto__"] /\
  LAST_COUNTS st' = Some ∅ /\
  forall assign counts,
    LAST_ASSIGN st' = Some assign -> LAST_COUNTS st' = Some counts ->
    total counts + Z.of_nat (empty_cells assign) = 1 /\
    total counts + Z.of_nat (empty_cells assign) <> Z.of_nat (2 * 2).
Proof.
  assert ((generate Sample.no_pow Sample.no_cbrt Sample.proto Sample.page
             (fun _ => None) 2 Sample.pixels (mkState ∅ None 128 None)).1
          = mkState ∅ (Some ∅) 2
              (Some [str "__proto__"; str "__proto__"; null; str "__proto__"])) as E
    by (vm_compute; reflexivity).
  cbv zeta. rewrite E. cbn [LAST_ASSIGN LAST_COUNTS].
  split; [reflexivity|]. split; [reflexivity|].
  intros assign counts [= <-] [= <-]. vm_compute. split; [reflexivity|discriminate].
Qed.

(** On the sample pass no texture loads: the three cells that hold an id are
    unresolved, and the counts still total 3, not [4 - 1 - 3]. *)
Lemma generate_counts_less_unresolved_counterexample :
  let st' := (generate Sample.no_pow Sample.no_cbrt Sample.greys Sample.page
                (fun _ => None) 2 Sample.pixels (mkState ∅ None 128 None)).1 in
  exists assign counts,
    LAST_ASSIGN st' = Some assign /\ LAST_COUNTS st' = Some counts /\
    empty_cells assign = 1%nat /\
    unresolved_cells (TEX_CACHE st') assign = 3%nat /\
    total counts = 3 /\
    total counts <> Z.of_nat (2 * 2) - Z.of_nat (empty_cells assign)
                    - Z.of_nat (unresolved_cells (TEX_CACHE st') assign).
Proof.
  exists [str "coal"; str "coal"; null; str "coal"], {[ "coal"%string := num 3 ]}.
  vm_compute. repeat split; discriminate.
Qed.

Lemma generate_counts_keep_unresolved_witness :
  exists assign counts,
    assign = [str "coal"; str "coal"; null; str "coal"] /\
    counts = {[ "coal"%string := num 3 ]} /\
    total counts = Z.of_nat (2 * 2) - Z.of_nat (empty_cells assign) /\
    Z.of_nat (@length drawImage [])
    = Z.of_nat (2 * 2) - Z.of_nat (empty_cells assign)
      - Z.of_nat (unresolved_cells ∅ assign).
Proof.
  destruct (generate_counts_keep_unresolved Sample.no_pow Sample.no_cbrt
              Sample.greys Sample.page (fun _ => None) 2%nat Sample.pixels
              (mkState ∅ None 128 None)
              (mkState ∅ (Some {[ "coal"%string := num 3 ]}) 2
                 (Some [str "coal"; str "coal"; null; str "coal"])) [])
    as (assign & counts & Hassign & Hcounts & _ & Htotal & Hdrawn).
  - unfold byte. repeat constructor; lia.
  - reflexivity.
  - exact greys_own_names.
  - vm_compute. reflexivity.
  - cbn [LAST_ASSIGN LAST_COUNTS TEX_CACHE] in *.
    injection Hassign as <-. injection Hcounts as <-.
    eexists _, _. split; [reflexivity|]. split; [reflexivity|].
    split; [exact Htotal|exact Hdrawn].
Defined.

End Mosaic_facts.

(** ** The gradient tool *)
Module Gradient_facts.
Import Gradient Reference.

(** C4. The preference penalty is the sum of its terms: 6 for a block that is
    not a building block when building blocks are preferred, 5 for a plantlike
    block, 5 for redstone, 4 for an ore, 4 for the tag transparent, 4 for the
    tag noisy, 8 for the tag creative-only unless the mode is ["creative"];
    the terms add up, and in the mode ["anything"] the penalty is 0. *)
Theorem preferencePenalty_terms (block : Block) (mode : string)
    (preferBuilding : bool) :
  preferencePenalty block mode preferBuilding
  = if decide (mode = "anything"%string) then 0
    else penalty_terms block mode preferBuilding.
Proof.
  unfold preferencePenalty, penalty_terms, term.
  destruct (decide (mode = "anything"%string)); [reflexivity|].
  destruct (default no_flags (tag_flags block)) as [fb bb pl rs oo].
  destruct (default no_tags (Catalog.tags block)) as [tr no cr].
  cbn [building_block plantlike redstone ore transparent noisy creative_only].
  destruct (bool_decide (mode = "creative"%string));
    destruct preferBuilding, bb, pl, rs, oo, tr, no, cr; reflexivity.
Qed.

Section Picker.
Variable BLOCKS : gmap string Block.
Variable CANDIDATE_IDS : list string.
Variable elMode_value : string.
Variable elPreferBuilding_checked : bool.

Local Abbreviation scan :=
  (pickTransitions_scan BLOCKS elMode_value elPreferBuilding_checked).
Local Abbreviation loop :=
  (pickTransitions_loop BLOCKS CANDIDATE_IDS elMode_value elPreferBuilding_checked).

(** The id the scan ends with is the one it started with or a candidate,
    which was not in use if duplicates are avoided. *)
Lemma scan_pick (avoidDupes : bool) (T : Lab) (used : gset string) (ids : list string) :
  forall bestId bestScore id,
    scan avoidDupes T used ids bestId bestScore = Ok (Some id) ->
    bestId = Some id \/ (id ∈ ids /\ (avoidDupes = true -> id ∉ used)).
Proof.
  induction ids as [|id' ids IH]; intros bestId bestScore id; cbn [pickTransitions_scan].
  - intros [= ->]. left. reflexivity.
  - destruct (avoidDupes && bool_decide (id' ∈ used)) eqn:Hskip.
    + intros H. destruct (IH _ _ _ H) as [?|[? ?]]; [auto|].
      right. split; [apply list_elem_of_further; assumption|assumption].
    + destruct (BLOCKS !! id') as [block|]; [|discriminate].
      destruct (avg_lab block) as [lab|]; [|discriminate]. cbv zeta.
      destruct (F64.lt _ bestScore); intros H;
        (destruct (IH _ _ _ H) as [E|[? ?]];
         [|right; split; [apply list_elem_of_further; assumption|assumption]]).
      * injection E as ->. right. split; [apply list_elem_of_here|].
        intros ->. simpl in Hskip. apply bool_decide_eq_false in Hskip. exact Hskip.
      * left. exact E.
Qed.

(** With duplicates avoided and every candidate in use, the scan consults no
    candidate and picks none. *)
Lemma scan_all_used (T : Lab) (used : gset string) (ids : list string) :
  (forall id, id ∈ ids -> id ∈ used) ->
  forall bestId bestScore, scan true T used ids bestId bestScore = Ok bestId.
Proof.
  induction ids as [|id ids IH]; intros Hused bestId bestScore;
    cbn [pickTransitions_scan]; [reflexivity|].
  rewrite bool_decide_eq_true_2 by (apply Hused, list_elem_of_here).
  cbn [andb]. apply IH. intros id' Hid'. apply Hused, list_elem_of_further, Hid'.
Qed.

(** The scan throws only on a candidate without colour. *)
Lemma scan_total (avoidDupes : bool) (T : Lab) (used : gset string) (ids : list string) :
  (forall id, id ∈ ids -> is_Some (avg_lab_of BLOCKS id)) ->
  forall bestId bestScore,
    exists r, scan avoidDupes T used ids bestId bestScore = Ok r.
Proof.
  induction ids as [|id ids IH]; intros Hlab bestId bestScore;
    cbn [pickTransitions_scan]; [eauto|].
  assert (forall id', id' ∈ ids -> is_Some (avg_lab_of BLOCKS id')) as Hlab'
    by (intros; apply Hlab, list_elem_of_further; assumption).
  destruct (avoidDupes && bool_decide (id ∈ used)); [apply IH, Hlab'|].
  destruct (Hlab id (list_elem_of_here _ _)) as [lab Hid]. unfold avg_lab_of in Hid.
  destruct (BLOCKS !! id) as [block|]; [|discriminate]. rewrite Hid. cbv zeta.
  destruct (F64.lt _ bestScore); apply IH, Hlab'.
Qed.

(** The picks the loop adds: at most one per target, each a candidate not in
    use before, none twice. *)
Lemma loop_picks (targets : list Lab) :
  forall used picks out,
    loop true targets used picks = Ok out ->
    exists new, out = picks ++ new /\
      (length new <= length targets)%nat /\ NoDup new /\
      forall id, id ∈ new -> id ∈ CANDIDATE_IDS /\ id ∉ used.
Proof.
  induction targets as [|T targets IH]; intros used picks out; cbn [pickTransitions_loop].
  - intros [= <-]. exists []. rewrite app_nil_r.
    split; [reflexivity|]. split; [reflexivity|]. split; [apply NoDup_nil_2|].
    intros x Hx. apply elem_of_nil in Hx. contradiction.
  - destruct (scan true T used CANDIDATE_IDS None F64.Infinity) as [[bestId|]|] eqn:Hscan;
      [| |discriminate].
    + destruct (decide (bestId = EmptyString)).
      * intros H. destruct (IH _ _ _ H) as (new & -> & Hlen & Hnd & Hin).
        exists new. split; [reflexivity|]. split; [simpl; lia|]. split; assumption.
      * intros H. destruct (IH _ _ _ H) as (new & -> & Hlen & Hnd & Hin).
        apply scan_pick in Hscan as [[=]|[Hcand Hfree]].
        exists (bestId :: new). rewrite <- app_assoc.
        split; [reflexivity|]. split; [simpl; lia|]. split.
        -- apply NoDup_cons. split; [|exact Hnd].
           intros Hb. destruct (Hin _ Hb) as [_ Hb']. apply Hb'.
           apply elem_of_union. left. apply elem_of_singleton. reflexivity.
        -- intros x Hx. apply elem_of_cons in Hx as [->|Hx].
           ++ split; [exact Hcand|apply Hfree; reflexivity].
           ++ apply Hin in Hx as [Hx1 Hx2]. split; [exact Hx1|].
              intros Hu. apply Hx2. apply elem_of_union. right. exact Hu.
    + intros H. destruct (IH _ _ _ H) as (new & -> & Hlen & Hnd & Hin).
      exists new. split; [reflexivity|]. split; [simpl; lia|]. split; assumption.
Qed.

(** Once every candidate is in use, the remaining targets are all skipped:
    no error, and nothing added to the picks. *)
Lemma loop_all_used (targets : list Lab) (used : gset string) (picks : list string) :
  (forall id, id ∈ CANDIDATE_IDS -> id ∈ used) ->
  loop true targets used picks = Ok picks.
Proof.
  intros Hused. induction targets as [|T targets IH]; cbn [pickTransitions_loop];
    [reflexivity|].
  rewrite scan_all_used by exact Hused. exact IH.
Qed.

Lemma loop_total (avoidDupes : bool) (targets : list Lab) :
  (forall id, id ∈ CANDIDATE_IDS -> is_Some (avg_lab_of BLOCKS id)) ->
  forall used picks, exists out, loop avoidDupes targets used picks = Ok out.
Proof.
  intros Hlab. induction targets as [|T targets IH]; intros used picks;
    cbn [pickTransitions_loop]; [eauto|].
  destruct (scan_total avoidDupes T used CANDIDATE_IDS Hlab None F64.Infinity)
    as [[bestId|] ->]; [|apply IH].
  destruct (decide (bestId = EmptyString)); apply IH.
Qed.

Lemma targets_of_length (A B : Lab) (n : Z) :
  length (targets_of A B n) = Z.to_nat n.
Proof. unfold targets_of. rewrite length_map, length_seq. reflexivity. Qed.

(** With [avoidDupes] set, when the call returns, the picks are at most [n],
    none is [idA] or [idB], none occurs twice, and each is a candidate; the
    call returns (no error) whenever every candidate has a colour; and once no
    candidate is left, every further target is skipped: it raises no error and
    adds nothing to the picks. *)
Theorem pickTransitions_avoidDupes (idA idB : string) (n : Z) :
  (forall picks,
     pickTransitions BLOCKS CANDIDATE_IDS elMode_value elPreferBuilding_checked
       idA idB n true = Ok picks ->
     (length picks <= Z.to_nat n)%nat /\
     (0 <= n -> Z.of_nat (length picks) <= n) /\
     NoDup picks /\ (idA ∉ picks) /\ (idB ∉ picks) /\
     (forall id, id ∈ picks -> id ∈ CANDIDATE_IDS)) /\
  ((forall id, id ∈ CANDIDATE_IDS -> is_Some (avg_lab_of BLOCKS id)) ->
   exists picks,
     pickTransitions BLOCKS CANDIDATE_IDS elMode_value elPreferBuilding_checked
       idA idB n true = Ok picks) /\
  (forall targets used picks,
     (forall id, id ∈ CANDIDATE_IDS -> id ∈ used) ->
     loop true targets used picks = Ok picks).
Proof.
  split; [|split].
  - intros picks. unfold pickTransitions.
    destruct (avg_lab_of BLOCKS idA) as [A|];
      [destruct (avg_lab_of BLOCKS idB) as [B|]|].
    + intros H. apply loop_picks in H as (new & -> & Hlen & Hnd & Hin).
      rewrite targets_of_length in Hlen. cbn [app].
      split; [exact Hlen|]. split; [lia|]. split; [exact Hnd|].
      split; [|split].
      * intros HA. apply Hin in HA as [_ HA]. apply HA.
        apply elem_of_union. left. apply elem_of_singleton. reflexivity.
      * intros HB. apply Hin in HB as [_ HB]. apply HB.
        apply elem_of_union. right. apply elem_of_singleton. reflexivity.
      * intros id Hid. apply Hin, Hid.
    + intros [= <-]. simpl. repeat split; try lia; try apply NoDup_nil_2;
        try (intros []%elem_of_nil). intros id []%elem_of_nil.
    + intros [= <-]. simpl. repeat split; try lia; try apply NoDup_nil_2;
        try (intros []%elem_of_nil). intros id []%elem_of_nil.
  - intros Hlab. unfold pickTransitions.
    destruct (avg_lab_of BLOCKS idA) as [A|]; [|eauto].
    destruct (avg_lab_of BLOCKS idB) as [B|]; [|eauto].
    apply loop_total, Hlab.
  - intros targets used picks Hused. apply loop_all_used, Hused.
Qed.

(** C10. When an endpoint is missing from the catalog, or has no average
    colour, the picker returns the empty sequence, whatever [n], the
    candidates and the settings are: no candidate is consulted, so none can
    make the call throw. *)
Theorem pickTransitions_missing_endpoint (idA idB : string) (n : Z)
    (avoidDupes : bool) :
  BLOCKS !! idA = None \/
  (exists block, BLOCKS !! idA = Some block /\ avg_lab block = None) \/
  BLOCKS !! idB = None \/
  (exists block, BLOCKS !! idB = Some block /\ avg_lab block = None) ->
  pickTransitions BLOCKS CANDIDATE_IDS elMode_value elPreferBuilding_checked
    idA idB n avoidDupes = Ok [].
Proof.
  unfold pickTransitions, avg_lab_of.
  intros [HA|[(block & HA & Hlab)|[HB|(block & HB & Hlab)]]].
  - rewrite HA. reflexivity.
  - rewrite HA, Hlab. reflexivity.
  - rewrite HB. destruct (BLOCKS !! idA) as [b|]; [|reflexivity].
    destruct (avg_lab b); reflexivity.
  - rewrite HB, Hlab. destruct (BLOCKS !! idA) as [b|]; [|reflexivity].
    destruct (avg_lab b); reflexivity.
Qed.

End Picker.

(** Six targets between ["stone"] and ["snow"] with four other candidates:
    four picks, the last two targets skipped. *)
Lemma pickTransitions_avoidDupes_witness :
  pickTransitions Sample.blocks Sample.candidates "building" true
    "stone" "snow" 6 true
  = Ok ["glass"; "coal_ore"; "bedrock"; "torch"]%string /\
  ((length ["glass"; "coal_ore"; "bedrock"; "torch"]%string <= Z.to_nat 6)%nat /\
   NoDup ["glass"; "coal_ore"; "bedrock"; "torch"]%string /\
   ("stone"%string ∉ ["glass"; "coal_ore"; "bedrock"; "torch"]%string) /\
   ("snow"%string ∉ ["glass"; "coal_ore"; "bedrock"; "torch"]%string)).
Proof.
  assert (pickTransitions Sample.blocks Sample.candidates "building" true
            "stone" "snow" 6 true
          = Ok ["glass"; "coal_ore"; "bedrock"; "torch"]%string) as E
    by (vm_compute; reflexivity).
  split; [exact E|].
  destruct (pickTransitions_avoidDupes Sample.blocks Sample.candidates "building"
              true "stone" "snow" 6) as [H _].
  destruct (H _ E) as (Hlen & _ & Hnd & HA & HB & _). auto.
Defined.

(** The endpoint ["air"] has no colour: the result is empty although the
    candidate ["ghost"] is not in the catalog, a candidate on which the call
    throws when both endpoints have a colour. *)
Lemma pickTransitions_missing_endpoint_witness :
  pickTransitions Sample.blocks ("ghost"%string :: Sample.candidates) "building" true
    "air" "snow" 3 false = Ok [] /\
  pickTransitions Sample.blocks ("ghost"%string :: Sample.candidates) "building" true
    "stone" "snow" 3 false = TypeError.
Proof.
  split; [|vm_compute; reflexivity].
  apply pickTransitions_missing_endpoint. right. left.
  exists (mkBlock (Some "Air"%string) None None None).
  split; [vm_compute; reflexivity|reflexivity].
Defined.

End Gradient_facts.

(** ** How a pass ends, and what its cells hold *)
Module Pass_facts.
Import MapArt Reference Spec Generate_facts Render_facts Mosaic_facts.

Section Pass.
Variable Math_pow : float -> float -> float.
Variable Math_cbrt : float -> float.
Variable PALETTE : list PaletteEntry.

Local Abbreviation cells_of := (Spec.cells_of Math_pow Math_cbrt PALETTE).
Local Abbreviation nearest :=
  (fun r g b => findNearestBlock PALETTE (rgbToLab255 Math_pow Math_cbrt r g b)).

(** The pass throws exactly when some opaque pixel finds no nearest block. *)
Lemma cells_of_TypeError (data : list Z) :
  cells_of data = TypeError <->
  exists p r g b a, pixel data p = Some (r, g, b, a) /\ a <> 0 /\ nearest r g b = None.
Proof.
  split.
  - induction data as [l Hl|r g b a data IH] using Cache_facts.list_ind4.
    + destruct l as [|? [|? [|? [|? ?]]]]; try (simpl in Hl; lia);
        cbn [Spec.cells_of]; discriminate.
    + cbn [Spec.cells_of]. unfold Spec.cell_of. destruct (decide (a = 0)) as [Ha|Ha].
      * destruct (Spec.cells_of Math_pow Math_cbrt PALETTE data); [discriminate|].
        intros _. destruct (IH eq_refl) as (p & r' & g' & b' & a' & Hp & H).
        exists (S p), r', g', b', a'. rewrite pixel_cons. auto.
      * destruct (findNearestBlock PALETTE _) as [pick|] eqn:Hn.
        -- destruct (Spec.cells_of Math_pow Math_cbrt PALETTE data); [discriminate|].
           intros _. destruct (IH eq_refl) as (p & r' & g' & b' & a' & Hp & H).
           exists (S p), r', g', b', a'. rewrite pixel_cons. auto.
        -- intros _. exists 0%nat, r, g, b, a. auto.
  - intros (p & r & g & b & a & Hp & Ha & Hn).
    destruct (cells_of data) as [cs|] eqn:Hcs; [|reflexivity].
    destruct (cells_of_lookup _ _ _ data cs Hcs) as [_ Hpix].
    destruct (Hpix p r g b a Hp) as (c & _ & Hc).
    unfold Spec.cell_of in Hc. rewrite decide_False in Hc by exact Ha.
    rewrite Hn in Hc. discriminate.
Qed.

(** How a call of [generate] over the bytes of a [size * size] image ends.
    It returns at once exactly when a pass is running.  It ends with a status
    line and nothing computed exactly when a guard stops it, each guard with
    its own line, in the order of the source: the catalog is not loaded, the
    palette is empty, no image is set, the canvas is missing; the state is
    then as it was.  It ends with the exception of [pick.id] caught exactly
    when the guards pass and some opaque pixel finds no nearest block; with a
    mosaic otherwise.  A call that ends without a mosaic leaves the last
    counts, the last assignment and the texture cache untouched. *)
Theorem generate_outcome (page : Page) (loadImage : string -> option Image)
    (size : nat) (data : list Z) (st : State) :
  Forall byte data ->
  length data = (4 * (size * size))%nat ->
  let r := generate Math_pow Math_cbrt PALETTE page loadImage size data st in
  (r.2 = Busy <-> IS_GENERATING page = true) /\
  (r.2 = Status "Blocks not loaded yet." <->
   IS_GENERATING page = false /\ BLOCKS_loaded page = false) /\
  (r.2 = Status "Palette is empty (adjust filters or textures_top is missing files)." <->
   IS_GENERATING page = false /\ BLOCKS_loaded page = true /\ PALETTE = []) /\
  (r.2 = Status "Upload an image first." <->
   IS_GENERATING page = false /\ BLOCKS_loaded page = true /\ PALETTE <> [] /\
   str_or (elImg_src page) EmptyString = EmptyString) /\
  (r.2 = Status "Missing output canvas (check HTML IDs)." <->
   IS_GENERATING page = false /\ BLOCKS_loaded page = true /\ PALETTE <> [] /\
   str_or (elImg_src page) EmptyString <> EmptyString /\
   (outCanvas page = false \/ outCtx page = false)) /\
  ((r.2 = Busy \/ exists msg, r.2 = Status msg) <-> ~ ready page PALETTE) /\
  (r.2 = Caught <->
   ready page PALETTE /\
   exists p r g b a, pixel data p = Some (r, g, b, a) /\ a <> 0 /\ nearest r g b = None) /\
  (~ ready page PALETTE -> r.1 = st) /\
  ((forall canvas, r.2 <> Done canvas) ->
   LAST_COUNTS r.1 = LAST_COUNTS st /\ LAST_ASSIGN r.1 = LAST_ASSIGN st /\
   TEX_CACHE r.1 = TEX_CACHE st).
Proof.
  intros Hbytes Hlen r. subst r. rewrite generate_unfold by assumption.
  unfold ready. destruct page as [busy loaded src cv cx].
  cbn [IS_GENERATING BLOCKS_loaded elImg_src outCanvas outCtx].
  pose proof (cells_of_TypeError data) as Hthrow.
  assert (PALETTE = [] <-> length PALETTE = 0%nat) as Hnil
    by (split; [intros ->; reflexivity|apply length_zero_iff_nil]).
  destruct busy; cbn [negb fst snd].
  { solve [intuition (discriminate || congruence || eauto)]. }
  destruct loaded; cbn [negb fst snd].
  2:{ solve [intuition (discriminate || congruence || eauto)]. }
  destruct (decide (length PALETTE = 0%nat)) as [He|He]; cbn [fst snd].
  { solve [intuition (discriminate || congruence || eauto)]. }
  destruct (decide (str_or src EmptyString = EmptyString)) as [Hs|Hs]; cbn [fst snd].
  { solve [intuition (discriminate || congruence || eauto)]. }
  destruct cv; cbn [andb negb fst snd].
  2:{ solve [intuition (discriminate || congruence || eauto)]. }
  destruct cx; cbn [andb negb fst snd].
  2:{ solve [intuition (discriminate || congruence || eauto)]. }
  destruct (Spec.cells_of Math_pow Math_cbrt PALETTE data) as [cs|];
    cbv zeta; cbn [fst snd];
    repeat split; intros; try discriminate;
      try solve [intuition (discriminate || congruence || eauto)];
      try (exfalso; solve [intuition (discriminate || congruence || eauto)]);
      try match goal with
          | H : _ \/ (exists _, _) |- _ => destruct H as [H|[? H]]; discriminate
          end.
Qed.

(** In a mosaic, the cell of an opaque pixel holds the id of the palette
    entry nearest to the pixel's colour.  Every key of the counts is the id of
    a palette entry and is not [__proto__]; its value is a positive number
    when the id is not a name that plain objects inherit, and otherwise the
    string made of the function inherited under that id. *)
Theorem generate_cells_from_palette (page : Page) (loadImage : string -> option Image)
    (size : nat) (data : list Z) (st st' : State) (canvas : list drawImage) :
  Forall byte data ->
  length data = (4 * (size * size))%nat ->
  generate Math_pow Math_cbrt PALETTE page loadImage size data st = (st', Done canvas) ->
  exists assign counts,
    LAST_ASSIGN st' = Some assign /\ LAST_COUNTS st' = Some counts /\
    (forall p r g b a, pixel data p = Some (r, g, b, a) -> a <> 0 ->
       exists pick, nearest r g b = Some pick /\ pick ∈ PALETTE /\
         assign !! p = Some (str (id pick))) /\
    (forall i v, counts !! i = Some v ->
       (exists pick, pick ∈ PALETTE /\ id pick = i) /\
       i <> "__proto__"%string /\
       match v with
       | num n => 0 < n /\ JS.inherited i = false
       | text k ones => k = i /\ JS.inherited i = true /\ (0 < ones)%nat
       end).
Proof.
  intros Hbytes Hlen Hgen.
  destruct (generate_Done_inv _ _ _ page loadImage size data st st' canvas Hbytes Hlen Hgen)
    as (_ & cs & Hcs & Hcslen & Hassign & Hcounts & _ & _).
  exists cs, (foldl count_cell ∅ cs).
  split; [exact Hassign|]. split; [exact Hcounts|].
  destruct (cells_of_lookup _ _ _ data cs Hcs) as [_ Hpix].
  split.
  - intros p r g b a Hp Ha. destruct (Hpix p r g b a Hp) as (c & Hc & Hcell).
    unfold Spec.cell_of in Hcell. rewrite decide_False in Hcell by exact Ha.
    destruct (findNearestBlock PALETTE _) as [pick|] eqn:Hn; [|discriminate].
    injection Hcell as <-. exists pick.
    split; [reflexivity|].
    split; [eapply Matching_facts.findNearestBlock_elem; exact Hn|exact Hc].
  - assert (well_kept (∅ : gmap string count)) as Hw0
      by (intros i v H; rewrite lookup_empty in H; discriminate).
    destruct (well_kept_count_cells cs ∅ Hw0) as [Hw Hkeys].
    intros i v Hi. destruct (Hw i v Hi) as [Hp Hv].
    split; [|split; [exact Hp|exact Hv]].
    destruct (Hkeys i (ex_intro _ v Hi)) as [[? H]|Hin];
      [rewrite lookup_empty in H; discriminate|].
    eapply cells_of_palette; eauto.
Qed.

End Pass.

(** On the palette [far] the first pixel of the sample finds no nearest
    block: the pass ends in the caught exception. *)
Lemma generate_outcome_witness :
  (generate Sample.no_pow Sample.no_cbrt Sample.far Sample.page (fun _ => None) 2
     Sample.pixels (mkState ∅ None 128 None)).2 = Caught.
Proof.
  destruct (generate_outcome Sample.no_pow Sample.no_cbrt Sample.far Sample.page
              (fun _ => None) 2%nat Sample.pixels (mkState ∅ None 128 None))
    as (_ & _ & _ & _ & _ & _ & [_ H] & _).
  - unfold byte. repeat constructor; lia.
  - reflexivity.
  - apply H. split; [unfold ready; repeat split; discriminate|].
    exists 0%nat, 10, 10, 10, 255.
    split; [reflexivity|]. split; [lia|]. vm_compute. reflexivity.
Defined.

(** The sample pass on the three greys: the one key of the counts, ["coal"],
    is the id of a palette entry. *)
Lemma generate_cells_from_palette_witness :
  exists pick, pick ∈ Sample.greys /\ id pick = "coal"%string.
Proof.
  destruct (generate_cells_from_palette Sample.no_pow Sample.no_cbrt Sample.greys
              Sample.page (fun _ => None) 2%nat Sample.pixels (mkState ∅ None 128 None)
              (mkState ∅ (Some {[ "coal"%string := num 3 ]}) 2
                 (Some [str "coal"; str "coal"; null; str "coal"])) [])
    as (assign & counts & _ & Hcounts & _ & Hkeys).
  - unfold byte. repeat constructor; lia.
  - reflexivity.
  - vm_compute. reflexivity.
  - cbn [LAST_COUNTS] in Hcounts. injection Hcounts as <-.
    destruct (Hkeys "coal"%string (num 3)) as [H _]; [vm_compute; reflexivity|exact H].
Defined.

End Pass_facts.

(** ** The canvas and the texture cache *)
Module Canvas_facts.
Import MapArt Reference Render_facts.

Lemma flat_map_bind {A B : Type} (f : A -> list B) (l : list A) :
  flat_map f l = l ≫= f.
Proof. induction l as [|a l IH]; [reflexivity|]. simpl. rewrite IH. reflexivity. Qed.

Lemma map_flat_map {A B C : Type} (g : B -> C) (f : A -> list B) (l : list A) :
  map g (flat_map f l) = flat_map (fun a => map g (f a)) l.
Proof.
  induction l as [|a l IH]; [reflexivity|]. simpl. rewrite map_app, IH. reflexivity.
Qed.

(** The body of the loops draws nothing or one tile, the whole texture scaled
    to the tile of the cell. *)
Lemma draw_cell_cases (assign : list cell) (TEX : gmap string Image) (y x p : nat) :
  draw_cell assign TEX y x p = [] \/
  exists id t, assign !! p = Some (str id) /\ id <> EmptyString /\ TEX !! id = Some t /\
    draw_cell assign TEX y x p
    = [mkDraw t 0 0 (width t) (height t) (Z.of_nat x * TILE) (Z.of_nat y * TILE) TILE TILE].
Proof.
  unfold draw_cell. destruct (assign !! p) as [[| |id]|]; auto.
  unfold truthy. destruct (decide (id = EmptyString)); auto.
  destruct (TEX !! id) as [t|] eqn:E; auto. right. exists id, t. auto.
Qed.

Lemma draw_cell_pos (assign : list cell) (TEX : gmap string Image) (y x p : nat) q :
  q ∈ map pos (draw_cell assign TEX y x p) ->
  q = (Z.of_nat x * TILE, Z.of_nat y * TILE).
Proof.
  destruct (draw_cell_cases assign TEX y x p) as [->|(id & t & _ & _ & _ & ->)].
  - intros H. apply elem_of_nil in H. contradiction.
  - cbn [map pos dx dy]. intros H. apply list_elem_of_singleton in H. exact H.
Qed.

Lemma draw_cell_NoDup (assign : list cell) (TEX : gmap string Image) (y x p : nat) :
  NoDup (map pos (draw_cell assign TEX y x p)).
Proof.
  destruct (draw_cell_cases assign TEX y x p) as [->|(id & t & _ & _ & _ & ->)].
  - apply NoDup_nil_2.
  - apply NoDup_singleton.
Qed.

(** Every tile of the canvas is the whole texture of a cell that holds a
    non-empty id with a texture in the cache, scaled to the 16 x 16 tile of
    that cell, inside the [size * TILE] square canvas; and no two tiles land
    at the same place. *)
Theorem renderTextureMosaic_tiles (loadImage : string -> option Image)
    (assign : list cell) (size : nat) (TEX : gmap string Image) :
  let r := renderTextureMosaic loadImage assign size TEX in
  (forall d, d ∈ r.1 ->
     exists y x id, (y < size)%nat /\ (x < size)%nat /\
       assign !! (y * size + x)%nat = Some (str id) /\ id <> EmptyString /\
       r.2 !! id = Some (tex d) /\
       sx d = 0 /\ sy d = 0 /\ sw d = width (tex d) /\ sh d = height (tex d) /\
       dx d = Z.of_nat x * TILE /\ dy d = Z.of_nat y * TILE /\
       dw d = TILE /\ dh d = TILE /\
       0 <= dx d /\ dx d + dw d <= Z.of_nat size * TILE /\
       0 <= dy d /\ dy d + dh d <= Z.of_nat size * TILE) /\
  NoDup (map pos r.1).
Proof.
  intros r. split.
  - intros d Hd.
    destruct (canvas_inv loadImage assign size TEX d Hd) as (y & x & Hy & Hx & Hd').
    clear Hd. rename Hd' into Hd. fold r in Hd.
    destruct (draw_cell_cases assign r.2 y x (y * size + x))
      as [E|(id & t & Hcell & Hid & Htex & E)]; rewrite E in Hd.
    + apply elem_of_nil in Hd. contradiction.
    + apply list_elem_of_singleton in Hd. subst d. exists y, x, id.
      cbn [tex sx sy sw sh dx dy dw dh]. unfold TILE.
      repeat (split; [first [assumption|reflexivity|lia]|]). lia.
  - subst r. unfold renderTextureMosaic. cbn [fst]. set (TEX' := foldl _ TEX _).
    rewrite map_flat_map, flat_map_bind. apply NoDup_bind.
    + intros y1 y2 q _ _ H1 H2. rewrite map_flat_map in H1, H2.
      apply list_elem_of_In, in_flat_map in H1 as (x1 & _ & H1).
      apply list_elem_of_In, in_flat_map in H2 as (x2 & _ & H2).
      apply list_elem_of_In, draw_cell_pos in H1, H2. subst q.
      injection H2 as _ H2. unfold TILE in H2. lia.
    + intros y _. rewrite map_flat_map, flat_map_bind. apply NoDup_bind.
      * intros x1 x2 q _ _ H1 H2. apply draw_cell_pos in H1, H2. subst q.
        injection H2 as H2. unfold TILE in H2. lia.
      * intros x _. apply draw_cell_NoDup.
      * apply NoDup_ListNoDup, seq_NoDup.
    + apply NoDup_ListNoDup, seq_NoDup.
Qed.

(** [Array.from(new Set(assign))] holds the cells of [assign]. *)
Lemma elem_of_Set_from (assign : list cell) (c : cell) :
  c ∈ Set_from assign <-> c ∈ assign.
Proof.
  induction assign as [|c' rest IH]; [reflexivity|]. cbn [Set_from].
  rewrite !elem_of_cons, list_elem_of_filter, IH.
  destruct (decide (c = c')); tauto.
Qed.

(** The textures loaded are those of the non-empty ids of the assignment. *)
Lemma elem_of_used_ids (assign : list cell) (id : string) :
  id ∈ used_ids assign <-> id <> EmptyString /\ str id ∈ assign.
Proof.
  unfold used_ids. rewrite list_elem_of_omap. split.
  - intros (c & Hc & E). apply (proj1 (elem_of_Set_from _ _)) in Hc.
    destruct c as [| |s]; try discriminate. unfold truthy in E.
    destruct (decide (s = EmptyString)); [discriminate|]. injection E as E.
    subst s. split; assumption.
  - intros [Hid Hin]. exists (str id). split; [apply elem_of_Set_from, Hin|].
    unfold truthy. rewrite decide_False by exact Hid. reflexivity.
Qed.

Lemma foldl_loadTextureForBlock (loadImage : string -> option Image)
    (used : list string) (TEX : gmap string Image) (id : string) :
  foldl (fun cache i => loadTextureForBlock loadImage i cache) TEX used !! id
  = match TEX !! id with
    | Some img => Some img
    | None => if decide (id ∈ used) then loadImage id else None
    end.
Proof.
  revert TEX. induction used as [|i used IH]; intros TEX; cbn [foldl].
  - rewrite decide_False by apply not_elem_of_nil. destruct (TEX !! id); reflexivity.
  - rewrite IH. unfold loadTextureForBlock.
    destruct (decide (i = id)) as [->|Hne].
    + rewrite (decide_True (P := id ∈ id :: used)) by apply list_elem_of_here.
      destruct (TEX !! id) as [img|] eqn:E; [rewrite E; reflexivity|].
      destruct (loadImage id) as [img|] eqn:El.
      * rewrite lookup_insert_eq. reflexivity.
      * rewrite E. destruct (decide (id ∈ used)); reflexivity.
    + assert (forall T' : gmap string Image,
                T' !! id = TEX !! id ->
                match T' !! id with
                | Some img => Some img
                | None => if decide (id ∈ used) then loadImage id else None
                end
                = match TEX !! id with
                  | Some img => Some img
                  | None => if decide (id ∈ i :: used) then loadImage id else None
                  end) as H.
      { intros T' ->. destruct (TEX !! id); [reflexivity|].
        destruct (decide (id ∈ used)) as [Hin|Hin].
        - rewrite decide_True by (apply list_elem_of_further; exact Hin). reflexivity.
        - rewrite decide_False; [reflexivity|].
          intros [?|?]%elem_of_cons; congruence. }
      apply H. destruct (TEX !! i); [reflexivity|].
      destruct (loadImage i); [|reflexivity]. apply lookup_insert_ne. exact Hne.
Qed.

(** The texture cache after a render: what was cached stays, unchanged; a
    texture that was not cached is there exactly when a cell holds its
    (non-empty) id and the image loads; a load that fails leaves no entry, so
    it is tried again by the next render.  Hence a cell that holds a non-empty
    id is drawn exactly when its texture was cached before or loads now. *)
Theorem renderTextureMosaic_cache (loadImage : string -> option Image)
    (assign : list cell) (size : nat) (TEX : gmap string Image) (id : string) :
  let r := renderTextureMosaic loadImage assign size TEX in
  r.2 !! id
  = match TEX !! id with
    | Some img => Some img
    | None =>
      if decide (id <> EmptyString /\ str id ∈ assign) then loadImage id else None
    end /\
  (str id ∈ assign -> id <> EmptyString ->
   (resolved r.2 (str id) = true <-> is_Some (TEX !! id) \/ is_Some (loadImage id))).
Proof.
  intros r.
  assert (r.2 !! id
          = match TEX !! id with
            | Some img => Some img
            | None =>
              if decide (id <> EmptyString /\ str id ∈ assign) then loadImage id else None
            end) as E.
  { subst r. unfold renderTextureMosaic. cbn [snd].
    rewrite foldl_loadTextureForBlock. destruct (TEX !! id); [reflexivity|].
    destruct (decide (id ∈ used_ids assign)) as [H|H];
      rewrite elem_of_used_ids in H.
    - rewrite decide_True by exact H. reflexivity.
    - rewrite decide_False by exact H. reflexivity. }
  split; [exact E|]. intros Hin Hid.
  unfold resolved, truthy. rewrite decide_False by exact Hid. cbn [andb].
  rewrite bool_decide_eq_true, E.
  destruct (TEX !! id) as [img|].
  - split; eauto.
  - rewrite decide_True by auto. split; [auto|]. intros [[? [=]]|H]; exact H.
Qed.

End Canvas_facts.

(** ** The memory of the texture checks *)
Module Textures_facts.
Import MapArt Spec.

Section Textures.
Variable localeCompare : string -> string -> Z.
Variable BLOCKS : JS.object Block.

Local Abbreviation pushed := (Spec.pushed BLOCKS).
Local Abbreviation reaches_check := (Spec.reaches_check BLOCKS).

(** The texture check is the last thing an iteration looks at. *)
Lemma pushed_cases (mode : string) (includeCreative : bool) (ok : string -> bool)
    (id : string) :
  pushed mode includeCreative ok id
  = if ok id then pushed mode includeCreative (fun _ => true) id else None.
Proof.
  unfold Spec.pushed. destruct (JS.get BLOCKS id) as [b|]; [|destruct (ok id); reflexivity].
  destruct (avg_lab b); [|destruct (ok id); reflexivity]. cbv zeta.
  destruct (negb includeCreative && _); [destruct (ok id); reflexivity|].
  match goal with |- context [if ?c then None else _] => destruct c end;
    destruct (ok id); reflexivity.
Qed.

Lemma pushed_agree (mode : string) (includeCreative : bool) (ok ok' : string -> bool)
    (ids : list string) :
  (forall id, id ∈ ids -> reaches_check mode includeCreative id -> ok id = ok' id) ->
  omap (pushed mode includeCreative ok) ids = omap (pushed mode includeCreative ok') ids.
Proof.
  induction ids as [|id ids IH]; intros Hext; [reflexivity|]. csimpl.
  rewrite IH by (intros; apply Hext; [apply list_elem_of_further|]; assumption).
  rewrite (pushed_cases mode includeCreative ok), (pushed_cases mode includeCreative ok').
  destruct (pushed mode includeCreative (fun _ => true) id) as [e|] eqn:E.
  - rewrite (Hext id) by (try apply list_elem_of_here; unfold Spec.reaches_check; eauto).
    reflexivity.
  - destruct (ok id), (ok' id); reflexivity.
Qed.

(** After the loop every id that got as far as the texture check has its
    answer in the cache, and what was in the cache is still there. *)
Lemma buildPalette_loop_cached (fetchOk : string -> bool) (mode : string)
    (includeCreative : bool) (ids : list string) :
  forall arr T,
    let r := buildPalette_loop fetchOk BLOCKS mode includeCreative ids arr T in
    (forall id, is_Some (T !! id) -> r.2 !! id = T !! id) /\
    (forall id, id ∈ ids -> reaches_check mode includeCreative id -> is_Some (r.2 !! id)).
Proof.
  induction ids as [|id ids IH]; intros arr T; cbn [buildPalette_loop].
  - split; [reflexivity|]. intros id H. apply elem_of_nil in H. contradiction.
  - destruct (JS.get BLOCKS id) as [b|] eqn:Hb.
    2:{ destruct (IH arr T) as [Hkeep Hin]. split; [exact Hkeep|].
        intros id' [->|H]%elem_of_cons Hr; [|apply Hin; assumption].
        unfold Spec.reaches_check, Spec.pushed in Hr. rewrite Hb in Hr.
        destruct Hr; discriminate. }
    destruct (avg_lab b) as [lab|] eqn:Hlab.
    2:{ destruct (IH arr T) as [Hkeep Hin]. split; [exact Hkeep|].
        intros id' [->|H]%elem_of_cons Hr; [|apply Hin; assumption].
        unfold Spec.reaches_check, Spec.pushed in Hr. rewrite Hb, Hlab in Hr.
        destruct Hr; discriminate. }
    cbv zeta.
    destruct (negb includeCreative && creative_only (default no_tags (Catalog.tags b)))
      eqn:Hc.
    { destruct (IH arr T) as [Hkeep Hin]. split; [exact Hkeep|].
      intros id' [->|H]%elem_of_cons Hr; [|apply Hin; assumption].
      unfold Spec.reaches_check, Spec.pushed in Hr. rewrite Hb, Hlab in Hr.
      cbv zeta in Hr. rewrite Hc in Hr. destruct Hr; discriminate. }
    match goal with |- context [if ?c then buildPalette_loop _ _ _ _ _ _ _ else _] =>
      destruct c eqn:Hm end.
    { destruct (IH arr T) as [Hkeep Hin]. split; [exact Hkeep|].
      intros id' [->|H]%elem_of_cons Hr; [|apply Hin; assumption].
      unfold Spec.reaches_check, Spec.pushed in Hr. rewrite Hb, Hlab in Hr.
      cbv zeta in Hr. rewrite Hc, Hm in Hr. destruct Hr; discriminate. }
    assert (exists T', (exists ok, topTextureExists fetchOk id T = (ok, T')) /\
              is_Some (T' !! id) /\
              (forall id', is_Some (T !! id') -> T' !! id' = T !! id')) as (T' & [ok Ht] & Hid & Hold).
    { unfold topTextureExists. destruct (T !! id) as [v|] eqn:E.
      - exists T. split; [eauto|]. split; [rewrite E; eauto|reflexivity].
      - exists (<[id := fetchOk id]> T). split; [eauto|].
        split; [rewrite lookup_insert_eq; eauto|].
        intros id' [v Hv]. apply lookup_insert_ne. intros ->. congruence. }
    rewrite Ht.
    assert (forall arr',
              let r := buildPalette_loop fetchOk BLOCKS mode includeCreative ids arr' T' in
              (forall id0, is_Some (T !! id0) -> r.2 !! id0 = T !! id0) /\
              (forall id0, id0 ∈ id :: ids -> reaches_check mode includeCreative id0 ->
                 is_Some (r.2 !! id0))) as H.
    { intros arr'. destruct (IH arr' T') as [Hkeep Hin]. split.
      - intros id0 H0. rewrite Hkeep by (rewrite Hold; assumption). apply Hold, H0.
      - intros id0 [->|H0]%elem_of_cons Hr; [|apply Hin; assumption].
        rewrite Hkeep by exact Hid. exact Hid. }
    destruct (negb ok); apply H.
Qed.

(** A loop that finds every answer in the cache leaves the cache as it is. *)
Lemma buildPalette_loop_no_fetch (fetchOk : string -> bool) (mode : string)
    (includeCreative : bool) (ids : list string) :
  forall arr T,
    (forall id, id ∈ ids -> reaches_check mode includeCreative id -> is_Some (T !! id)) ->
    (buildPalette_loop fetchOk BLOCKS mode includeCreative ids arr T).2 = T.
Proof.
  induction ids as [|id ids IH]; intros arr T Hc; cbn [buildPalette_loop]; [reflexivity|].
  assert (forall id', id' ∈ ids -> reaches_check mode includeCreative id' ->
            is_Some (T !! id')) as Hc'
    by (intros; apply Hc; [apply list_elem_of_further|]; assumption).
  specialize (Hc id (list_elem_of_here _ _)).
  unfold Spec.reaches_check, Spec.pushed in Hc.
  destruct (JS.get BLOCKS id) as [b|]; [|apply IH, Hc'].
  destruct (avg_lab b) as [lab|]; [|apply IH, Hc']. cbv zeta in Hc |- *.
  destruct (negb includeCreative && _); [apply IH, Hc'|].
  match goal with |- context [if ?c then buildPalette_loop _ _ _ _ _ _ _ else _] =>
    destruct c end; [apply IH, Hc'|].
  destruct Hc as [v Hv]; [eauto|]. unfold topTextureExists. rewrite Hv.
  destruct (negb v); apply IH, Hc'.
Qed.

(** The answer of a texture check is asked for once and remembered, also
    when it is "no": a second [buildPalette] from the same catalog and
    controls gives the same palette and leaves the cache as it is, whatever
    the server would answer by then. *)
Theorem buildPalette_remembers_textures (fetchOk fetchOk' : string -> bool)
    (elPalette_value : option string) (elCreative_checked : option bool)
    (T : gmap string bool) :
  let r := buildPalette localeCompare fetchOk BLOCKS elPalette_value
             elCreative_checked T in
  buildPalette localeCompare fetchOk' BLOCKS elPalette_value elCreative_checked r.2 = r.
Proof.
  intros r. subst r. unfold buildPalette.
  set (mode := str_or elPalette_value "full_solid").
  set (ic := default false elCreative_checked).
  pose proof (Palette_facts.buildPalette_loop_spec fetchOk BLOCKS mode ic
                (JS.keys BLOCKS) [] T) as [H1 Hc].
  pose proof (buildPalette_loop_cached fetchOk mode ic (JS.keys BLOCKS) [] T) as [_ Hin].
  destruct (buildPalette_loop fetchOk BLOCKS mode ic (JS.keys BLOCKS) [] T) as [arr T'].
  cbn [fst snd] in *.
  pose proof (Palette_facts.buildPalette_loop_spec fetchOk' BLOCKS mode ic
                (JS.keys BLOCKS) [] T') as [H2 _].
  pose proof (buildPalette_loop_no_fetch fetchOk' mode ic (JS.keys BLOCKS) [] T' Hin) as H3.
  destruct (buildPalette_loop fetchOk' BLOCKS mode ic (JS.keys BLOCKS) [] T') as [arr2 T2].
  cbn [fst snd] in *. subst T2. f_equal. f_equal. rewrite H1, H2. cbn [app].
  apply pushed_agree. intros id Hid Hr. rewrite <- Hc.
  destruct (Hin id Hid Hr) as [v Hv]. unfold Spec.texture_ok. rewrite Hv. reflexivity.
Qed.

End Textures.

End Textures_facts.

(** ** The gradient tool: candidates, errors and the strip *)
Module Strip_facts.
Import Gradient Reference Spec Gradient_facts.

Section Picker.
Variable BLOCKS : gmap string Block.
Variable CANDIDATE_IDS : list string.
Variable elMode_value : string.
Variable elPreferBuilding_checked : bool.

Local Abbreviation scan :=
  (pickTransitions_scan BLOCKS elMode_value elPreferBuilding_checked).
Local Abbreviation loop :=
  (pickTransitions_loop BLOCKS CANDIDATE_IDS elMode_value elPreferBuilding_checked).

(** The scan throws on a candidate without colour that it does not skip. *)
Lemma scan_throws (avoidDupes : bool) (T : Lab) (used : gset string) (ids : list string) :
  (exists id, id ∈ ids /\ avg_lab_of BLOCKS id = None /\
     (avoidDupes = true -> id ∉ used)) ->
  forall bestId bestScore, scan avoidDupes T used ids bestId bestScore = TypeError.
Proof.
  induction ids as [|id ids IH]; intros (bad & Hin & Hbad & Hfree) bestId bestScore.
  - apply elem_of_nil in Hin. contradiction.
  - cbn [pickTransitions_scan].
    assert (bad ∈ ids ->
            forall b s, scan avoidDupes T used ids b s = TypeError) as Hrest
      by (intros; apply IH; eauto).
    apply elem_of_cons in Hin as [->|Hin].
    + destruct avoidDupes.
      * rewrite bool_decide_eq_false_2 by (apply Hfree; reflexivity). cbn [andb].
        unfold avg_lab_of in Hbad. destruct (BLOCKS !! id) as [b|]; [|reflexivity].
        rewrite Hbad. reflexivity.
      * cbn [andb]. unfold avg_lab_of in Hbad.
        destruct (BLOCKS !! id) as [b|]; [|reflexivity]. rewrite Hbad. reflexivity.
    + destruct (avoidDupes && bool_decide (id ∈ used)); [apply Hrest, Hin|].
      destruct (BLOCKS !! id) as [b|]; [|reflexivity].
      destruct (avg_lab b); [|reflexivity]. cbv zeta.
      destruct (F64.lt _ bestScore); apply Hrest, Hin.
Qed.

(** What the scan picks, if anything, is a candidate with a colour, not in
    use when duplicates are avoided. *)
Lemma scan_pick_colour (avoidDupes : bool) (T : Lab) (used : gset string)
    (ids : list string) :
  forall bestId bestScore id,
    scan avoidDupes T used ids bestId bestScore = Ok (Some id) ->
    bestId = Some id \/ (id ∈ ids /\ is_Some (avg_lab_of BLOCKS id)).
Proof.
  induction ids as [|id' ids IH]; intros bestId bestScore id; cbn [pickTransitions_scan].
  - intros [= ->]. left. reflexivity.
  - destruct (avoidDupes && bool_decide (id' ∈ used)).
    + intros H. destruct (IH _ _ _ H) as [?|[? ?]]; [auto|].
      right. split; [apply list_elem_of_further; assumption|assumption].
    + destruct (BLOCKS !! id') as [block|] eqn:Hb; [|discriminate].
      destruct (avg_lab block) as [lab|] eqn:Hl; [|discriminate]. cbv zeta.
      destruct (F64.lt _ bestScore); intros H;
        (destruct (IH _ _ _ H) as [E|[? ?]];
         [|right; split; [apply list_elem_of_further; assumption|assumption]]).
      * injection E as ->. right. split; [apply list_elem_of_here|].
        unfold avg_lab_of. rewrite Hb, Hl. eauto.
      * left. exact E.
Qed.

(** The loop adds at most one pick per target, each a non-empty candidate id
    with a colour, with or without [avoidDupes]. *)
Lemma loop_picks_any (avoidDupes : bool) (targets : list Lab) :
  forall used picks out,
    loop avoidDupes targets used picks = Ok out ->
    exists new, out = picks ++ new /\
      (length new <= length targets)%nat /\
      forall id, id ∈ new ->
        id ∈ CANDIDATE_IDS /\ id <> EmptyString /\ is_Some (avg_lab_of BLOCKS id).
Proof.
  induction targets as [|T targets IH]; intros used picks out; cbn [pickTransitions_loop].
  - intros [= <-]. exists []. rewrite app_nil_r.
    split; [reflexivity|]. split; [reflexivity|].
    intros x Hx. apply elem_of_nil in Hx. contradiction.
  - destruct (scan avoidDupes T used CANDIDATE_IDS None F64.Infinity)
      as [[bestId|]|] eqn:Hscan; [| |discriminate].
    + destruct (decide (bestId = EmptyString)) as [He|He].
      * intros H. destruct (IH _ _ _ H) as (new & -> & Hlen & Hin).
        exists new. split; [reflexivity|]. split; [simpl; lia|assumption].
      * intros H. destruct (IH _ _ _ H) as (new & -> & Hlen & Hin).
        apply scan_pick_colour in Hscan as [[=]|[Hcand Hcol]].
        exists (bestId :: new). rewrite <- app_assoc.
        split; [reflexivity|]. split; [simpl; lia|].
        intros x Hx. apply elem_of_cons in Hx as [->|Hx]; [auto|apply Hin, Hx].
    + intros H. destruct (IH _ _ _ H) as (new & -> & Hlen & Hin).
      exists new. split; [reflexivity|]. split; [simpl; lia|assumption].
Qed.

(** With or without [avoidDupes], the picks are at most [n] (none when [n]
    is not positive), and each is a non-empty id of a candidate that has a
    colour in the catalog. *)
Lemma pickTransitions_picks (idA idB : string) (n : Z) (avoidDupes : bool)
    (picks : list string) :
  pickTransitions BLOCKS CANDIDATE_IDS elMode_value elPreferBuilding_checked
    idA idB n avoidDupes = Ok picks ->
  (length picks <= Z.to_nat n)%nat /\
  (n <= 0 -> picks = []) /\
  forall id, id ∈ picks ->
    id ∈ CANDIDATE_IDS /\ id <> EmptyString /\ is_Some (avg_lab_of BLOCKS id).
Proof.
  unfold pickTransitions.
  assert (Ok (A := list string) [] = Ok picks ->
          (length picks <= Z.to_nat n)%nat /\ (n <= 0 -> picks = []) /\
          forall id, id ∈ picks ->
            id ∈ CANDIDATE_IDS /\ id <> EmptyString /\ is_Some (avg_lab_of BLOCKS id))
    as Hnil.
  { intros [= <-]. split; [simpl; lia|]. split; [reflexivity|].
    intros id Hid. apply elem_of_nil in Hid. contradiction. }
  destruct (avg_lab_of BLOCKS idA) as [A|]; [|exact Hnil].
  destruct (avg_lab_of BLOCKS idB) as [B|]; [|exact Hnil].
  intros H. apply loop_picks_any in H as (new & -> & Hlen & Hin).
  rewrite targets_of_length in Hlen. cbn [app].
  split; [exact Hlen|]. split; [|exact Hin].
  intros Hn. destruct new; [reflexivity|]. simpl in Hlen. lia.
Qed.

(** When the picker throws: exactly when both endpoints have a colour, [n]
    is at least 1, and some candidate has no colour in the catalog (it is
    missing, or its block has no [avg_lab]).  Such a candidate is reached by
    the scan of the first target, whatever [avoidDupes] is. *)
Lemma pickTransitions_throws (idA idB : string) (n : Z) (avoidDupes : bool) :
  pickTransitions BLOCKS CANDIDATE_IDS elMode_value elPreferBuilding_checked
    idA idB n avoidDupes = TypeError <->
  is_Some (avg_lab_of BLOCKS idA) /\ is_Some (avg_lab_of BLOCKS idB) /\ 1 <= n /\
  exists id, id ∈ CANDIDATE_IDS /\ avg_lab_of BLOCKS id = None.
Proof.
  unfold pickTransitions. split.
  - destruct (avg_lab_of BLOCKS idA) as [A|] eqn:HA; [|discriminate].
    destruct (avg_lab_of BLOCKS idB) as [B|] eqn:HB; [|discriminate].
    intros Hthrow. split; [eauto|]. split; [eauto|].
    assert (1 <= n) as Hn.
    { destruct (Z.le_gt_cases 1 n) as [?|Hlt]; [assumption|].
      unfold targets_of in Hthrow. replace (Z.to_nat n) with 0%nat in Hthrow by lia.
      discriminate. }
    split; [exact Hn|].
    destruct (decide (Forall (fun id => is_Some (avg_lab_of BLOCKS id)) CANDIDATE_IDS))
      as [Hall|Hex].
    + rewrite Forall_forall in Hall.
      destruct (loop_total BLOCKS CANDIDATE_IDS elMode_value elPreferBuilding_checked
                  avoidDupes (targets_of A B n) Hall {[idA; idB]} []) as [out Hout].
      congruence.
    + apply not_Forall_Exists in Hex; [|intros ?; apply _].
      apply Exists_exists in Hex as (id & Hid & Hnone).
      exists id. split; [exact Hid|].
      unfold compose in Hnone.
      destruct (avg_lab_of BLOCKS id); [exfalso; apply Hnone; eauto|reflexivity].
  - intros ([A HA] & [B HB] & Hn & id & Hid & Hnone). rewrite HA, HB.
    unfold targets_of. destruct (Z.to_nat n) as [|k] eqn:Hk; [lia|].
    cbn [seq map pickTransitions_loop].
    rewrite scan_throws; [reflexivity|].
    exists id. split; [exact Hid|]. split; [exact Hnone|].
    intros _ [Hin|Hin]%elem_of_union; apply elem_of_singleton in Hin; subst id; congruence.
Qed.

End Picker.

Section Best.
Variable BLOCKS : gmap string Block.
Variable elMode_value : string.
Variable elPreferBuilding_checked : bool.
Variable avoidDupes : bool.
Variable used : gset string.
Variable T : Lab.

Local Abbreviation scan :=
  (pickTransitions_scan BLOCKS elMode_value elPreferBuilding_checked avoidDupes T used).
Local Abbreviation score := (Spec.score BLOCKS elMode_value elPreferBuilding_checked T).
Local Abbreviation eligible := (Spec.eligible avoidDupes used).
Local Abbreviation best_candidate :=
  (Spec.best_candidate BLOCKS elMode_value elPreferBuilding_checked avoidDupes used T).
Local Abbreviation pick_inv :=
  (Spec.pick_inv BLOCKS elMode_value elPreferBuilding_checked avoidDupes used T).

Lemma pick_inv_below pre bestId bestScore s :
  pick_inv pre bestId bestScore -> F64.lt s bestScore = true ->
  F64.below_inf s = true.
Proof.
  destruct bestId as [id|]; cbn [Spec.pick_inv].
  - intros (i & _ & _ & _ & Hb & _) Hs. unfold F64.below_inf in *.
    eapply F64_facts.lt_trans; eauto.
  - intros [-> _] Hs. exact Hs.
Qed.

Lemma pick_inv_min pre bestId bestScore j id' s' :
  pick_inv pre bestId bestScore -> pre !! j = Some id' ->
  eligible id' = true -> score id' = Some s' -> F64.lt s' bestScore = false.
Proof.
  destruct bestId as [id|]; cbn [Spec.pick_inv].
  - intros (i & _ & _ & _ & _ & Hmin) Hj He Hs.
    destruct (Hmin j id' s' Hj He Hs) as [H _]. exact H.
  - intros [-> Hall] Hj He Hs. eapply Hall; eauto.
    eapply list_elem_of_lookup_2; eauto.
Qed.

(** A candidate the scan skips changes nothing. *)
Lemma pick_inv_skip pre bestId bestScore id :
  pick_inv pre bestId bestScore -> eligible id = false ->
  pick_inv (pre ++ [id]) bestId bestScore.
Proof.
  intros Hinv Hskip. destruct bestId as [b|]; cbn [Spec.pick_inv] in *.
  - destruct Hinv as (i & Hi & He & Hs & Hb & Hmin). exists i.
    split; [apply lookup_app_l_Some; exact Hi|]. split; [exact He|].
    split; [exact Hs|]. split; [exact Hb|].
    intros j id' s' Hj He' Hs'.
    apply lookup_snoc_Some in Hj as [[_ Hj]|[_ <-]]; [eauto|congruence].
  - destruct Hinv as [-> Hall]. split; [reflexivity|].
    intros id' s' [Hin| ->%list_elem_of_singleton]%elem_of_app He' Hs';
      [eauto|congruence].
Qed.

(** One comparison of the scan keeps what it knows. *)
Lemma pick_inv_step pre bestId bestScore id sc :
  pick_inv pre bestId bestScore -> eligible id = true -> score id = Some sc ->
  if F64.lt sc bestScore then pick_inv (pre ++ [id]) (Some id) sc
  else pick_inv (pre ++ [id]) bestId bestScore.
Proof.
  intros Hinv He Hs. destruct (F64.lt sc bestScore) eqn:Hlt.
  - exists (length pre).
    split; [rewrite lookup_app_r, Nat.sub_diag by lia; reflexivity|].
    split; [exact He|]. split; [exact Hs|].
    split; [eapply pick_inv_below; eauto|].
    intros j id' s' Hj He' Hs'.
    apply lookup_snoc_Some in Hj as [[_ Hj]|[Hlen <-]].
    + pose proof (pick_inv_min pre bestId bestScore j id' s' Hinv Hj He' Hs') as Hge.
      split.
      * destruct (F64.lt s' sc) eqn:Hq; [|reflexivity].
        rewrite <- Hge. symmetry. eapply F64_facts.lt_trans; eauto.
      * intros Heq. rewrite (F64_facts.eq_lt _ _ _ Heq Hlt) in Hge. discriminate.
    + assert (s' = sc) as -> by congruence.
      split; [apply F64_facts.lt_irrefl|lia].
  - destruct bestId as [b|]; cbn [Spec.pick_inv] in *.
    + destruct Hinv as (i & Hi & Heb & Hsb & Hb & Hmin). exists i.
      split; [apply lookup_app_l_Some; exact Hi|]. split; [exact Heb|].
      split; [exact Hsb|]. split; [exact Hb|].
      intros j id' s' Hj He' Hs'.
      apply lookup_snoc_Some in Hj as [[_ Hj]|[Hlen <-]]; [eauto|].
      assert (s' = sc) as -> by congruence.
      split; [exact Hlt|]. intros _. apply lookup_lt_Some in Hi. lia.
    + destruct Hinv as [-> Hall]. split; [reflexivity|].
      intros id' s' [Hin| ->%list_elem_of_singleton]%elem_of_app He' Hs'; [eauto|].
      assert (s' = sc) as -> by congruence. exact Hlt.
Qed.

(** So does the whole scan, which throws only on a candidate it does not
    skip and that has no score. *)
Lemma pickTransitions_scan_spec (rest pre : list string) (bestId : option string)
    (bestScore : float) :
  pick_inv pre bestId bestScore ->
  match scan rest bestId bestScore with
  | Ok b => exists s, pick_inv (pre ++ rest) b s
  | TypeError => exists id, id ∈ rest /\ eligible id = true /\ score id = None
  end.
Proof.
  revert pre bestId bestScore.
  induction rest as [|id rest IH]; intros pre bestId bestScore Hinv.
  - cbn [pickTransitions_scan]. exists bestScore. rewrite app_nil_r. exact Hinv.
  - cbn [pickTransitions_scan]. rewrite (cons_middle id pre rest), app_assoc.
    assert (forall b s,
              pick_inv (pre ++ [id]) b s ->
              match scan rest b s with
              | Ok b' => exists s', pick_inv ((pre ++ [id]) ++ rest) b' s'
              | TypeError =>
                exists id', id' ∈ id :: rest /\ eligible id' = true /\ score id' = None
              end) as Hnext.
    { intros b s Hb. specialize (IH _ _ _ Hb).
      destruct (scan rest b s); [exact IH|].
      destruct IH as (id' & Hin & H). exists id'.
      split; [apply list_elem_of_further; exact Hin|exact H]. }
    destruct (avoidDupes && bool_decide (id ∈ used)) eqn:Hskip.
    + apply Hnext, pick_inv_skip; [exact Hinv|].
      unfold Spec.eligible. rewrite Hskip. reflexivity.
    + assert (eligible id = true) as He
        by (unfold Spec.eligible; rewrite Hskip; reflexivity).
      pose proof (pick_inv_step pre bestId bestScore id) as Hstep.
      unfold Spec.score in Hstep at 1.
      destruct (BLOCKS !! id) as [block|] eqn:Hb.
      * destruct (avg_lab block) as [lab|] eqn:Hl.
        -- cbv zeta. specialize (Hstep _ Hinv He eq_refl).
           destruct (F64.lt _ bestScore); apply Hnext; exact Hstep.
        -- exists id. split; [apply list_elem_of_here|]. split; [exact He|].
           unfold Spec.score. rewrite Hb, Hl. reflexivity.
      * exists id. split; [apply list_elem_of_here|]. split; [exact He|].
        unfold Spec.score. rewrite Hb. reflexivity.
Qed.

(** What one scan of [pickTransitions] settles on for a target.  The id it
    picks is the first candidate, in candidate order, among those of the
    least score (distance to the target plus penalty) that it does not skip;
    it picks none only when no such candidate has a score below [Infinity];
    it throws only on a candidate without colour that it does not skip. *)
Theorem pickTransitions_scan_best (CANDIDATE_IDS : list string) :
  match scan CANDIDATE_IDS None F64.Infinity with
  | Ok (Some id) => exists i s, best_candidate CANDIDATE_IDS i id s
  | Ok None =>
    forall id s, id ∈ CANDIDATE_IDS -> eligible id = true -> score id = Some s ->
      F64.below_inf s = false
  | TypeError =>
    exists id, id ∈ CANDIDATE_IDS /\ eligible id = true /\ score id = None
  end.
Proof.
  pose proof (pickTransitions_scan_spec CANDIDATE_IDS [] None F64.Infinity) as H.
  destruct (scan CANDIDATE_IDS None F64.Infinity) as [[id|]|].
  - destruct H as [s (i & Hi)].
    + split; [reflexivity|]. intros ? ? ?%elem_of_nil. contradiction.
    + exists i, s. exact Hi.
  - destruct H as [s [_ Hall]].
    + split; [reflexivity|]. intros ? ? ?%elem_of_nil. contradiction.
    + exact Hall.
  - apply H. split; [reflexivity|]. intros ? ? ?%elem_of_nil. contradiction.
Qed.

End Best.

Section Update.
Variable headOk : string -> bool.
Variable ALL_IDS : list string.
Variable elFullBlocksOnly_checked : bool.
Variable elMode_value : string.
Variable elPreferBuilding_checked : bool.

Lemma elem_of_rebuildCandidates (BLOCKS : gmap string Block) (id : string) :
  id ∈ rebuildCandidates BLOCKS headOk ALL_IDS elFullBlocksOnly_checked <->
  id ∈ ALL_IDS /\ passesFilters BLOCKS elFullBlocksOnly_checked id = true /\
  headOk id = true.
Proof.
  unfold rebuildCandidates. rewrite !list_elem_of_In, !filter_In. tauto.
Qed.

(** A key of the catalog passes the filter when no filter is checked or its
    block is a full block. *)
Lemma passesFilters_own (BLOCKS : gmap string Block) (id : string) (b : Block) :
  BLOCKS !! id = Some b ->
  (passesFilters BLOCKS elFullBlocksOnly_checked id = true <->
   (elFullBlocksOnly_checked = true ->
    full_block (default no_flags (tag_flags b)) = true)).
Proof.
  intros Hb. unfold passesFilters. rewrite Hb.
  destruct elFullBlocksOnly_checked; [tauto|]. split; [discriminate|reflexivity].
Qed.

Lemma has_block_colour (BLOCKS : gmap string Block) (id : string) :
  is_Some (avg_lab_of BLOCKS id) -> has_block BLOCKS id = true.
Proof.
  unfold avg_lab_of, has_block. destruct (BLOCKS !! id) as [b|]; [|intros [? [=]]].
  intros _. rewrite bool_decide_eq_true_2 by eauto. reflexivity.
Qed.

(** One refresh of the gradient strip.  It leaves the strip alone exactly
    while the catalog is not loaded.  With the catalog loaded, it empties the
    strip exactly when [BLOCKS[id]] is falsy for an endpoint: the id is no key
    of the catalog and no name that plain objects inherit.  It throws exactly
    when both endpoints have a colour, at least one step is asked for, and
    some id of [ALL_IDS] passes the filter, has a texture that answers, and
    has no colour.  Otherwise it renders the first endpoint, at most 14 picks
    and the second endpoint, so at most 16 blocks, and each pick is a key of
    the catalog that passes the filter, has a texture and has a colour; with
    an endpoint that is truthy but has no colour, as a name that plain
    objects inherit is, it renders the two endpoints alone. *)
Theorem update_strip (BLOCKS : option (gmap string Block)) (idA idB : string)
    (elN_value : option Z) (elAvoidDupes_checked : bool) :
  let r := update BLOCKS headOk ALL_IDS elFullBlocksOnly_checked elMode_value
             elPreferBuilding_checked idA idB elN_value elAvoidDupes_checked in
  (r = Ok Untouched <-> BLOCKS = None) /\
  forall B, BLOCKS = Some B ->
    (r = Ok Emptied <-> has_block B idA = false \/ has_block B idB = false) /\
    (r = TypeError <->
       is_Some (avg_lab_of B idA) /\ is_Some (avg_lab_of B idB) /\
       (exists k, elN_value = Some k /\ 1 <= k) /\
       exists id, id ∈ ALL_IDS /\ headOk id = true /\
         passesFilters B elFullBlocksOnly_checked id = true /\
         avg_lab_of B id = None) /\
    (forall ids, r = Ok (Rendered ids) ->
       exists mids, ids = idA :: mids ++ [idB] /\
         (length mids <= 14)%nat /\ (length ids <= 16)%nat /\
         forall id, id ∈ mids ->
           id ∈ ALL_IDS /\ headOk id = true /\
           exists b, B !! id = Some b /\ is_Some (avg_lab b) /\
             (elFullBlocksOnly_checked = true ->
              full_block (default no_flags (tag_flags b)) = true)) /\
    (has_block B idA = true -> has_block B idB = true ->
     avg_lab_of B idA = None \/ avg_lab_of B idB = None ->
     r = Ok (Rendered [idA; idB])).
Proof.
  intros r. subst r. unfold update. destruct BLOCKS as [B0|].
  2:{ split; [tauto|]. intros B [=]. }
  split; [split; [|discriminate]|].
  { destruct (negb (has_block B0 idA) || negb (has_block B0 idB)); [discriminate|].
    destruct (pickTransitions _ _ _ _ _ _ _ _); discriminate. }
  intros B [= ->].
  set (CANDS := rebuildCandidates B headOk ALL_IDS elFullBlocksOnly_checked).
  set (n := match elN_value with Some k => Z.min k 14 | None => 0 end).
  assert (1 <= n <-> exists k, elN_value = Some k /\ 1 <= k) as Hn.
  { subst n. destruct elN_value as [k|].
    - split; [intros H; exists k; split; [reflexivity|lia]|intros (k' & [= <-] & H); lia].
    - split; [lia|intros (k & [=] & _)]. }
  assert (n <= 14) as Hn14 by (subst n; destruct elN_value; lia).
  assert ((exists id, id ∈ CANDS /\ avg_lab_of B id = None) <->
          exists id, id ∈ ALL_IDS /\ headOk id = true /\
            passesFilters B elFullBlocksOnly_checked id = true /\
            avg_lab_of B id = None) as Hbad.
  { split; intros (id & H).
    - destruct H as [Hid Hnone]. apply elem_of_rebuildCandidates in Hid. exists id. tauto.
    - exists id. split; [apply elem_of_rebuildCandidates; tauto|tauto]. }
  pose proof (pickTransitions_throws B CANDS elMode_value elPreferBuilding_checked
                idA idB n elAvoidDupes_checked) as Hthrow.
  rewrite Hn, Hbad in Hthrow.
  pose proof (pickTransitions_picks B CANDS elMode_value elPreferBuilding_checked
                idA idB n elAvoidDupes_checked) as Hpicks.
  destruct (has_block B idA) eqn:HA; cbn [negb orb].
  2:{ split; [split; auto|]. split; [split; [discriminate|]|].
      { intros (Hc & _). apply has_block_colour in Hc. congruence. }
      split; [discriminate|]. discriminate. }
  destruct (has_block B idB) eqn:HB; cbn [negb orb].
  2:{ split; [split; auto|]. split; [split; [discriminate|]|].
      { intros (_ & Hc & _). apply has_block_colour in Hc. congruence. }
      split; [discriminate|]. discriminate. }
  split.
  { split; [|intros [|]; discriminate].
    destruct (pickTransitions _ _ _ _ _ _ _ _); discriminate. }
  destruct (pickTransitions B CANDS elMode_value elPreferBuilding_checked
              idA idB n elAvoidDupes_checked) as [mids|] eqn:Hp.
  - split; [split; [discriminate|intros H; apply Hthrow in H; discriminate]|].
    split.
    + intros ids [= <-]. exists mids.
      destruct (Hpicks mids eq_refl) as (Hlen & _ & Hin).
      split; [reflexivity|]. split; [lia|].
      split; [cbn [length]; rewrite length_app; cbn [length]; lia|].
      intros id Hid. destruct (Hin id Hid) as (Hc & _ & Hcol).
      apply elem_of_rebuildCandidates in Hc as (Hall & Hpass & Hhead).
      split; [exact Hall|]. split; [exact Hhead|].
      unfold avg_lab_of in Hcol. destruct (B !! id) as [b|] eqn:Hb; [|destruct Hcol as [? [=]]].
      exists b. split; [reflexivity|]. split; [exact Hcol|].
      apply (passesFilters_own B id b Hb). exact Hpass.
    + intros _ _ Hnone. unfold pickTransitions in Hp.
      destruct Hnone as [Hnone|Hnone]; rewrite Hnone in Hp.
      * injection Hp as <-. reflexivity.
      * destruct (avg_lab_of B idA); injection Hp as <-; reflexivity.
  - split; [split; [intros _; apply Hthrow; reflexivity|reflexivity]|].
    split; [discriminate|].
    intros _ _ Hnone. destruct (proj1 Hthrow eq_refl) as ([? HcA] & [? HcB] & _).
    destruct Hnone; congruence.
Qed.

End Update.

(** C8, where the code departs from it.  On the sample catalog with every
    texture on the server and no filter checked, the candidates are all the
    keys of the catalog, ["air"] among them, a block without [avg_lab].
    Between the endpoints ["stone"] and ["snow"], which both have a colour,
    with [avoidDupes] set, the scan of the first target reads the colour of
    ["air"] and [distLab] throws: the call raises an error where the claim has
    it return a sequence, and so does the [update] that calls it. *)
Lemma pickTransitions_avoidDupes_throws :
  rebuildCandidates Sample.blocks (fun _ => true) Sample.all_ids false
  = Sample.all_ids /\
  pickTransitions Sample.blocks Sample.all_ids "building" true "stone" "snow" 3 true
  = TypeError /\
  update (Some Sample.blocks) (fun _ => true) Sample.all_ids false "building" true
    "stone" "snow" (Some 3) true
  = TypeError.
Proof. repeat split; vm_compute; reflexivity. Qed.

End Strip_facts.

(** ** The counts as CSV, and the centre crop *)
Module Export_facts.
Import MapArt.

Section Stable.
Context {A : Type} (cmp : A -> A -> Z) (P : A -> Prop) `{!forall x, Decision (P x)}.
Hypothesis same_class : forall x y, P x -> P y -> cmp x y <= 0.

(** The sort keeps the order of the elements of a class whose members do not
    compare above each other. *)
Lemma sort_insert_filter (x : A) (l : list A) :
  filter P (JS.sort_insert cmp x l) = filter P (x :: l).
Proof.
  induction l as [|y l IH]; [reflexivity|]. cbn [JS.sort_insert].
  destruct (Z.leb_spec (cmp x y) 0) as [Hxy|Hxy]; [reflexivity|].
  rewrite (filter_cons _ y), IH, !(filter_cons _ x), (filter_cons _ y).
  destruct (decide (P x)) as [Hx|Hx]; [|reflexivity].
  destruct (decide (P y)) as [Hy|Hy]; [|reflexivity].
  specialize (same_class x y Hx Hy). lia.
Qed.

Lemma sort_filter (l : list A) : filter P (JS.sort cmp l) = filter P l.
Proof.
  induction l as [|x l IH]; [reflexivity|]. cbn [JS.sort].
  rewrite sort_insert_filter, !(filter_cons _ x), IH. reflexivity.
Qed.
End Stable.

Lemma StronglySorted_weaken {A : Type} (R R' : relation A) (l : list A) :
  (forall a b, R a b -> R' a b) -> StronglySorted R l -> StronglySorted R' l.
Proof.
  intros HR. induction 1 as [|x l Hl IH Hx]; constructor; [exact IH|].
  eapply Forall_impl; [exact Hx|]. intros y. apply HR.
Qed.

Lemma fold_left_push {A B : Type} (f : A -> B) (l : list A) (acc : list B) :
  fold_left (fun acc e => acc ++ [f e]) l acc = acc ++ map f l.
Proof.
  revert acc. induction l as [|x l IH]; intros acc; cbn [fold_left map].
  - rewrite app_nil_r. reflexivity.
  - rewrite IH, <- app_assoc. reflexivity.
Qed.

(** The rows of the CSV download: after the header, one line per entry of
    the counts, in the order of decreasing count; entries with the same
    count keep the order they have in the counts. *)
Theorem countsToCsv_rows (BLOCKS : option (JS.object Block)) (counts : JS.object Z) :
  exists rows,
    countsToCsv BLOCKS counts
    = String.concat newline
        ("block_id,block_name,count"%string :: map (csv_line BLOCKS) rows) /\
    rows ≡ₚ counts /\
    StronglySorted (fun a b => b.2 <= a.2) rows /\
    forall n : Z, filter (fun e => e.2 = n) rows = filter (fun e => e.2 = n) counts.
Proof.
  exists (entries counts). unfold countsToCsv. cbv zeta. rewrite fold_left_push.
  split; [reflexivity|]. unfold entries.
  split; [apply Sort_facts.sort_perm|]. split.
  - eapply StronglySorted_weaken; [|apply Sort_facts.sort_sorted].
    + intros a b H. unfold Spec.before in H. lia.
    + split; [intros a b; lia|intros a b c; lia].
  - intros n. apply sort_filter. intros x y Hx Hy. lia.
Qed.

(** The centre crop takes a square of the side of the shorter edge of the
    picture, inside the picture, flush with the longer edges and centred
    along the shorter ones up to one pixel, and scales it to the whole
    [size * size] canvas. *)
Theorem getCroppedCanvas_centre (elImg : Image) (naturalWidth naturalHeight : Z)
    (size : Z) :
  0 <= naturalWidth -> 0 <= naturalHeight ->
  let d := getCroppedCanvas elImg naturalWidth naturalHeight size in
  tex d = elImg /\
  sw d = sh d /\ sw d = Z.min naturalWidth naturalHeight /\
  0 <= sx d /\ sx d + sw d <= naturalWidth /\
  0 <= sy d /\ sy d + sh d <= naturalHeight /\
  (sx d = 0 \/ sy d = 0) /\
  0 <= (naturalWidth - (sx d + sw d)) - sx d <= 1 /\
  0 <= (naturalHeight - (sy d + sh d)) - sy d <= 1 /\
  (dx d, dy d, dw d, dh d) = (0, 0, size, size).
Proof.
  intros HW HH d. subst d. unfold getCroppedCanvas. cbn [tex sx sy sw sh dx dy dw dh].
  pose proof (Z.div_mod (naturalWidth - Z.min naturalWidth naturalHeight) 2).
  pose proof (Z.mod_pos_bound (naturalWidth - Z.min naturalWidth naturalHeight) 2).
  pose proof (Z.div_mod (naturalHeight - Z.min naturalWidth naturalHeight) 2).
  pose proof (Z.mod_pos_bound (naturalHeight - Z.min naturalWidth naturalHeight) 2).
  assert (naturalWidth <= naturalHeight ->
          (naturalWidth - Z.min naturalWidth naturalHeight) / 2 = 0)
    by (intros; rewrite Z.min_l by lia; rewrite Z.sub_diag; reflexivity).
  assert (naturalHeight <= naturalWidth ->
          (naturalHeight - Z.min naturalWidth naturalHeight) / 2 = 0)
    by (intros; rewrite Z.min_r by lia; rewrite Z.sub_diag; reflexivity).
  repeat split; try reflexivity; try lia.
Qed.

(** A picture of 7 by 4 pixels: the square of side 4 one pixel from the
    left, two from the right. *)
Lemma getCroppedCanvas_centre_witness :
  let d := getCroppedCanvas (mkImage "blob:picture" 7 4) 7 4 128 in
  (sx d, sy d, sw d, sh d) = (1, 0, 4, 4) /\ sx d + sw d <= 7.
Proof.
  split; [reflexivity|].
  apply (getCroppedCanvas_centre (mkImage "blob:picture" 7 4) 7 4 128); lia.
Defined.

End Export_facts.

(** ** The view: [clamp] and the limits of the zoom *)
Module View_facts.
Import F64 MapArt Spec F64_facts.

Lemma SFleb_refl (a : spec_float) : a <> S754_nan -> SFleb a a = true.
Proof. unfold SFleb. destruct a as [sa|sa| |sa ma ea]; sf_cases. Qed.

Lemma SFltb_leb (a b : spec_float) : SFltb a b = true -> SFleb a b = true.
Proof. unfold SFltb, SFleb. destruct (SFcompare a b) as [[]|]; congruence. Qed.

Lemma SFltb_false_leb (a b : spec_float) :
  a <> S754_nan -> b <> S754_nan -> SFltb a b = false -> SFleb b a = true.
Proof.
  unfold SFltb, SFleb.
  destruct a as [sa|sa| |sa ma ea], b as [sb|sb| |sb mb eb]; sf_cases.
Qed.

Lemma SFleb_ltb_false (a b : spec_float) : SFleb a b = true -> SFltb b a = false.
Proof.
  unfold SFltb, SFleb.
  destruct a as [sa|sa| |sa ma ea], b as [sb|sb| |sb mb eb]; sf_cases.
Qed.

Lemma SFltb_both_false_eqb (a b : spec_float) :
  a <> S754_nan -> b <> S754_nan -> SFltb a b = false -> SFltb b a = false ->
  SFeqb a b = true.
Proof.
  unfold SFltb, SFeqb.
  destruct a as [sa|sa| |sa ma ea], b as [sb|sb| |sb mb eb]; sf_cases.
Qed.

Lemma SFeqb_refl (a : spec_float) : a <> S754_nan -> SFeqb a a = true.
Proof. unfold SFeqb. destruct a as [sa|sa| |sa ma ea]; sf_cases. Qed.

Lemma SFeqb_trans (a b c : spec_float) :
  SFeqb a b = true -> SFeqb b c = true -> SFeqb a c = true.
Proof.
  unfold SFeqb.
  destruct a as [sa|sa| |sa ma ea], b as [sb|sb| |sb mb eb],
    c as [sc|sc| |sc mc ec]; sf_cases.
Qed.

Lemma SFeqb_leb_l (a b c : spec_float) :
  SFeqb a b = true -> SFleb c b = true -> SFleb c a = true.
Proof.
  unfold SFeqb, SFleb.
  destruct a as [sa|sa| |sa ma ea], b as [sb|sb| |sb mb eb],
    c as [sc|sc| |sc mc ec]; sf_cases.
Qed.

Lemma SFleb_not_nan (a b : spec_float) :
  SFleb a b = true -> a <> S754_nan /\ b <> S754_nan.
Proof.
  unfold SFleb. destruct a as [sa|sa| |sa ma ea], b as [sb|sb| |sb mb eb];
    simpl; try discriminate; intros _; split; discriminate.
Qed.

Lemma is_nan_spec (x : float) : PrimFloat.is_nan x = false <-> is_number x.
Proof.
  unfold PrimFloat.is_nan, is_number. rewrite FloatAxioms.eqb_spec. unfold SFeqb.
  destruct (Prim2SF x) as [sa|sa| |sa ma ea]; sf_cases; split; congruence.
Qed.

(** [Math.min] of two numbers is one of them, and below both. *)
Lemma Math_min_cases (x y : float) :
  is_number x -> is_number y ->
  (JS.Math_min x y = x \/ JS.Math_min x y = y) /\
  is_number (JS.Math_min x y) /\
  le (JS.Math_min x y) x = true /\ le (JS.Math_min x y) y = true.
Proof.
  intros Hx Hy. unfold JS.Math_min, le.
  rewrite (proj2 (is_nan_spec x) Hx), (proj2 (is_nan_spec y) Hy). cbn [orb].
  rewrite !FloatAxioms.ltb_spec.
  destruct (SFltb (Prim2SF x) (Prim2SF y)) eqn:Hxy.
  { rewrite !FloatAxioms.leb_spec. auto using SFleb_refl, SFltb_leb. }
  destruct (SFltb (Prim2SF y) (Prim2SF x)) eqn:Hyx.
  { rewrite !FloatAxioms.leb_spec. auto using SFleb_refl, SFltb_leb. }
  destruct (classify x); rewrite !FloatAxioms.leb_spec;
    auto 6 using SFleb_refl, SFltb_false_leb.
Qed.

(** [Math.max] of two numbers is one of them, and above both. *)
Lemma Math_max_cases (x y : float) :
  is_number x -> is_number y ->
  (JS.Math_max x y = x \/ JS.Math_max x y = y) /\
  is_number (JS.Math_max x y) /\
  le x (JS.Math_max x y) = true /\ le y (JS.Math_max x y) = true.
Proof.
  intros Hx Hy. unfold JS.Math_max, le.
  rewrite (proj2 (is_nan_spec x) Hx), (proj2 (is_nan_spec y) Hy). cbn [orb].
  rewrite !FloatAxioms.ltb_spec.
  destruct (SFltb (Prim2SF y) (Prim2SF x)) eqn:Hyx.
  { rewrite !FloatAxioms.leb_spec. auto using SFleb_refl, SFltb_leb. }
  destruct (SFltb (Prim2SF x) (Prim2SF y)) eqn:Hxy.
  { rewrite !FloatAxioms.leb_spec. auto using SFleb_refl, SFltb_leb. }
  destruct (classify x); rewrite !FloatAxioms.leb_spec;
    auto 6 using SFleb_refl, SFltb_false_leb.
Qed.

(** When two numbers are equal, [Math.min] and [Math.max] are equal to
    both. *)
Lemma Math_min_eq (x y : float) :
  is_number x -> is_number y -> le y x = true -> eq (JS.Math_min x y) y = true.
Proof.
  intros Hx Hy Hle. unfold JS.Math_min, le, eq in *.
  rewrite (proj2 (is_nan_spec x) Hx), (proj2 (is_nan_spec y) Hy). cbn [orb].
  rewrite FloatAxioms.leb_spec in Hle. rewrite !FloatAxioms.ltb_spec.
  rewrite (SFleb_ltb_false _ _ Hle).
  destruct (SFltb (Prim2SF y) (Prim2SF x)) eqn:Hyx.
  { rewrite FloatAxioms.eqb_spec. apply SFeqb_refl, Hy. }
  pose proof (SFltb_both_false_eqb _ _ Hx Hy (SFleb_ltb_false _ _ Hle) Hyx).
  destruct (classify x); rewrite FloatAxioms.eqb_spec;
    auto using SFeqb_refl.
Qed.

Lemma Math_max_eq (x y : float) :
  is_number x -> is_number y -> le x y = true -> eq (JS.Math_max x y) y = true.
Proof.
  intros Hx Hy Hle. unfold JS.Math_max, le, eq in *.
  rewrite (proj2 (is_nan_spec x) Hx), (proj2 (is_nan_spec y) Hy). cbn [orb].
  rewrite FloatAxioms.leb_spec in Hle. rewrite !FloatAxioms.ltb_spec.
  rewrite (SFleb_ltb_false _ _ Hle).
  destruct (SFltb (Prim2SF x) (Prim2SF y)) eqn:Hxy.
  { rewrite FloatAxioms.eqb_spec. apply SFeqb_refl, Hy. }
  pose proof (SFltb_both_false_eqb _ _ Hx Hy Hxy (SFleb_ltb_false _ _ Hle)).
  destruct (classify x); rewrite FloatAxioms.eqb_spec;
    auto using SFeqb_refl.
Qed.

Lemma le_numbers (a b : float) : le a b = true -> is_number a /\ is_number b.
Proof.
  unfold le, is_number. rewrite FloatAxioms.leb_spec. apply SFleb_not_nan.
Qed.

(** [clamp] brings a number between the bounds. *)
Lemma clamp_range (v a b : float) :
  is_number v -> le a b = true ->
  le a (clamp v a b) = true /\ le (clamp v a b) b = true.
Proof.
  intros Hv Hab. unfold clamp.
  destruct (le_numbers a b Hab) as [Ha Hb].
  destruct (Math_min_cases b v Hb Hv) as (_ & Hm & Hmb & _).
  destruct (Math_max_cases a (JS.Math_min b v) Ha Hm) as ([E|E] & _ & Hle & _).
  - rewrite E in *. split; [exact Hle|exact Hab].
  - rewrite E in *. split; [exact Hle|exact Hmb].
Qed.

(** [clamp(v, a, b)] for bounds [a <= b].  A number [v] comes back as a
    number between [a] and [b] that is one of [a], [b] and [v], and as a
    number equal to [v] when [v] is between the bounds already; [NaN] comes
    back as [NaN]. *)
Theorem clamp_between (v a b : float) :
  le a b = true ->
  (is_number v ->
   le a (clamp v a b) = true /\ le (clamp v a b) b = true /\
   (clamp v a b = a \/ clamp v a b = b \/ clamp v a b = v) /\
   (le a v = true -> le v b = true -> eq (clamp v a b) v = true)) /\
  (PrimFloat.is_nan v = true -> Prim2SF (clamp v a b) = S754_nan).
Proof.
  intros Hab. destruct (le_numbers a b Hab) as [Ha Hb]. split.
  - intros Hv. destruct (clamp_range v a b Hv Hab) as [H1 H2].
    split; [exact H1|]. split; [exact H2|]. unfold clamp.
    destruct (Math_min_cases b v Hb Hv) as (Hm & Hmn & _).
    destruct (Math_max_cases a (JS.Math_min b v) Ha Hmn) as (Hr & _).
    split.
    + destruct Hr as [-> | ->]; [auto|]. destruct Hm as [-> | ->]; auto.
    + intros Hav Hvb.
      pose proof (Math_min_eq b v Hb Hv Hvb) as Hmv.
      assert (le a (JS.Math_min b v) = true) as Ham.
      { unfold le, eq in *. rewrite FloatAxioms.leb_spec in *.
        rewrite FloatAxioms.eqb_spec in Hmv. eapply SFeqb_leb_l; eauto. }
      pose proof (Math_max_eq a (JS.Math_min b v) Ha Hmn Ham) as Hrm.
      unfold eq in *. rewrite FloatAxioms.eqb_spec in *.
      eapply SFeqb_trans; eauto.
  - intros Hv. unfold clamp, JS.Math_min. rewrite Hv, orb_true_r.
    unfold JS.Math_max.
    replace (PrimFloat.is_nan nan) with true by (vm_compute; reflexivity).
    rewrite orb_true_r. vm_compute. reflexivity.
Qed.

(** The zoom scale 3 between the limits of the view. *)
Lemma clamp_between_witness : eq (clamp 3 VIEW_MIN VIEW_MAX) 3 = true.
Proof.
  destruct (clamp_between 3 VIEW_MIN VIEW_MAX) as [H _]; [reflexivity|].
  destruct H as (_ & _ & _ & H); [vm_compute; discriminate|].
  apply H; reflexivity.
Defined.

(** Rounding a non-negative mantissa never yields [NaN]. *)
Lemma shr_1_nonneg (mrs : shr_record) : 0 <= shr_m mrs -> 0 <= shr_m (shr_1 mrs).
Proof.
  destruct mrs as [m r s]. cbn [shr_m]. intros H.
  destruct m as [|[p|p|]|p]; cbn [shr_1 shr_m]; lia.
Qed.

Lemma iter_pos_shr_1_nonneg (p : positive) : forall mrs,
  0 <= shr_m mrs -> 0 <= shr_m (SpecFloat.iter_pos shr_1 p mrs).
Proof.
  induction p as [p IH|p IH|]; intros mrs H; cbn [SpecFloat.iter_pos].
  - apply IH, IH, shr_1_nonneg, H.
  - apply IH, IH, H.
  - apply shr_1_nonneg, H.
Qed.

Lemma shr_fexp_nonneg (prec emax m e : Z) (l : location) :
  0 <= m -> 0 <= shr_m (shr_fexp prec emax m e l).1.
Proof.
  intros H. unfold shr_fexp, shr.
  assert (0 <= shr_m (shr_record_of_loc m l)) as H0
    by (destruct l as [|[]]; exact H).
  destruct (fexp prec emax (Zdigits2 m + e) - e) as [|p|p]; cbn [fst];
    [exact H0|apply iter_pos_shr_1_nonneg, H0|exact H0].
Qed.

Lemma round_nearest_even_nonneg (m : Z) (l : location) :
  0 <= m -> 0 <= round_nearest_even m l.
Proof.
  intros H. unfold round_nearest_even.
  destruct l as [|[]]; [lia| |lia|lia]. destruct (Z.even m); lia.
Qed.

Lemma binary_round_aux_not_nan (prec emax : Z) (sx : bool) (mx ex : Z) (lx : location) :
  0 <= mx -> binary_round_aux prec emax sx mx ex lx <> S754_nan.
Proof.
  intros H. unfold binary_round_aux.
  pose proof (shr_fexp_nonneg prec emax mx ex lx H) as H1.
  destruct (shr_fexp prec emax mx ex lx) as [mrs' e']. cbn [fst] in H1.
  pose proof (shr_fexp_nonneg prec emax
                (round_nearest_even (shr_m mrs') (loc_of_shr_record mrs')) e' loc_Exact
                (round_nearest_even_nonneg _ _ H1)) as H2.
  destruct (shr_fexp prec emax _ e' loc_Exact) as [mrs'' e'']. cbn [fst] in H2.
  destruct (shr_m mrs'') as [|m|m]; [discriminate| |lia].
  destruct (e'' <=? emax - prec); discriminate.
Qed.

(** A finite number other than zero, times a number, is a number. *)
Lemma mul_is_number (x y : float) s m e :
  Prim2SF x = S754_finite s m e -> is_number y -> is_number (x * y)%float.
Proof.
  unfold is_number. intros Hx Hy. rewrite FloatAxioms.mul_spec, Hx.
  unfold SF64mul, SFmul.
  destruct (Prim2SF y) as [sy|sy| |sy my ey]; try discriminate; [contradiction|].
  apply binary_round_aux_not_nan. lia.
Qed.

(** The quotient of two finite numbers other than zero is a number. *)
Lemma div_is_number (x y : float) sx mx ex sy my ey :
  Prim2SF x = S754_finite sx mx ex -> Prim2SF y = S754_finite sy my ey ->
  is_number (x / y)%float.
Proof.
  unfold is_number. intros Hx Hy. rewrite FloatAxioms.div_spec, Hx, Hy.
  unfold SF64div, SFdiv.
  destruct (SFdiv_core_binary prec emax (Z.pos mx) ex (Z.pos my) ey)
    as [[mz ez] lz] eqn:E.
  apply binary_round_aux_not_nan.
  unfold SFdiv_core_binary in E.
  set (s := ex - ey - _) in E.
  set (m' := match s with
             | Z.pos _ => Z.shiftl (Z.pos mx) s
             | 0 => Z.pos mx
             | Z.neg _ => 0
             end) in E.
  assert (0 <= m') as Hm'.
  { subst m'. destruct s; [lia|apply Z.shiftl_nonneg; lia|lia]. }
  pose proof (Z_div_mod m' (Z.pos my) ltac:(lia)) as Hd.
  destruct (Z.div_eucl m' (Z.pos my)) as [q r]. injection E as <- _ _.
  destruct Hd as [Hd Hr]. nia.
Qed.

(** A scale within the limits is a positive finite number. *)
Lemma within_limits_finite (s : float) :
  within_limits s -> exists m e, Prim2SF s = S754_finite false m e.
Proof.
  unfold within_limits, le. rewrite !FloatAxioms.leb_spec.
  set (a := Prim2SF VIEW_MIN). vm_compute in a. subst a.
  set (b := Prim2SF VIEW_MAX). vm_compute in b. subst b.
  destruct (Prim2SF s) as [[]|[]| |[] m e]; cbv [SFleb SFcompare]; intros [H1 H2];
    try discriminate; eauto.
Qed.

(** A finite size that passes the test [<= 0] of [fitToFrame] is a positive
    finite number. *)
Lemma positive_finite (x : float) :
  finite x = true -> (x <=? 0)%float = false ->
  exists m e, Prim2SF x = S754_finite false m e.
Proof.
  unfold finite. rewrite FloatAxioms.ltb_spec, FloatAxioms.leb_spec, FloatAxioms.abs_spec.
  set (a := Prim2SF infinity). vm_compute in a. subst a.
  set (b := Prim2SF 0). vm_compute in b. subst b.
  destruct (Prim2SF x) as [[]|[]| |[] m e]; cbv [SFltb SFleb SFcompare SFabs];
    intros H1 H2; try discriminate; eauto.
Qed.

Lemma clamp_within (v : float) :
  is_number v -> within_limits (clamp v VIEW_MIN VIEW_MAX).
Proof. intros Hv. apply clamp_range; [exact Hv|reflexivity]. Qed.

Lemma zoomAtCenter_within (elements : bool) (factor s : float) :
  is_number factor -> within_limits s ->
  within_limits (zoomAtCenter elements factor s).
Proof.
  intros Hf Hs. unfold zoomAtCenter. destruct elements; cbn [negb]; [|exact Hs].
  cbv zeta. apply clamp_within.
  destruct (within_limits_finite s Hs) as (m & e & E).
  eapply mul_is_number; eauto.
Qed.

Lemma fitToFrame_within (elements : bool) (cw ch ww wh s : float) :
  finite cw = true -> finite ch = true -> finite ww = true -> finite wh = true ->
  within_limits s -> within_limits (fitToFrame elements cw ch ww wh s).
Proof.
  intros Hcw Hch Hww Hwh Hs. unfold fitToFrame.
  destruct elements; cbn [negb]; [|exact Hs].
  destruct (cw <=? 0)%float eqn:H1; [exact Hs|].
  destruct (ch <=? 0)%float eqn:H2; [exact Hs|].
  destruct (ww <=? 0)%float eqn:H3; [exact Hs|].
  destruct (wh <=? 0)%float eqn:H4; [exact Hs|].
  cbn [orb]. cbv zeta. apply clamp_within.
  destruct (positive_finite cw Hcw H1) as (? & ? & ?).
  destruct (positive_finite ch Hch H2) as (? & ? & ?).
  destruct (positive_finite ww Hww H3) as (? & ? & ?).
  destruct (positive_finite wh Hwh H4) as (? & ? & ?).
  apply Math_min_cases; eapply div_is_number; eauto.
Qed.

(** The zoom never leaves its limits: from a scale between [VIEW_MIN] and
    [VIEW_MAX], as the initial scale 1 is, every sequence of zooms in, zooms
    out and fits to the frame, on finite sizes, ends at a scale between
    [VIEW_MIN] and [VIEW_MAX]; in particular the scale is never [NaN]. *)
Theorem VIEW_SCALE_within_limits (elements : bool) (events : list view_event)
    (VIEW_SCALE : float) :
  Forall (fun ev => finite_sizes ev = true) events ->
  within_limits VIEW_SCALE ->
  within_limits (foldl (fun s ev => on_view_event elements ev s) VIEW_SCALE events).
Proof.
  intros Hev. revert VIEW_SCALE.
  induction Hev as [|ev events Hfin _ IH]; intros s Hs; cbn [foldl]; [exact Hs|].
  apply IH. destruct ev as [| |cw ch ww wh]; cbn [on_view_event].
  - apply zoomAtCenter_within; [|exact Hs]. unfold is_number. vm_compute. discriminate.
  - apply zoomAtCenter_within; [|exact Hs]. unfold is_number. vm_compute. discriminate.
  - cbn [finite_sizes] in Hfin.
    repeat (apply andb_prop in Hfin as [Hfin ?]).
    apply fitToFrame_within; assumption.
Qed.

(** From the initial scale: a zoom in, a fit of a canvas of 2048 pixels to a
    frame of 800 by 600, where the scale bottoms out at [VIEW_MIN], and two
    zooms out. *)
Lemma VIEW_SCALE_within_limits_witness :
  within_limits (foldl (fun s ev => on_view_event true ev s) 1%float
                   [ZoomIn; Fit 2048 2048 800 600; ZoomOut; ZoomOut]).
Proof.
  apply VIEW_SCALE_within_limits.
  - repeat constructor.
  - split; reflexivity.
Defined.

End View_facts.

(** ** Typed names and ids *)
Module Ids_facts.
Import Gradient Spec.

Lemma lower_units (c : ascii) :
  JS.lower (JS.lower c) = JS.lower c /\ JS.is_space (JS.lower c) = JS.is_space c.
Proof. destruct c as [[] [] [] [] [] [] [] []]; split; reflexivity. Qed.

Lemma replace_spaces_id_like (in_run : bool) (s : string) :
  (forall c, In c (list_ascii_of_string s) -> JS.lower c = c) ->
  id_like (JS.replace_spaces "_" in_run s) = true.
Proof.
  revert in_run. induction s as [|c s IH]; intros in_run Hl; [reflexivity|].
  cbn [JS.replace_spaces].
  assert (forall c', In c' (list_ascii_of_string s) -> JS.lower c' = c') as Hl'
    by (intros; apply Hl; right; assumption).
  destruct (JS.is_space c) eqn:Hc.
  - destruct in_run; [apply IH, Hl'|].
    change ("_" +:+ ?x) with (String "_"%char x). cbn [id_like].
    rewrite IH by exact Hl'. reflexivity.
  - cbn [id_like].
    rewrite Hc, (Hl c (or_introl eq_refl)), Ascii.eqb_refl, IH by exact Hl'.
    reflexivity.
Qed.

Lemma toLowerCase_lower (s : string) (c : ascii) :
  In c (list_ascii_of_string (JS.toLowerCase s)) -> JS.lower c = c.
Proof.
  induction s as [|x s IH]; cbn [JS.toLowerCase list_ascii_of_string In];
    [contradiction|].
  intros [<-|H]; [apply lower_units|apply IH, H].
Qed.

Lemma id_like_trimStart (s : string) : id_like s = true -> JS.trimStart s = s.
Proof.
  destruct s as [|c s]; [reflexivity|]. cbn [id_like JS.trimStart].
  destruct (JS.is_space c); [discriminate|reflexivity].
Qed.

Lemma id_like_trimEnd (s : string) : id_like s = true -> JS.trimEnd s = s.
Proof.
  induction s as [|c s IH]; [reflexivity|]. cbn [id_like JS.trimEnd].
  intros [[Hc _]%andb_prop Hs]%andb_prop. rewrite (IH Hs).
  destruct s; [|reflexivity]. apply negb_true_iff in Hc. rewrite Hc. reflexivity.
Qed.

Lemma id_like_toLowerCase (s : string) : id_like s = true -> JS.toLowerCase s = s.
Proof.
  induction s as [|c s IH]; [reflexivity|]. cbn [id_like JS.toLowerCase].
  intros [[_ Hc]%andb_prop Hs]%andb_prop. rewrite (IH Hs).
  apply Ascii.eqb_eq in Hc. rewrite Hc. reflexivity.
Qed.

Lemma id_like_replace_spaces (r s : string) :
  id_like s = true -> JS.replace_spaces r false s = s.
Proof.
  induction s as [|c s IH]; [reflexivity|]. cbn [id_like JS.replace_spaces].
  intros [[Hc _]%andb_prop Hs]%andb_prop. apply negb_true_iff in Hc.
  rewrite Hc, (IH Hs). reflexivity.
Qed.

(** What [normalizeId] returns is written as an id, without white space or
    capital letters; a string that is written so already, as the ids of the
    catalog are, comes back unchanged; hence normalizing twice is normalizing
    once. *)
Theorem normalizeId_ids (input : string) :
  id_like (normalizeId input) = true /\
  (id_like input = true -> normalizeId input = input) /\
  normalizeId (normalizeId input) = normalizeId input.
Proof.
  assert (id_like (normalizeId input) = true) as H1.
  { unfold normalizeId. destruct (decide (input = EmptyString)); [reflexivity|].
    apply replace_spaces_id_like. intros c. apply toLowerCase_lower. }
  assert (forall s, id_like s = true -> normalizeId s = s) as H2.
  { intros s Hs. unfold normalizeId.
    destruct (decide (s = EmptyString)); [congruence|]. unfold JS.trim.
    rewrite (id_like_trimStart s Hs), (id_like_trimEnd s Hs), (id_like_toLowerCase s Hs).
    apply id_like_replace_spaces, Hs. }
  split; [exact H1|]. split; [apply H2|apply H2, H1].
Qed.

(** A name as it is typed, with stray white space. *)
Example normalizeId_oak_planks :
  normalizeId "  Oak   Planks " = "oak_planks"%string.
Proof. reflexivity. Qed.

End Ids_facts.
